(** * Buffer-pool containers: extendible hash table and LRU-K replacer

    A shallow embedding of
    - [src/container/hash/extendible_hash_table.cpp] (with the declarations of
      [extendible_hash_table.h]), and
    - the LRU-K replacer ([LRUKReplacer::Evict], [RecordAccess],
      [SetEvictable], [Remove], [Size]),
    followed by the properties of the design document that were checked
    against them. *)

From Stdlib Require Import ZArith List Lia Bool Sorted.
Import ListNotations.
Open Scope Z_scope.

(** ** Small list utilities shared by both components *)

(** [v[i] = x] on a [std::vector]/[std::list] position that exists. *)
Fixpoint list_set {A : Type} (i : nat) (x : A) (l : list A) : list A :=
  match l, i with
  | [], _ => []
  | _ :: r, O => x :: r
  | y :: r, S j => y :: list_set j x r
  end.

Lemma list_set_length {A : Type} (x : A) (l : list A) : forall i,
  length (list_set i x l) = length l.
Proof.
  induction l as [|y r IH]; intros [|i]; simpl; auto.
Qed.

Lemma nth_list_set {A : Type} (x d : A) (l : list A) : forall i j,
  nth j (list_set i x l) d =
  if (Nat.eqb j i && Nat.ltb i (length l))%bool then x else nth j l d.
Proof.
  induction l as [|y r IH]; intros i j.
  - destruct i, j; simpl; rewrite ?andb_false_r; reflexivity.
  - destruct i as [|i], j as [|j]; simpl; try reflexivity.
    rewrite IH. reflexivity.
Qed.

(* ================================================================== *)
(** * Extendible hash table *)
(* ================================================================== *)

Module ExtendibleHashTable.

(** [static constexpr int kMaxGlobalDepth = 20;] *)
Definition kMaxGlobalDepth : Z := 20.

Section Table.

(** The class is a template over [K] and [V]; keys are compared with
    [operator==] and hashed with [std::hash<K>], whose result is a
    [size_t]. *)
Variables K V : Type.
Variable key_eqb : K -> K -> bool.
Variable hash : K -> Z.

(** *** Bucket *)

Record Bucket : Type := mkBucket {
  size_ : Z;                  (* size_t size_ *)
  depth_ : Z;                 (* int depth_ *)
  list_ : list (K * V)        (* std::list<std::pair<K, V>> list_ *)
}.

Definition IsFull (b : Bucket) : bool :=
  Z.of_nat (length (list_ b)) =? size_ b.

Definition GetDepth (b : Bucket) : Z := depth_ b.

Definition IncrementDepth (b : Bucket) : Bucket :=
  mkBucket (size_ b) (depth_ b + 1) (list_ b).

(** [Bucket::Find]: first pair whose key equals [key]. *)
Fixpoint find_item (l : list (K * V)) (key : K) : option V :=
  match l with
  | [] => None
  | (k, v) :: r => if key_eqb k key then Some v else find_item r key
  end.

Definition Bucket_Find (b : Bucket) (key : K) : option V :=
  find_item (list_ b) key.

(** [Bucket::Remove]: erase the first pair whose key equals [key]. *)
Fixpoint remove_item (l : list (K * V)) (key : K) : option (list (K * V)) :=
  match l with
  | [] => None
  | (k, v) :: r =>
      if key_eqb k key then Some r
      else match remove_item r key with
           | Some r' => Some ((k, v) :: r')
           | None => None
           end
  end.

Definition Bucket_Remove (b : Bucket) (key : K) : Bucket * bool :=
  match remove_item (list_ b) key with
  | Some l => (mkBucket (size_ b) (depth_ b) l, true)
  | None => (b, false)
  end.

(** First loop of [Bucket::Insert]: overwrite the value of an existing key. *)
Fixpoint update_item (l : list (K * V)) (key : K) (value : V)
  : option (list (K * V)) :=
  match l with
  | [] => None
  | (k, v) :: r =>
      if key_eqb k key then Some ((k, value) :: r)
      else match update_item r key value with
           | Some r' => Some ((k, v) :: r')
           | None => None
           end
  end.

Definition Bucket_Insert (b : Bucket) (key : K) (value : V) : Bucket * bool :=
  match update_item (list_ b) key value with
  | Some l => (mkBucket (size_ b) (depth_ b) l, true)
  | None =>
      if IsFull b then (b, false)
      else (mkBucket (size_ b) (depth_ b) (list_ b ++ [(key, value)]), true)
  end.

(** *** Table

    [dir_] is a vector of [std::shared_ptr<Bucket>]: several slots may hold
    the same pointer and [Insert] compares pointers.  The buckets live in a
    store, a pointer is the position of its bucket in the store, and
    [std::make_shared] appends to the store. *)

Record Table : Type := mkTable {
  global_depth_ : Z;          (* int global_depth_ *)
  bucket_size_ : Z;           (* size_t bucket_size_ *)
  num_buckets_ : Z;           (* int num_buckets_ *)
  dir_ : list nat;            (* std::vector<std::shared_ptr<Bucket>> dir_ *)
  store_ : list Bucket
}.

Definition null_bucket : Bucket := mkBucket 0 0 [].

Definition deref (t : Table) (p : nat) : Bucket := nth p (store_ t) null_bucket.

Definition dir_at (t : Table) (index : Z) : nat :=
  nth (Z.to_nat index) (dir_ t) O.

Definition assign (t : Table) (p : nat) (b : Bucket) : Table :=
  mkTable (global_depth_ t) (bucket_size_ t) (num_buckets_ t) (dir_ t)
          (list_set p b (store_ t)).

(** Constructor. *)
Definition new_table (bucket_size : Z) : Table :=
  mkTable 0 bucket_size 1 [O] [mkBucket bucket_size 0 []].

(** [int mask = (1 << global_depth_) - 1; return hash(key) & mask;] *)
Definition IndexOf (t : Table) (key : K) : Z :=
  Z.land (hash key) (Z.shiftl 1 (global_depth_ t) - 1).

Definition GetGlobalDepth (t : Table) : Z := global_depth_ t.

Definition GetLocalDepth (t : Table) (dir_index : Z) : Z :=
  GetDepth (deref t (dir_at t dir_index)).

Definition GetNumBuckets (t : Table) : Z := num_buckets_ t.

Definition Find (t : Table) (key : K) : option V :=
  Bucket_Find (deref t (dir_at t (IndexOf t key))) key.

Definition Remove (t : Table) (key : K) : Table * bool :=
  let p := dir_at t (IndexOf t key) in
  let (b, r) := Bucket_Remove (deref t p) key in
  (assign t p b, r).

(** [global_depth_++; dir_.resize(2 * n); dir_[i + n] = dir_[i]]. *)
Definition grow (t : Table) : Table :=
  mkTable (global_depth_ t + 1) (bucket_size_ t) (num_buckets_ t)
          (dir_ t ++ dir_ t) (store_ t).

(** The loop over [old_items]: an item stays when its index under the
    current global depth equals [index], the index that was computed for
    the key being inserted at the top of the iteration; otherwise it is
    handed to [new_bucket->Insert] and erased from the old bucket. *)
Fixpoint redistribute (t : Table) (index : Z) (items : list (K * V))
    (new_bucket : Bucket) : list (K * V) * Bucket :=
  match items with
  | [] => ([], new_bucket)
  | (k, v) :: r =>
      if IndexOf t k =? index then
        let (kept, nb) := redistribute t index r new_bucket in
        ((k, v) :: kept, nb)
      else redistribute t index r (fst (Bucket_Insert new_bucket k v))
  end.

(** The loop over the directory:
    [if (dir_[i] == old_bucket && (i & (1 << (depth - 1)))) dir_[i] = new_bucket]. *)
Fixpoint repoint (i : Z) (dir : list nat) (old_bucket new_bucket : nat)
    (depth : Z) : list nat :=
  match dir with
  | [] => []
  | p :: r =>
      (if Nat.eqb p old_bucket
          && negb (Z.land i (Z.shiftl 1 (depth - 1)) =? 0)
       then new_bucket else p)
      :: repoint (i + 1) r old_bucket new_bucket depth
  end.

(** Lines 89-111 of [Insert]: the split of the bucket [p = dir_[index]]. *)
Definition split (t : Table) (index : Z) (p : nat) : Table :=
  let bucket := IncrementDepth (deref t p) in
  let new_p := length (store_ t) in
  let (kept, new_bucket) :=
    redistribute t index (list_ bucket)
                 (mkBucket (bucket_size_ t) (GetDepth bucket) []) in
  mkTable (global_depth_ t) (bucket_size_ t) (num_buckets_ t + 1)
          (repoint 0 (dir_ t) p new_p (GetDepth bucket))
          (list_set p (mkBucket (size_ bucket) (depth_ bucket) kept) (store_ t)
           ++ [new_bucket]).

(** One iteration of the [while (true)] loop of [Insert]. *)
Inductive iteration : Type :=
| Returned (t : Table)
| Thrown (t : Table)        (* std::overflow_error *)
| Continue (t : Table).

Definition Insert_iteration (t : Table) (key : K) (value : V) : iteration :=
  let index := IndexOf t key in
  let p := dir_at t index in
  let (b, ok) := Bucket_Insert (deref t p) key value in
  if ok then Returned (assign t p b)
  else if GetDepth (deref t p) =? global_depth_ t then
    if global_depth_ t >=? kMaxGlobalDepth then Thrown t
    else Continue (split (grow t) index p)
  else Continue (split t index p).

(** Result of a call of [Insert]. *)
Inductive outcome : Type :=
| Done (t : Table)
| Overflow (t : Table)
| Diverged.

Fixpoint Insert_loop (fuel : nat) (t : Table) (key : K) (value : V) : outcome :=
  match fuel with
  | O => Diverged
  | S n =>
      match Insert_iteration t key value with
      | Returned t' => Done t'
      | Thrown t' => Overflow t'
      | Continue t' => Insert_loop n t' key value
      end
  end.

(** The loop runs at most [kMaxGlobalDepth + 1] times on a table built by
    the constructor and the public operations ([Insert_never_diverges]). *)
Definition Insert (t : Table) (key : K) (value : V) : outcome :=
  Insert_loop (Z.to_nat (kMaxGlobalDepth + 1)) t key value.


(** *** Runs of public operations *)

Inductive op : Type :=
| OpFind (key : K)
| OpInsert (key : K) (value : V)
| OpRemove (key : K)
| OpGetGlobalDepth
| OpGetLocalDepth (dir_index : Z)
| OpGetNumBuckets.

Definition overflowed (o : outcome) : bool :=
  match o with Overflow _ => true | _ => false end.

(** The table a caller holds after the call (an exception leaves the object
    as the call left it). *)
Definition table_after (t : Table) (o : outcome) : Table :=
  match o with Done t' => t' | Overflow t' => t' | Diverged => t end.

Definition exec (t : Table) (o : op) : option Table :=
  match o with
  | OpInsert key value =>
      match Insert t key value with
      | Done t' => Some t'
      | Overflow t' => Some t'
      | Diverged => None
      end
  | OpRemove key => Some (fst (Remove t key))
  | OpFind _ | OpGetGlobalDepth | OpGetLocalDepth _ | OpGetNumBuckets => Some t
  end.

Fixpoint run (ops : list op) (t : Table) : option Table :=
  match ops with
  | [] => Some t
  | o :: r => match exec t o with Some t' => run r t' | None => None end
  end.

(** *** Invariants *)

(** The property of the design document: the directory has [2^global_depth]
    slots and no slot refers to a bucket deeper than the global depth. *)
Definition directory_invariant (t : Table) : Prop :=
  Z.of_nat (length (dir_ t)) = 2 ^ global_depth_ t /\
  forall i, 0 <= i < Z.of_nat (length (dir_ t)) ->
            GetLocalDepth t i <= GetGlobalDepth t.

(** The invariant the proofs carry: also the depth cap and the validity of
    the pointers of the directory. *)
Definition wf (t : Table) : Prop :=
  0 <= global_depth_ t <= kMaxGlobalDepth /\
  Z.of_nat (length (dir_ t)) = 2 ^ global_depth_ t /\
  Forall (fun p => (p < length (store_ t))%nat /\
                   0 <= depth_ (deref t p) <= global_depth_ t) (dir_ t).

Definition key_depth (t : Table) (key : K) : Z :=
  GetDepth (deref t (dir_at t (IndexOf t key))).

(** *** Lemmas on the bucket operations *)

Lemma Bucket_Insert_depth b key value :
  depth_ (fst (Bucket_Insert b key value)) = depth_ b.
Proof.
  unfold Bucket_Insert.
  destruct (update_item (list_ b) key value); [reflexivity|].
  destruct (IsFull b); reflexivity.
Qed.

Lemma Bucket_Remove_depth b key :
  depth_ (fst (Bucket_Remove b key)) = depth_ b.
Proof.
  unfold Bucket_Remove. destruct (remove_item (list_ b) key); reflexivity.
Qed.

Lemma update_item_None l key value :
  update_item l key value = None -> find_item l key = None.
Proof.
  induction l as [|[k v] r IH]; simpl; [reflexivity|].
  destruct (key_eqb k key); [discriminate|].
  destruct (update_item r key value); [discriminate|]. auto.
Qed.

Lemma Bucket_Insert_false b key value :
  snd (Bucket_Insert b key value) = false -> Bucket_Find b key = None.
Proof.
  unfold Bucket_Insert, Bucket_Find.
  destruct (update_item (list_ b) key value) eqn:E; [discriminate|].
  intros _. eapply update_item_None; eauto.
Qed.

Lemma redistribute_depth t index items nb :
  depth_ (snd (redistribute t index items nb)) = depth_ nb.
Proof.
  revert nb. induction items as [|[k v] r IH]; intros nb; simpl; [reflexivity|].
  destruct (IndexOf t k =? index).
  - specialize (IH nb). destruct (redistribute t index r nb). exact IH.
  - rewrite IH. apply Bucket_Insert_depth.
Qed.

(** *** Lemmas on the directory *)

Lemma repoint_length dir : forall i old new d,
  length (repoint i dir old new d) = length dir.
Proof. induction dir; simpl; intros; [reflexivity|]. now rewrite IHdir. Qed.

Lemma repoint_In dir : forall i old new d q,
  In q (repoint i dir old new d) -> q = new \/ In q dir.
Proof.
  induction dir as [|p r IH]; simpl; intros i old new d q H; [tauto|].
  destruct H as [H|H].
  - destruct (_ && _); auto.
  - apply IH in H. tauto.
Qed.

Lemma repoint_nth dir : forall i old new d n,
  (n < length dir)%nat -> nth n dir O = old ->
  nth n (repoint i dir old new d) O = old \/
  nth n (repoint i dir old new d) O = new.
Proof.
  induction dir as [|p r IH]; simpl; intros i old new d n Hn H; [lia|].
  destruct n as [|n].
  - subst p. destruct (_ && _); auto.
  - apply IH; [lia|exact H].
Qed.

Lemma mask_ones g : Z.shiftl 1 g - 1 = Z.ones g.
Proof. unfold Z.ones. lia. Qed.

Lemma IndexOf_mod t key :
  0 <= global_depth_ t -> IndexOf t key = hash key mod 2 ^ global_depth_ t.
Proof. intros H. unfold IndexOf. rewrite mask_ones. now apply Z.land_ones. Qed.

Lemma IndexOf_range t key :
  0 <= global_depth_ t -> 0 <= IndexOf t key < 2 ^ global_depth_ t.
Proof.
  intros H. rewrite IndexOf_mod by assumption.
  apply Z.mod_pos_bound. apply Z.pow_pos_nonneg; lia.
Qed.

Lemma wf_slot t index :
  wf t -> 0 <= index < 2 ^ global_depth_ t ->
  In (dir_at t index) (dir_ t).
Proof.
  intros (_ & Hlen & _) Hi. unfold dir_at. apply nth_In. lia.
Qed.

Lemma wf_key_slot t key : wf t -> In (dir_at t (IndexOf t key)) (dir_ t).
Proof.
  intros H. apply wf_slot; [assumption|].
  apply IndexOf_range. destruct H as (H & _). lia.
Qed.

Lemma wf_In t p :
  wf t -> In p (dir_ t) ->
  (p < length (store_ t))%nat /\ 0 <= depth_ (deref t p) <= global_depth_ t.
Proof.
  intros (_ & _ & H) Hp. rewrite Forall_forall in H. now apply H.
Qed.

Lemma wf_directory_invariant t : wf t -> directory_invariant t.
Proof.
  intros H. split; [apply H|].
  intros i Hi. unfold GetLocalDepth, GetGlobalDepth, GetDepth.
  apply (wf_In t (dir_at t i) H).
  apply wf_slot; [assumption|]. destruct H as (_ & Hlen & _). lia.
Qed.

(** *** The store *)

Lemma deref_assign t p b q :
  deref (assign t p b) q =
  if (Nat.eqb q p && Nat.ltb p (length (store_ t)))%bool then b else deref t q.
Proof. unfold deref, assign; simpl. apply nth_list_set. Qed.

Lemma assign_wf t p b :
  wf t -> depth_ b = depth_ (deref t p) -> wf (assign t p b).
Proof.
  intros (Hg & Hlen & Hall) Hd. repeat split; simpl; try lia.
  rewrite Forall_forall in *. intros q Hq. specialize (Hall q Hq).
  rewrite list_set_length, deref_assign.
  destruct (Nat.eqb q p && _)%bool eqn:E; [|exact Hall].
  apply andb_prop in E. destruct E as [E _]. apply Nat.eqb_eq in E. subst q.
  rewrite Hd. exact Hall.
Qed.

Lemma grow_wf t :
  wf t -> global_depth_ t < kMaxGlobalDepth -> wf (grow t).
Proof.
  intros (Hg & Hlen & Hall) Hlt. unfold grow. repeat split; simpl; try lia.
  - rewrite length_app, Nat2Z.inj_add, Hlen, Z.pow_add_r by lia.
    change (2 ^ 1) with 2. lia.
  - apply Forall_app. split; (eapply Forall_impl; [|exact Hall]);
      unfold deref; simpl; intros q Hq; lia.
Qed.

Lemma split_global_depth t index p :
  global_depth_ (split t index p) = global_depth_ t.
Proof. unfold split. destruct (redistribute _ _ _ _). reflexivity. Qed.

Lemma split_deref_old t index p :
  (p < length (store_ t))%nat ->
  depth_ (deref (split t index p) p) = depth_ (deref t p) + 1.
Proof.
  intros Hp. unfold split. destruct (redistribute _ _ _ _) as [kept nb].
  unfold deref at 1; simpl.
  rewrite app_nth1 by (rewrite list_set_length; exact Hp).
  rewrite nth_list_set, Nat.eqb_refl.
  destruct (Nat.ltb_spec p (length (store_ t))); [reflexivity|lia].
Qed.

Lemma split_deref_new t index p :
  depth_ (deref (split t index p) (length (store_ t))) = depth_ (deref t p) + 1.
Proof.
  unfold split.
  pose proof (redistribute_depth t index (list_ (IncrementDepth (deref t p)))
                (mkBucket (bucket_size_ t)
                          (GetDepth (IncrementDepth (deref t p))) [])) as H.
  destruct (redistribute _ _ _ _) as [kept nb]. simpl in H.
  unfold deref at 1; simpl.
  rewrite app_nth2 by (rewrite list_set_length; lia).
  rewrite list_set_length, Nat.sub_diag. simpl. exact H.
Qed.

Lemma split_deref_other t index p q :
  (q < length (store_ t))%nat -> q <> p ->
  deref (split t index p) q = deref t q.
Proof.
  intros Hq Hne. unfold split. destruct (redistribute _ _ _ _) as [kept nb].
  unfold deref; simpl.
  rewrite app_nth1 by (rewrite list_set_length; exact Hq).
  rewrite nth_list_set.
  destruct (Nat.eqb_spec q p); [contradiction|reflexivity].
Qed.

Lemma split_store_length t index p :
  length (store_ (split t index p)) = S (length (store_ t)).
Proof.
  unfold split. destruct (redistribute _ _ _ _) as [kept nb]. simpl.
  rewrite length_app, list_set_length. simpl. lia.
Qed.

Lemma split_dir t index p :
  dir_ (split t index p) =
  repoint 0 (dir_ t) p (length (store_ t)) (depth_ (deref t p) + 1).
Proof. unfold split. destruct (redistribute _ _ _ _). reflexivity. Qed.

Lemma split_wf t index p :
  wf t -> In p (dir_ t) -> depth_ (deref t p) < global_depth_ t ->
  wf (split t index p).
Proof.
  intros Hwf Hp Hd. pose proof Hwf as (Hg & Hlen & Hall).
  destruct (wf_In t p Hwf Hp) as [Hpl Hpd].
  unfold wf. rewrite split_global_depth, split_dir, repoint_length.
  repeat split; try lia.
  rewrite Forall_forall. intros q Hq. rewrite split_store_length.
  apply repoint_In in Hq. destruct Hq as [Hq|Hq].
  - subst q. rewrite split_deref_new. lia.
  - destruct (wf_In t q Hwf Hq) as [Hql Hqd].
    destruct (Nat.eq_dec q p) as [->|Hne].
    + rewrite split_deref_old by assumption. lia.
    + rewrite split_deref_other by assumption. lia.
Qed.

Lemma split_key_depth t index p key :
  wf t -> dir_at t (IndexOf t key) = p ->
  key_depth (split t index p) key = depth_ (deref t p) + 1.
Proof.
  intros Hwf Hp. pose proof (wf_key_slot t key Hwf) as Hin. rewrite Hp in Hin.
  destruct (wf_In t p Hwf Hin) as [Hpl _].
  pose proof Hwf as (Hg & Hlen & _).
  pose proof (IndexOf_range t key (proj1 Hg)) as Hr.
  unfold key_depth, GetDepth, dir_at.
  replace (IndexOf (split t index p) key) with (IndexOf t key)
    by (unfold IndexOf; now rewrite split_global_depth).
  rewrite split_dir.
  destruct (repoint_nth (dir_ t) 0 p (length (store_ t))
              (depth_ (deref t p) + 1) (Z.to_nat (IndexOf t key))) as [E|E];
    [lia|exact Hp|rewrite E..].
  - now apply split_deref_old.
  - apply split_deref_new.
Qed.

(** After a doubling the key still reaches, before the split, the bucket
    it reached in the old directory. *)
Lemma grow_key_slot t key :
  wf t -> dir_at (grow t) (IndexOf (grow t) key) = dir_at t (IndexOf t key).
Proof.
  intros (Hg & Hlen & _).
  assert (Hpos : 0 < 2 ^ global_depth_ t) by (apply Z.pow_pos_nonneg; lia).
  rewrite !IndexOf_mod by (simpl; lia). simpl.
  rewrite Z.pow_add_r by lia. change (2 ^ 1) with 2.
  rewrite Z.rem_mul_r by lia.
  pose proof (Z.mod_pos_bound (hash key) (2 ^ global_depth_ t) Hpos) as Hm.
  pose proof (Z.mod_pos_bound (hash key / 2 ^ global_depth_ t) 2) as Hb.
  unfold dir_at; simpl.
  set (m := hash key mod 2 ^ global_depth_ t) in *.
  set (e := (hash key / 2 ^ global_depth_ t) mod 2) in *.
  assert (He : e = 0 \/ e = 1) by lia. destruct He as [He|He]; rewrite He.
  - rewrite app_nth1 by lia. f_equal. lia.
  - rewrite app_nth2 by lia. f_equal. lia.
Qed.

(** *** One iteration, the loop, and runs *)

Lemma Insert_iteration_spec t key value :
  wf t ->
  match Insert_iteration t key value with
  | Returned t' => wf t'
  | Thrown t' =>
      t' = t /\ global_depth_ t = kMaxGlobalDepth /\
      key_depth t key = kMaxGlobalDepth /\ Find t key = None
  | Continue t' =>
      wf t' /\ key_depth t' key = key_depth t key + 1 /\
      global_depth_ t <= global_depth_ t'
  end.
Proof.
  intros Hwf. unfold Insert_iteration.
  set (p := dir_at t (IndexOf t key)).
  pose proof (wf_key_slot t key Hwf) as Hin. fold p in Hin.
  destruct (wf_In t p Hwf Hin) as [Hpl Hpd].
  pose proof (Bucket_Insert_depth (deref t p) key value) as Hdep.
  pose proof (Bucket_Insert_false (deref t p) key value) as Hfalse.
  destruct (Bucket_Insert (deref t p) key value) as [b ok]. simpl in *.
  destruct ok.
  - now apply assign_wf.
  - unfold GetDepth. destruct (Z.eqb_spec (depth_ (deref t p)) (global_depth_ t)) as [E|E].
    + destruct (Z.geb_spec (global_depth_ t) kMaxGlobalDepth) as [G|G].
      * destruct Hwf as (Hg & _).
        repeat split; [lia|unfold key_depth, GetDepth; fold p; lia|].
        unfold Find. fold p. now apply Hfalse.
      * pose proof (grow_wf t Hwf G) as Hgw.
        pose proof (grow_key_slot t key Hwf) as Hslot. fold p in Hslot.
        assert (Hd : deref (grow t) p = deref t p) by reflexivity.
        split; [|split].
        -- apply split_wf; [assumption|..].
           ++ rewrite <- Hslot. now apply wf_key_slot.
           ++ rewrite Hd. simpl. lia.
        -- rewrite (split_key_depth (grow t)) by assumption.
           rewrite Hd. reflexivity.
        -- rewrite split_global_depth. simpl. lia.
    + split; [|split].
      * apply split_wf; [assumption..|lia].
      * rewrite (split_key_depth t _ p key Hwf eq_refl). reflexivity.
      * rewrite split_global_depth. lia.
Qed.

Lemma key_depth_bound t key : wf t -> 0 <= key_depth t key <= global_depth_ t.
Proof.
  intros H. apply (wf_In t _ H). now apply wf_key_slot.
Qed.

Lemma Insert_loop_wf key value : forall fuel t,
  wf t -> kMaxGlobalDepth + 1 - key_depth t key <= Z.of_nat fuel ->
  match Insert_loop fuel t key value with
  | Done t' => wf t'
  | Overflow t' => wf t'
  | Diverged => False
  end.
Proof.
  induction fuel as [|n IH]; intros t Hwf Hfuel.
  - pose proof (key_depth_bound t key Hwf). destruct Hwf as (Hg & _). lia.
  - simpl. pose proof (Insert_iteration_spec t key value Hwf) as Hs.
    destruct (Insert_iteration t key value) as [t'|t'|t'].
    + exact Hs.
    + destruct Hs as (-> & _). exact Hwf.
    + destruct Hs as (Hwf' & Hk & _). apply IH; [exact Hwf'|lia].
Qed.

Lemma Insert_wf t key value :
  wf t ->
  match Insert t key value with
  | Done t' => wf t'
  | Overflow t' => wf t'
  | Diverged => False
  end.
Proof.
  intros Hwf. apply Insert_loop_wf; [exact Hwf|].
  pose proof (key_depth_bound t key Hwf).
  rewrite Z2Nat.id by (unfold kMaxGlobalDepth; lia). lia.
Qed.

Lemma Insert_loop_overflow key value : forall fuel t t',
  wf t -> Insert_loop fuel t key value = Overflow t' ->
  global_depth_ t' = kMaxGlobalDepth /\
  key_depth t' key = kMaxGlobalDepth /\
  Find t' key = None /\
  global_depth_ t <= global_depth_ t' /\
  (key_depth t key = kMaxGlobalDepth -> t' = t).
Proof.
  induction fuel as [|n IH]; intros t t' Hwf H; [discriminate|].
  simpl in H. pose proof (Insert_iteration_spec t key value Hwf) as Hs.
  destruct (Insert_iteration t key value) as [t1|t1|t1]; [discriminate|..].
  - injection H as <-. destruct Hs as (-> & Hg & Hk & Hf).
    repeat split; auto; lia.
  - destruct Hs as (Hwf1 & Hk & Hmono).
    destruct (IH t1 t' Hwf1 H) as (Hg & Hk' & Hf & Hm & _).
    repeat split; auto; [lia|].
    intros Hd. pose proof (key_depth_bound t1 key Hwf1).
    destruct Hwf1 as (Hg1 & _). lia.
Qed.

Lemma new_table_wf bucket_size : wf (new_table bucket_size).
Proof.
  unfold wf, new_table, kMaxGlobalDepth; simpl. repeat split; try lia.
  repeat constructor; simpl; lia.
Qed.

Lemma Remove_wf t key : wf t -> wf (fst (Remove t key)).
Proof.
  intros Hwf. unfold Remove.
  pose proof (Bucket_Remove_depth (deref t (dir_at t (IndexOf t key))) key) as H.
  destruct (Bucket_Remove _ key) as [b r]. simpl in *. now apply assign_wf.
Qed.

Lemma exec_wf t o : wf t -> exists t', exec t o = Some t' /\ wf t'.
Proof.
  intros Hwf. destruct o; simpl; eauto.
  - pose proof (Insert_wf t key value Hwf) as H.
    destruct (Insert t key value); [eauto..|contradiction].
  - eexists; split; [reflexivity|]. now apply Remove_wf.
Qed.

Lemma run_wf ops : forall t, wf t -> exists t', run ops t = Some t' /\ wf t'.
Proof.
  induction ops as [|o r IH]; intros t Hwf; simpl; [eauto|].
  destruct (exec_wf t o Hwf) as (t1 & -> & Hwf1). now apply IH.
Qed.

(** *** Properties of the design document *)

(** C4 (directory invariant).  After the constructor and after every public
    operation ([Find], [Insert], also one that throws, [Remove] and the
    three introspection functions), in any number and order, the call
    returns (the loop of [Insert] does not run out of iterations), the
    directory has [2 ^ global_depth_] slots and every bucket some slot
    refers to has a local depth at most the global depth. *)
Theorem directory_invariant_holds (bucket_size : Z) (ops : list op) :
  exists t, run ops (new_table bucket_size) = Some t /\ directory_invariant t.
Proof.
  destruct (run_wf ops _ (new_table_wf bucket_size)) as (t & Hrun & Hwf).
  exists t. split; [exact Hrun|]. now apply wf_directory_invariant.
Qed.

(** C5 (overflow, as the code has it).  When [Insert] on a table built by
    the constructor and public operations ends with the overflow error,
    the key has not been inserted and the global depth on exit is
    [kMaxGlobalDepth]; the iteration that throws changes nothing, but the
    splits and doublings of the earlier iterations of the same call stay:
    the table on exit is the table on entry exactly when the bucket of the
    key already had local depth [kMaxGlobalDepth] on entry. *)
Theorem Insert_overflow_effect (bucket_size : Z) (ops : list op) (t : Table)
    (key : K) (value : V) :
  run ops (new_table bucket_size) = Some t ->
  overflowed (Insert t key value) = true ->
  let t' := table_after t (Insert t key value) in
  GetGlobalDepth t' = kMaxGlobalDepth /\
  Find t' key = None /\
  GetGlobalDepth t <= GetGlobalDepth t' /\
  (t' = t <-> key_depth t key = kMaxGlobalDepth).
Proof.
  intros Hrun Hov.
  destruct (run_wf ops _ (new_table_wf bucket_size)) as (t0 & Hrun0 & Hwf).
  rewrite Hrun in Hrun0. injection Hrun0 as <-.
  destruct (Insert t key value) as [t1|t1|] eqn:E; try discriminate. simpl.
  destruct (Insert_loop_overflow key value _ t t1 Hwf E)
    as (Hg & Hk & Hf & Hm & Hsame).
  repeat split; auto. intros ->. exact Hk.
Qed.


(** ** Further properties of the buckets and of the table *)

Lemma list_set_nth {A : Type} (d : A) (l : list A) : forall i,
  list_set i (nth i l d) l = l.
Proof.
  induction l as [|y r IH]; intros [|i]; simpl; try reflexivity.
  now rewrite IH.
Qed.

Lemma Forall_list_set {A : Type} (P : A -> Prop) (x : A) (l : list A) :
  forall i, Forall P l -> P x -> Forall P (list_set i x l).
Proof.
  induction l as [|y r IH]; intros [|i] Hl Hx; simpl; auto;
    inversion Hl; subst; constructor; auto.
Qed.

(** The keys of a bucket are pairwise different. *)
Definition distinct_keys (b : Bucket) : Prop := NoDup (map fst (list_ b)).

(** A bucket of the table: of the configured size, never above it, keys
    pairwise different. *)
Definition bucket_ok (t : Table) (b : Bucket) : Prop :=
  size_ b = bucket_size_ t /\
  Z.of_nat (length (list_ b)) <= size_ b /\
  distinct_keys b.

Definition buckets_ok (t : Table) : Prop := Forall (bucket_ok t) (store_ t).

Definition reachable (t : Table) : Prop :=
  exists bucket_size ops,
    0 <= bucket_size /\ run ops (new_table bucket_size) = Some t.

Lemma update_item_length l key value l' :
  update_item l key value = Some l' -> length l' = length l.
Proof.
  revert l'. induction l as [|[k v] r IH]; simpl; intros l' H; [discriminate|].
  destruct (key_eqb k key); [injection H as <-; reflexivity|].
  destruct (update_item r key value) as [r'|]; [|discriminate].
  injection H as <-. simpl. now rewrite (IH r' eq_refl).
Qed.

Lemma update_item_keys l key value l' :
  update_item l key value = Some l' -> map fst l' = map fst l.
Proof.
  revert l'. induction l as [|[k v] r IH]; simpl; intros l' H; [discriminate|].
  destruct (key_eqb k key); [injection H as <-; reflexivity|].
  destruct (update_item r key value) as [r'|]; [|discriminate].
  injection H as <-. simpl. now rewrite (IH r' eq_refl).
Qed.

Lemma update_item_find l key value l' :
  update_item l key value = Some l' -> find_item l' key = Some value.
Proof.
  revert l'. induction l as [|[k v] r IH]; simpl; intros l' H; [discriminate|].
  destruct (key_eqb k key) eqn:E.
  - injection H as <-. simpl. now rewrite E.
  - destruct (update_item r key value) as [r'|]; [|discriminate].
    injection H as <-. simpl. rewrite E. now apply IH.
Qed.

Lemma update_item_Some l key value :
  find_item l key <> None -> update_item l key value <> None.
Proof.
  induction l as [|[k v] r IH]; simpl; [congruence|].
  destruct (key_eqb k key); [discriminate|].
  intros H. specialize (IH H).
  destruct (update_item r key value); [discriminate|congruence].
Qed.

Lemma remove_item_None l key :
  remove_item l key = None <-> find_item l key = None.
Proof.
  clear hash.
  induction l as [|[k v] r IH]; simpl; [tauto|].
  destruct (key_eqb k key); [split; discriminate|].
  destruct (remove_item r key); [|tauto].
  rewrite <- IH. split; discriminate.
Qed.

Lemma remove_item_length l key l' :
  remove_item l key = Some l' -> S (length l') = length l.
Proof.
  revert l'. induction l as [|[k v] r IH]; simpl; intros l' H; [discriminate|].
  destruct (key_eqb k key); [injection H as <-; reflexivity|].
  destruct (remove_item r key) as [r'|]; [|discriminate].
  injection H as <-. simpl. now rewrite (IH r' eq_refl).
Qed.

Lemma remove_item_In l key l' x :
  remove_item l key = Some l' -> In x l' -> In x l.
Proof.
  revert l'. induction l as [|[k v] r IH]; simpl; intros l' H Hx; [discriminate|].
  destruct (key_eqb k key); [injection H as <-; auto|].
  destruct (remove_item r key) as [r'|]; [|discriminate].
  injection H as <-. destruct Hx as [<-|Hx]; eauto.
Qed.

Lemma remove_item_NoDup l key l' :
  remove_item l key = Some l' -> NoDup (map fst l) -> NoDup (map fst l').
Proof.
  revert l'. induction l as [|[k v] r IH]; simpl; intros l' H Hnd; [discriminate|].
  inversion Hnd as [|? ? Hk Hr]; subst.
  destruct (key_eqb k key); [injection H as <-; assumption|].
  destruct (remove_item r key) as [r'|] eqn:E; [|discriminate].
  injection H as <-. simpl. constructor; [|eauto].
  intros Hin. apply Hk. apply in_map_iff in Hin.
  destruct Hin as (x & Hx1 & Hx2). rewrite <- Hx1. apply in_map.
  eapply remove_item_In; eauto.
Qed.

(** *** What one call changes *)

Lemma split_num_buckets t index p :
  num_buckets_ (split t index p) = num_buckets_ t + 1.
Proof. unfold split. now destruct (redistribute _ _ _ _). Qed.

Lemma split_bucket_size t index p :
  bucket_size_ (split t index p) = bucket_size_ t.
Proof. unfold split. now destruct (redistribute _ _ _ _). Qed.

(** Fields that only grow, and fields that stay. *)
Definition grows (t t' : Table) : Prop :=
  global_depth_ t <= global_depth_ t' /\
  num_buckets_ t <= num_buckets_ t' /\
  bucket_size_ t' = bucket_size_ t /\
  num_buckets_ t' - Z.of_nat (length (store_ t'))
  = num_buckets_ t - Z.of_nat (length (store_ t)).

Lemma grows_refl t : grows t t.
Proof. unfold grows. repeat split; lia. Qed.

Lemma grows_trans t1 t2 t3 : grows t1 t2 -> grows t2 t3 -> grows t1 t3.
Proof. unfold grows. intros (?&?&?&?) (?&?&?&?). repeat split; lia. Qed.

Lemma assign_grows t p b : grows t (assign t p b).
Proof.
  unfold grows, assign. simpl. rewrite list_set_length. repeat split; lia.
Qed.

Lemma Insert_iteration_grows t key value :
  match Insert_iteration t key value with
  | Returned t' =>
      grows t t' /\ global_depth_ t' = global_depth_ t /\ dir_ t' = dir_ t /\
      num_buckets_ t' = num_buckets_ t
  | Thrown t' => t' = t
  | Continue t' => grows t t'
  end.
Proof.
  unfold Insert_iteration.
  destruct (Bucket_Insert _ key value) as [b ok]. destruct ok.
  - split; [apply assign_grows|]. repeat split.
  - assert (Hs : forall t0 index p, grows t0 (split t0 index p)).
    { intros t0 index p. unfold grows.
      rewrite split_global_depth, split_num_buckets, split_bucket_size,
        split_store_length, Nat2Z.inj_succ. repeat split; lia. }
    destruct (_ =? _); [destruct (_ >=? _); [reflexivity|]|]; [|apply Hs].
    apply (grows_trans t (grow t)); [|apply Hs].
    unfold grows, grow. simpl. repeat split; lia.
Qed.

Lemma Insert_loop_grows key value : forall fuel t,
  match Insert_loop fuel t key value with
  | Done t' => grows t t'
  | Overflow t' => grows t t'
  | Diverged => True
  end.
Proof.
  induction fuel as [|n IH]; intros t; simpl; [exact I|].
  pose proof (Insert_iteration_grows t key value) as Hs.
  destruct (Insert_iteration t key value) as [t1|t1|t1].
  - apply Hs.
  - subst t1. apply grows_refl.
  - specialize (IH t1). destruct (Insert_loop n t1 key value); auto;
      eapply grows_trans; eauto.
Qed.

Lemma exec_grows t o t' : exec t o = Some t' -> grows t t'.
Proof.
  destruct o; simpl; intros H; try (injection H as <-; apply grows_refl).
  - pose proof (Insert_loop_grows key value
                  (Z.to_nat (kMaxGlobalDepth + 1)) t) as Hg.
    unfold Insert in H.
    destruct (Insert_loop _ t key value); [| |discriminate];
      injection H as <-; exact Hg.
  - injection H as <-. unfold Remove.
    destruct (Bucket_Remove _ key) as [b r]. apply assign_grows.
Qed.

Lemma run_grows ops : forall t t', run ops t = Some t' -> grows t t'.
Proof.
  induction ops as [|o r IH]; intros t t' H; simpl in H.
  - injection H as <-. apply grows_refl.
  - destruct (exec t o) as [t1|] eqn:E; [|discriminate].
    eapply grows_trans; [eapply exec_grows; eauto|eauto].
Qed.

Lemma run_wf_inv ops t t' : wf t -> run ops t = Some t' -> wf t'.
Proof.
  intros Hwf H. destruct (run_wf ops t Hwf) as (t1 & H1 & Hwf1).
  rewrite H in H1. now injection H1 as <-.
Qed.

(** X7.  The table only grows.  From a table built by the constructor and
    public operations, any further operations leave the global depth and
    the bucket count at least as large; the global depth stays between 0
    and [kMaxGlobalDepth], so the directory never has more than [2^20]
    slots and never loses one; and [GetNumBuckets] is the number of
    buckets made so far, the first one and one for each split. *)
Theorem table_only_grows (bucket_size : Z) (ops1 ops2 : list op)
    (t1 t2 : Table) :
  run ops1 (new_table bucket_size) = Some t1 ->
  run ops2 t1 = Some t2 ->
  0 <= GetGlobalDepth t1 <= GetGlobalDepth t2 /\
  GetGlobalDepth t2 <= kMaxGlobalDepth /\
  (length (dir_ t1) <= length (dir_ t2))%nat /\
  1 <= GetNumBuckets t1 <= GetNumBuckets t2 /\
  GetNumBuckets t2 = Z.of_nat (length (store_ t2)).
Proof.
  intros H1 H2. unfold GetGlobalDepth, GetNumBuckets.
  pose proof (run_wf_inv _ _ _ (new_table_wf bucket_size) H1) as Hwf1.
  pose proof (run_wf_inv _ _ _ Hwf1 H2) as Hwf2.
  pose proof (run_grows _ _ _ H1) as (_ & G1 & _ & G2).
  pose proof (run_grows _ _ _ H2) as (G3 & G4 & _ & G5).
  simpl in G1, G2.
  destruct Hwf1 as (Hg1 & Hl1 & _), Hwf2 as (Hg2 & Hl2 & _).
  repeat split; try lia.
  apply Nat2Z.inj_le. rewrite Hl1, Hl2. apply Z.pow_le_mono_r; lia.
Qed.

(** *** Which slots share a bucket *)

Lemma land_bit i d :
  0 <= d -> (Z.land i (Z.shiftl 1 d) =? 0) = negb (Z.testbit i d).
Proof.
  intros Hd. rewrite Z.shiftl_1_l. destruct (Z.testbit i d) eqn:E; simpl.
  - apply Z.eqb_neq. intros H.
    assert (Hb : Z.testbit (Z.land i (2 ^ d)) d = true).
    { rewrite Z.land_spec, E, Z.pow2_bits_true by assumption. reflexivity. }
    rewrite H, Z.bits_0 in Hb. discriminate.
  - apply Z.eqb_eq. apply Z.bits_inj'. intros n Hn.
    rewrite Z.land_spec, Z.bits_0, Z.pow2_bits_eqb by assumption.
    destruct (Z.eqb_spec d n) as [<-|]; [now rewrite E|apply andb_false_r].
Qed.

Lemma mod_pow2_succ a d :
  0 <= d -> a mod 2 ^ (d + 1) = a mod 2 ^ d + 2 ^ d * Z.b2z (Z.testbit a d).
Proof.
  intros Hd. assert (0 < 2 ^ d) by (apply Z.pow_pos_nonneg; lia).
  rewrite Z.pow_add_r by lia. change (2 ^ 1) with 2.
  rewrite Z.rem_mul_r by lia. now rewrite Z.testbit_spec' by assumption.
Qed.

Lemma mod_pow2_succ_eq a b d :
  0 <= d -> a mod 2 ^ d = b mod 2 ^ d ->
  (a mod 2 ^ (d + 1) = b mod 2 ^ (d + 1) <-> Z.testbit a d = Z.testbit b d).
Proof.
  intros Hd E. assert (0 < 2 ^ d) by (apply Z.pow_pos_nonneg; lia).
  rewrite !mod_pow2_succ, E by assumption.
  destruct (Z.testbit a d), (Z.testbit b d); simpl; split; intros; auto; nia.
Qed.

Lemma mod_pow2_le a b d e :
  0 <= d <= e -> a mod 2 ^ e = b mod 2 ^ e -> a mod 2 ^ d = b mod 2 ^ d.
Proof.
  intros Hd E.
  assert (Hdiv : (2 ^ d | 2 ^ e)).
  { exists (2 ^ (e - d)). rewrite <- Z.pow_add_r by lia. f_equal. lia. }
  rewrite <- (Z.mod_mod_divide a _ _ Hdiv), <- (Z.mod_mod_divide b _ _ Hdiv).
  now rewrite E.
Qed.

Lemma repoint_nth_exact dir : forall i old new d n,
  (n < length dir)%nat ->
  nth n (repoint i dir old new d) O =
  if Nat.eqb (nth n dir O) old
     && negb (Z.land (i + Z.of_nat n) (Z.shiftl 1 (d - 1)) =? 0)
  then new else nth n dir O.
Proof.
  induction dir as [|p r IH]; simpl; intros i old new d n Hn; [lia|].
  destruct n as [|n].
  - now rewrite Z.add_0_r.
  - rewrite IH by lia. now replace (i + 1 + Z.of_nat n) with (i + Z.of_nat (S n)) by lia.
Qed.

(** Two slots hold the same bucket exactly when they agree on the low
    bits that the local depth of the bucket counts. *)
Definition aliasing (t : Table) : Prop :=
  forall i j,
    0 <= i < 2 ^ global_depth_ t -> 0 <= j < 2 ^ global_depth_ t ->
    (dir_at t i = dir_at t j <->
     i mod 2 ^ GetLocalDepth t i = j mod 2 ^ GetLocalDepth t i).

Lemma aliasing_same_dir t t' :
  global_depth_ t' = global_depth_ t -> dir_ t' = dir_ t ->
  (forall q, depth_ (deref t' q) = depth_ (deref t q)) ->
  aliasing t -> aliasing t'.
Proof.
  intros Hg Hd Hq H i j Hi Hj. rewrite Hg in Hi, Hj.
  unfold GetLocalDepth, GetDepth, dir_at. rewrite Hd, Hq. now apply H.
Qed.

Lemma assign_aliasing t p b :
  depth_ b = depth_ (deref t p) -> aliasing t -> aliasing (assign t p b).
Proof.
  intros Hb. apply aliasing_same_dir; try reflexivity.
  intros q. rewrite deref_assign. destruct (_ && _) eqn:E; [|reflexivity].
  apply andb_prop in E. destruct E as [E _]. apply Nat.eqb_eq in E.
  now subst q.
Qed.

Lemma grow_dir_at t i :
  wf t -> 0 <= i < 2 ^ (global_depth_ t + 1) ->
  dir_at (grow t) i = dir_at t (i mod 2 ^ global_depth_ t).
Proof.
  intros (Hg & Hlen & _) Hi.
  assert (Hpos : 0 < 2 ^ global_depth_ t) by (apply Z.pow_pos_nonneg; lia).
  rewrite Z.pow_add_r in Hi by lia. change (2 ^ 1) with 2 in Hi.
  unfold dir_at, grow. simpl.
  destruct (Z.lt_ge_cases i (2 ^ global_depth_ t)) as [L|L].
  - rewrite app_nth1 by lia. now rewrite Z.mod_small by lia.
  - rewrite app_nth2 by lia. f_equal.
    replace (i mod 2 ^ global_depth_ t) with (i - 2 ^ global_depth_ t); [lia|].
    apply Z.mod_unique with 1; lia.
Qed.

Lemma grow_aliasing t : wf t -> aliasing t -> aliasing (grow t).
Proof.
  intros Hwf H i j Hi Hj. simpl in Hi, Hj.
  pose proof Hwf as (Hg & Hlen & _).
  assert (Hpos : 0 < 2 ^ global_depth_ t) by (apply Z.pow_pos_nonneg; lia).
  unfold GetLocalDepth. rewrite !grow_dir_at by assumption.
  change (deref (grow t)) with (deref t).
  pose proof (Z.mod_pos_bound i _ Hpos) as Hi'.
  pose proof (Z.mod_pos_bound j _ Hpos) as Hj'.
  set (i' := i mod 2 ^ global_depth_ t) in *.
  set (j' := j mod 2 ^ global_depth_ t) in *.
  fold (GetLocalDepth t i'). rewrite (H i' j' Hi' Hj').
  assert (Hd : 0 <= GetLocalDepth t i' <= global_depth_ t).
  { apply (wf_In t (dir_at t i') Hwf). now apply wf_slot. }
  assert (Hdiv : (2 ^ GetLocalDepth t i' | 2 ^ global_depth_ t)).
  { exists (2 ^ (global_depth_ t - GetLocalDepth t i')).
    rewrite <- Z.pow_add_r by lia. f_equal. lia. }
  unfold i', j'. now rewrite !(Z.mod_mod_divide _ _ _ Hdiv).
Qed.

Lemma split_dir_at t index p i :
  wf t -> In p (dir_ t) -> 0 <= i < 2 ^ global_depth_ t ->
  dir_at (split t index p) i =
  if Nat.eqb (dir_at t i) p && Z.testbit i (depth_ (deref t p))
  then length (store_ t) else dir_at t i.
Proof.
  intros Hwf Hp Hi. pose proof Hwf as (Hg & Hlen & _).
  destruct (wf_In t p Hwf Hp) as [_ Hd].
  unfold dir_at. rewrite split_dir, repoint_nth_exact by lia.
  rewrite Z.add_0_l, Z2Nat.id by lia.
  replace (depth_ (deref t p) + 1 - 1) with (depth_ (deref t p)) by lia.
  now rewrite land_bit, negb_involutive by lia.
Qed.

Lemma split_aliasing t index p :
  wf t -> In p (dir_ t) -> depth_ (deref t p) < global_depth_ t ->
  aliasing t -> aliasing (split t index p).
Proof.
  intros Hwf Hp Hlt H i j Hi Hj. rewrite split_global_depth in Hi, Hj.
  destruct (wf_In t p Hwf Hp) as [Hpl Hd].
  assert (Hslot : forall x, 0 <= x < 2 ^ global_depth_ t ->
            (dir_at t x < length (store_ t))%nat /\
            0 <= GetLocalDepth t x <= global_depth_ t).
  { intros x Hx. apply (wf_In t (dir_at t x) Hwf). now apply wf_slot. }
  destruct (Hslot i Hi) as [Hil Hid], (Hslot j Hj) as [Hjl Hjd].
  specialize (H i j Hi Hj).
  unfold GetLocalDepth, GetDepth in *.
  rewrite !split_dir_at by assumption.
  set (d := depth_ (deref t p)) in *.
  destruct (Nat.eqb_spec (dir_at t i) p) as [A|A],
           (Nat.eqb_spec (dir_at t j) p) as [B|B]; simpl.
  - assert (E : i mod 2 ^ d = j mod 2 ^ d).
    { rewrite A in H. apply (proj1 H). congruence. }
    assert (Hdepth : forall b : bool,
              depth_ (deref (split t index p)
                        (if b then length (store_ t) else dir_at t i)) = d + 1).
    { intros [|]; [apply split_deref_new|].
      rewrite A. now apply split_deref_old. }
    rewrite Hdepth, (mod_pow2_succ_eq i j d) by (lia || assumption).
    destruct (Z.testbit i d), (Z.testbit j d); split; intros; auto;
      try discriminate; try lia; congruence.
  - assert (Hdepth : forall b : bool,
              depth_ (deref (split t index p)
                        (if b then length (store_ t) else dir_at t i)) = d + 1).
    { intros [|]; [apply split_deref_new|].
      rewrite A. now apply split_deref_old. }
    rewrite Hdepth. split.
    + intros E. destruct (Z.testbit i d); [lia|congruence].
    + intros E. exfalso. apply B. rewrite A in H. symmetry. apply (proj2 H).
      apply (mod_pow2_le i j d (d + 1)); [lia|exact E].
  - rewrite split_deref_other by assumption. split.
    + intros E. destruct (Z.testbit j d); [lia|congruence].
    + intros E. exfalso. apply A. rewrite <- B. now apply (proj2 H).
  - rewrite split_deref_other by assumption. exact H.
Qed.

Lemma Insert_iteration_aliasing t key value :
  wf t -> aliasing t ->
  match Insert_iteration t key value with
  | Returned t' => aliasing t'
  | Thrown t' => True
  | Continue t' => aliasing t'
  end.
Proof.
  intros Hwf H. pose proof (wf_key_slot t key Hwf) as Hin.
  destruct (wf_In t _ Hwf Hin) as [Hpl Hpd].
  unfold Insert_iteration. set (p := dir_at t (IndexOf t key)) in *.
  pose proof (Bucket_Insert_depth (deref t p) key value) as Hdep.
  destruct (Bucket_Insert (deref t p) key value) as [b ok]. simpl in Hdep.
  destruct ok; [now apply assign_aliasing|].
  unfold GetDepth.
  destruct (Z.eqb_spec (depth_ (deref t p)) (global_depth_ t)) as [E|E].
  - destruct (Z.geb_spec (global_depth_ t) kMaxGlobalDepth) as [G|G];
      [exact I|].
    apply split_aliasing.
    + now apply grow_wf.
    + simpl. apply in_or_app. now left.
    + change (deref (grow t) p) with (deref t p). simpl. lia.
    + now apply grow_aliasing.
  - apply split_aliasing; auto. lia.
Qed.

Lemma Insert_loop_aliasing key value : forall fuel t,
  wf t -> aliasing t ->
  match Insert_loop fuel t key value with
  | Done t' => aliasing t'
  | Overflow t' => aliasing t'
  | Diverged => True
  end.
Proof.
  induction fuel as [|n IH]; intros t Hwf H; simpl; [exact I|].
  pose proof (Insert_iteration_spec t key value Hwf) as Hs.
  pose proof (Insert_iteration_aliasing t key value Hwf H) as Ha.
  destruct (Insert_iteration t key value) as [t1|t1|t1].
  - exact Ha.
  - destruct Hs as (-> & _). exact H.
  - apply IH; [apply Hs|exact Ha].
Qed.

Lemma exec_aliasing t o t' :
  wf t -> aliasing t -> exec t o = Some t' -> aliasing t'.
Proof.
  intros Hwf H. destruct o; simpl; intros E; try (now injection E as <-).
  - pose proof (Insert_loop_aliasing key value
                  (Z.to_nat (kMaxGlobalDepth + 1)) t Hwf H) as Hl.
    unfold Insert in E.
    destruct (Insert_loop _ t key value); [| |discriminate];
      now injection E as <-.
  - injection E as <-. unfold Remove.
    pose proof (Bucket_Remove_depth (deref t (dir_at t (IndexOf t key))) key)
      as Hd.
    destruct (Bucket_Remove _ key) as [b r]. now apply assign_aliasing.
Qed.

Lemma run_aliasing ops : forall t t',
  wf t -> aliasing t -> run ops t = Some t' -> aliasing t'.
Proof.
  induction ops as [|o r IH]; intros t t' Hwf H E; simpl in E.
  - now injection E as <-.
  - destruct (exec t o) as [t1|] eqn:E1; [|discriminate].
    destruct (exec_wf t o Hwf) as (t2 & E2 & Hwf2).
    rewrite E1 in E2. injection E2 as <-.
    exact (IH t1 t' Hwf2 (exec_aliasing t o t1 Hwf H E1) E).
Qed.

(** X8.  Which slots share a bucket.  On a table built by the
    constructor and public operations, two directory slots refer to the
    same bucket exactly when their indices agree on the low
    [GetLocalDepth] bits: a bucket of local depth [d] is referred to by
    the [2^(global depth - d)] slots of one residue class modulo [2^d],
    before and after every split and doubling. *)
Theorem directory_aliasing (bucket_size : Z) (ops : list op) (t : Table)
    (i j : Z) :
  run ops (new_table bucket_size) = Some t ->
  0 <= i < Z.of_nat (length (dir_ t)) ->
  0 <= j < Z.of_nat (length (dir_ t)) ->
  (dir_at t i = dir_at t j <->
   i mod 2 ^ GetLocalDepth t i = j mod 2 ^ GetLocalDepth t i).
Proof.
  intros Hrun Hi Hj.
  pose proof (run_wf_inv _ _ _ (new_table_wf bucket_size) Hrun) as Hwf.
  assert (Ha : aliasing (new_table bucket_size)).
  { intros x y Hx Hy. simpl in Hx, Hy.
    assert (x = 0) by lia. assert (y = 0) by lia. subst. tauto. }
  pose proof (run_aliasing _ _ _ (new_table_wf bucket_size) Ha Hrun) as H.
  destruct Hwf as (_ & Hlen & _). apply H; lia.
Qed.

(** X19.  Where a key goes.  On a table built by the constructor and
    public operations, [IndexOf] yields the low [global_depth_] bits of the
    hash, a slot that the directory has and that refers to a bucket of the
    table, of a local depth between 0 and the global depth; and two keys
    are sent to the same bucket exactly when their hashes agree on as many
    low bits as that bucket's local depth. *)
Theorem key_routing (bucket_size : Z) (ops : list op) (t : Table)
    (k1 k2 : K) :
  run ops (new_table bucket_size) = Some t ->
  let d := GetLocalDepth t (IndexOf t k1) in
  IndexOf t k1 = hash k1 mod 2 ^ GetGlobalDepth t /\
  0 <= IndexOf t k1 < Z.of_nat (length (dir_ t)) /\
  (dir_at t (IndexOf t k1) < length (store_ t))%nat /\
  0 <= d <= GetGlobalDepth t /\
  (dir_at t (IndexOf t k1) = dir_at t (IndexOf t k2) <->
   hash k1 mod 2 ^ d = hash k2 mod 2 ^ d).
Proof.
  intros Hrun d.
  pose proof (run_wf_inv _ _ _ (new_table_wf bucket_size) Hrun) as Hwf.
  assert (Ha : aliasing (new_table bucket_size)).
  { intros x y Hx Hy. simpl in Hx, Hy.
    assert (x = 0) by lia. assert (y = 0) by lia. subst. tauto. }
  pose proof (run_aliasing _ _ _ (new_table_wf bucket_size) Ha Hrun) as Hal.
  pose proof (wf_In t _ Hwf (wf_key_slot t k1 Hwf)) as [Hp Hd].
  destruct Hwf as (Hg & Hlen & _).
  assert (Hg0 : 0 <= global_depth_ t) by lia.
  pose proof (IndexOf_range t k1 Hg0) as R1.
  pose proof (IndexOf_range t k2 Hg0) as R2.
  unfold GetGlobalDepth.
  split; [apply IndexOf_mod; exact Hg0|].
  split; [lia|]. split; [exact Hp|].
  split; [exact Hd|].
  rewrite (Hal _ _ R1 R2). fold d.
  assert (Hdiv : (2 ^ d | 2 ^ global_depth_ t)).
  { exists (2 ^ (global_depth_ t - d)).
    rewrite <- Z.pow_add_r by (unfold d, GetLocalDepth, GetDepth; lia).
    f_equal. lia. }
  rewrite !IndexOf_mod by exact Hg0.
  rewrite !Z.mod_mod_divide by exact Hdiv. reflexivity.
Qed.

Section KeyEquality.

(** [operator==] on keys is equality. *)
Hypothesis key_eqb_spec : forall a b : K, key_eqb a b = true <-> a = b.

Lemma key_eqb_refl k : key_eqb k k = true.
Proof. now apply key_eqb_spec. Qed.

Lemma key_eqb_neq a b : a <> b -> key_eqb a b = false.
Proof.
  intros H. destruct (key_eqb a b) eqn:E; [|reflexivity].
  apply key_eqb_spec in E. contradiction.
Qed.

Lemma find_item_None l key :
  find_item l key = None <-> ~ In key (map fst l).
Proof.
  clear hash.
  induction l as [|[k v] r IH]; simpl; [tauto|].
  destruct (key_eqb k key) eqn:E.
  - apply key_eqb_spec in E. split; [discriminate|tauto].
  - rewrite IH. split; [|tauto]. intros H [Hk|Hk]; [|tauto].
    apply key_eqb_spec in Hk. congruence.
Qed.

Lemma find_item_In l key v :
  find_item l key = Some v -> In (key, v) l.
Proof.
  induction l as [|[k w] r IH]; simpl; [discriminate|].
  destruct (key_eqb k key) eqn:E; [|auto].
  apply key_eqb_spec in E. intros H. injection H as <-. subst. now left.
Qed.

Lemma find_item_app l key k v :
  find_item (l ++ [(k, v)]) key =
  match find_item l key with
  | Some x => Some x
  | None => if key_eqb k key then Some v else None
  end.
Proof.
  induction l as [|[k0 v0] r IH]; simpl; [reflexivity|].
  destruct (key_eqb k0 key); [reflexivity|exact IH].
Qed.

Lemma update_item_find_other l key value l' k' :
  update_item l key value = Some l' -> k' <> key ->
  find_item l' k' = find_item l k'.
Proof.
  revert l'. induction l as [|[k v] r IH]; simpl; intros l' H Hne; [discriminate|].
  destruct (key_eqb k key) eqn:E.
  - injection H as <-. simpl. apply key_eqb_spec in E. subst k.
    rewrite key_eqb_neq by congruence. reflexivity.
  - destruct (update_item r key value) as [r'|]; [|discriminate].
    injection H as <-. simpl. destruct (key_eqb k k'); [reflexivity|].
    now apply IH.
Qed.

Lemma remove_item_find_other l key l' k' :
  remove_item l key = Some l' -> k' <> key ->
  find_item l' k' = find_item l k'.
Proof.
  revert l'. induction l as [|[k v] r IH]; simpl; intros l' H Hne; [discriminate|].
  destruct (key_eqb k key) eqn:E.
  - injection H as <-. apply key_eqb_spec in E. subst k.
    rewrite key_eqb_neq by congruence. reflexivity.
  - destruct (remove_item r key) as [r'|]; [|discriminate].
    injection H as <-. simpl. destruct (key_eqb k k'); [reflexivity|].
    now apply IH.
Qed.

Lemma remove_item_find_same l key l' :
  remove_item l key = Some l' -> NoDup (map fst l) ->
  find_item l' key = None.
Proof.
  clear hash.
  revert l'. induction l as [|[k v] r IH]; simpl; intros l' H Hnd; [discriminate|].
  inversion Hnd as [|? ? Hk Hr]; subst.
  destruct (key_eqb k key) eqn:E.
  - injection H as <-. apply key_eqb_spec in E. subst k.
    now apply find_item_None.
  - destruct (remove_item r key) as [r'|]; [|discriminate].
    injection H as <-. simpl. rewrite E. now apply IH.
Qed.

(** X1.  [Bucket::Insert] fails exactly when the key is absent and the
    bucket is full, and then leaves the bucket as it is; when it succeeds
    the key is found with the new value, every other key is found as
    before, and the bucket has one pair more when the key was absent and as
    many when it was present. *)
Theorem Bucket_Insert_spec (b : Bucket) (key : K) (value : V) :
  let b' := fst (Bucket_Insert b key value) in
  let ok := snd (Bucket_Insert b key value) in
  (ok = false <-> Bucket_Find b key = None /\ IsFull b = true) /\
  (ok = false -> b' = b) /\
  (ok = true ->
   Bucket_Find b' key = Some value /\
   (forall k', k' <> key -> Bucket_Find b' k' = Bucket_Find b k') /\
   length (list_ b') =
   match Bucket_Find b key with
   | Some _ => length (list_ b)
   | None => S (length (list_ b))
   end).
Proof.
  clear hash.
  unfold Bucket_Insert, Bucket_Find.
  destruct (update_item (list_ b) key value) as [l|] eqn:E; simpl.
  - assert (Hf : find_item (list_ b) key <> None).
    { intros Hn. apply find_item_None in Hn.
      rewrite <- (update_item_keys _ _ _ _ E) in Hn.
      apply find_item_None in Hn.
      rewrite (update_item_find _ _ _ _ E) in Hn. discriminate. }
    split; [split; [discriminate|intros [H _]; contradiction]|].
    split; [discriminate|]. intros _.
    split; [eapply update_item_find; eauto|].
    split; [intros k' Hk; eapply update_item_find_other; eauto|].
    destruct (find_item (list_ b) key); [|contradiction].
    eapply update_item_length; eauto.
  - pose proof (update_item_None _ _ _ E) as Hn.
    destruct (IsFull b) eqn:F; simpl.
    + split; [tauto|]. split; [reflexivity|discriminate].
    + split; [split; [discriminate|intros [_ H]; discriminate]|].
      split; [discriminate|]. intros _.
      split; [|split].
      * rewrite find_item_app, Hn, key_eqb_refl. reflexivity.
      * intros k' Hk. rewrite find_item_app.
        destruct (find_item (list_ b) k'); [reflexivity|].
        now rewrite key_eqb_neq by congruence.
      * rewrite Hn, length_app. simpl. lia.
Qed.

(** X2.  [Bucket::Remove] hands back [true] exactly when the key is in
    the bucket, and leaves the bucket as it is otherwise; a removal takes
    one pair away, every other key is found as before, and in a bucket
    with pairwise different keys the key is not found any more. *)
Theorem Bucket_Remove_spec (b : Bucket) (key : K) :
  let b' := fst (Bucket_Remove b key) in
  let removed := snd (Bucket_Remove b key) in
  (removed = true <-> Bucket_Find b key <> None) /\
  (removed = false -> b' = b) /\
  (removed = true -> S (length (list_ b')) = length (list_ b)) /\
  (forall k', k' <> key -> Bucket_Find b' k' = Bucket_Find b k') /\
  (distinct_keys b -> Bucket_Find b' key = None).
Proof.
  clear hash.
  unfold Bucket_Remove, Bucket_Find, distinct_keys.
  destruct (remove_item (list_ b) key) as [l|] eqn:E; simpl.
  - assert (Hf : find_item (list_ b) key <> None).
    { intros Hn. apply remove_item_None in Hn. congruence. }
    split; [tauto|]. split; [discriminate|].
    split; [intros _; eapply remove_item_length; eauto|].
    split; [intros k' Hk; eapply remove_item_find_other; eauto|].
    intros Hnd. eapply remove_item_find_same; eauto.
  - apply remove_item_None in E.
    split; [split; [discriminate|congruence]|].
    split; [reflexivity|]. split; [discriminate|].
    split; [reflexivity|]. intros _. exact E.
Qed.

(** *** Buckets of a reachable table *)

Lemma Bucket_Insert_ok t b key value :
  bucket_ok t b -> bucket_ok t (fst (Bucket_Insert b key value)).
Proof.
  intros (Hs & Hl & Hd). unfold Bucket_Insert, bucket_ok, distinct_keys in *.
  destruct (update_item (list_ b) key value) as [l|] eqn:E; simpl.
  - rewrite (update_item_length _ _ _ _ E), (update_item_keys _ _ _ _ E). auto.
  - unfold IsFull. destruct (Z.eqb_spec (Z.of_nat (length (list_ b))) (size_ b));
      simpl; [auto|].
    rewrite length_app, map_app. simpl. repeat split; [assumption|lia|].
    apply NoDup_app; [assumption|repeat constructor; simpl; tauto|].
    intros k Hk [<-|[]]. apply update_item_None, find_item_None in E. tauto.
Qed.

Lemma redistribute_ok t t0 index items nb :
  bucket_ok t nb -> NoDup (map fst items) ->
  NoDup (map fst (fst (redistribute t0 index items nb))) /\
  (length (fst (redistribute t0 index items nb)) <= length items)%nat /\
  bucket_ok t (snd (redistribute t0 index items nb)).
Proof.
  revert nb. induction items as [|[k v] r IH]; intros nb Hnb Hnd; simpl.
  - split; [constructor|split; [lia|assumption]].
  - inversion Hnd as [|? ? Hk Hr]; subst.
    destruct (IndexOf t0 k =? index).
    + specialize (IH nb Hnb Hr).
      destruct (redistribute t0 index r nb) as [kept nb'] eqn:E. simpl in *.
      destruct IH as (H1 & H2 & H3). split; [|split; [lia|assumption]].
      constructor; [|assumption]. intros Hin. apply Hk.
      clear -Hin E. revert kept nb nb' E Hin.
      induction r as [|[k1 v1] r IHr]; simpl; intros kept nb nb' E Hin.
      * injection E as <- <-. contradiction.
      * destruct (IndexOf t0 k1 =? index).
        -- destruct (redistribute t0 index r nb) as [kept1 nb1] eqn:E1.
           injection E as <- <-. destruct Hin as [Hin|Hin]; [now left|].
           right. eapply IHr; eauto.
        -- right. eapply IHr; eauto.
    + destruct (IH (fst (Bucket_Insert nb k v))
                   (Bucket_Insert_ok t nb k v Hnb) Hr) as (H1 & H2 & H3).
      split; [assumption|split; [lia|assumption]].
Qed.

Lemma assign_ok t p b :
  buckets_ok t -> bucket_ok t b -> buckets_ok (assign t p b).
Proof.
  unfold buckets_ok, assign; simpl. intros H Hb.
  apply Forall_list_set; [|exact Hb].
  eapply Forall_impl; [|exact H]. intros x Hx. exact Hx.
Qed.


Lemma Bucket_Insert_found b key value :
  snd (Bucket_Insert b key value) = true ->
  Bucket_Find (fst (Bucket_Insert b key value)) key = Some value.
Proof.
  unfold Bucket_Insert, Bucket_Find.
  destruct (update_item (list_ b) key value) as [l|] eqn:E; simpl.
  - intros _. eapply update_item_find; eauto.
  - destruct (IsFull b); simpl; [discriminate|]. intros _.
    rewrite find_item_app, (update_item_None _ _ _ E), key_eqb_refl.
    reflexivity.
Qed.

Lemma bucket_ok_ext t t' b :
  bucket_size_ t' = bucket_size_ t -> bucket_ok t b -> bucket_ok t' b.
Proof. unfold bucket_ok. intros ->. auto. Qed.

Lemma buckets_ok_ext t t' :
  bucket_size_ t' = bucket_size_ t -> store_ t' = store_ t ->
  buckets_ok t -> buckets_ok t'.
Proof.
  unfold buckets_ok. intros Hb -> H. eapply Forall_impl; [|exact H].
  intros b. now apply bucket_ok_ext.
Qed.

Lemma deref_ok t p :
  buckets_ok t -> (p < length (store_ t))%nat -> bucket_ok t (deref t p).
Proof.
  unfold buckets_ok, deref. rewrite Forall_forall. intros H Hp.
  apply H. now apply nth_In.
Qed.

Lemma split_ok t index p :
  buckets_ok t -> 0 <= bucket_size_ t -> (p < length (store_ t))%nat ->
  buckets_ok (split t index p).
Proof.
  intros Hok H0 Hp. pose proof (deref_ok t p Hok Hp) as (Hs & Hl & Hd).
  assert (Hnew : bucket_ok t (mkBucket (bucket_size_ t)
                                (GetDepth (IncrementDepth (deref t p))) [])).
  { unfold bucket_ok, distinct_keys. simpl. repeat split; [lia|constructor]. }
  pose proof (redistribute_ok t t index (list_ (IncrementDepth (deref t p)))
                _ Hnew Hd) as (R1 & R2 & R3).
  unfold buckets_ok, split in *.
  destruct (redistribute _ _ _ _) as [kept nb]. simpl in *.
  apply Forall_app. split.
  - apply Forall_list_set.
    + eapply Forall_impl; [|exact Hok]. intros b Hb. exact Hb.
    + unfold bucket_ok, distinct_keys. simpl. repeat split; [assumption|lia|assumption].
  - constructor; [exact R3|constructor].
Qed.

(** Well-formed, with sound buckets. *)
Definition sound (t : Table) : Prop :=
  wf t /\ buckets_ok t /\ 0 <= bucket_size_ t.

Lemma Insert_iteration_sound t key value :
  sound t ->
  match Insert_iteration t key value with
  | Returned t' => sound t' /\ Find t' key = Some value
  | Thrown t' => t' = t
  | Continue t' => sound t'
  end.
Proof.
  intros (Hwf & Hok & H0).
  pose proof (Insert_iteration_spec t key value Hwf) as Hs.
  pose proof (Insert_iteration_grows t key value) as Hg.
  pose proof (wf_key_slot t key Hwf) as Hin.
  destruct (wf_In t _ Hwf Hin) as [Hpl _].
  unfold Insert_iteration in *.
  set (p := dir_at t (IndexOf t key)) in *.
  pose proof (Bucket_Insert_ok t (deref t p) key value
                (deref_ok t p Hok Hpl)) as Hb.
  pose proof (Bucket_Insert_found (deref t p) key value) as Hf.
  destruct (Bucket_Insert (deref t p) key value) as [b ok]. simpl in *.
  destruct ok.
  - split; [split; [exact Hs|split; [now apply assign_ok|exact H0]]|].
    unfold Find. change (IndexOf (assign t p b) key) with (IndexOf t key).
    change (dir_at (assign t p b) (IndexOf t key)) with p.
    rewrite deref_assign, Nat.eqb_refl.
    destruct (Nat.ltb_spec p (length (store_ t))); [|lia]. simpl. auto.
  - destruct (_ =? _); [destruct (_ >=? _); [reflexivity|]|].
    + destruct Hs as (Hwf' & _). destruct Hg as (_ & _ & Hbs & _).
      split; [exact Hwf'|]. rewrite Hbs. split; [|exact H0].
      apply split_ok; [|exact H0|exact Hpl].
      apply (buckets_ok_ext t (grow t)); [reflexivity..|exact Hok].
    + destruct Hs as (Hwf' & _).
      split; [exact Hwf'|]. rewrite split_bucket_size. split; [|exact H0].
      now apply split_ok.
Qed.

Lemma Insert_loop_sound key value : forall fuel t,
  sound t ->
  match Insert_loop fuel t key value with
  | Done t' => sound t' /\ Find t' key = Some value
  | Overflow t' => sound t'
  | Diverged => True
  end.
Proof.
  induction fuel as [|n IH]; intros t Hs; simpl; [exact I|].
  pose proof (Insert_iteration_sound t key value Hs) as Hi.
  destruct (Insert_iteration t key value) as [t1|t1|t1].
  - exact Hi.
  - now subst t1.
  - now apply IH.
Qed.

Lemma Remove_sound t key : sound t -> sound (fst (Remove t key)).
Proof.
  intros (Hwf & Hok & H0). split; [now apply Remove_wf|].
  pose proof (wf_key_slot t key Hwf) as Hin.
  destruct (wf_In t _ Hwf Hin) as [Hpl _].
  pose proof (deref_ok t _ Hok Hpl) as (Hs & Hl & Hd).
  unfold Remove, Bucket_Remove.
  destruct (remove_item _ key) as [l|] eqn:E; simpl.
  - split; [|exact H0]. apply assign_ok; [exact Hok|].
    unfold bucket_ok, distinct_keys. simpl.
    pose proof (remove_item_length _ _ _ E).
    repeat split; [assumption|lia|eapply remove_item_NoDup; eauto].
  - split; [|exact H0]. apply assign_ok; [exact Hok|].
    unfold bucket_ok. auto.
Qed.

Lemma new_table_sound bucket_size :
  0 <= bucket_size -> sound (new_table bucket_size).
Proof.
  intros H. split; [apply new_table_wf|]. split; [|exact H].
  unfold buckets_ok, bucket_ok, distinct_keys. simpl.
  repeat constructor; simpl; lia.
Qed.

Lemma exec_sound t o t' : sound t -> exec t o = Some t' -> sound t'.
Proof.
  intros Hs. destruct o; simpl; intros H; try (injection H as <-; exact Hs).
  - pose proof (Insert_loop_sound key value
                  (Z.to_nat (kMaxGlobalDepth + 1)) t Hs) as Hl.
    unfold Insert in H.
    destruct (Insert_loop _ t key value); [| |discriminate];
      injection H as <-; tauto.
  - injection H as <-. now apply Remove_sound.
Qed.

Lemma run_sound ops : forall t t', sound t -> run ops t = Some t' -> sound t'.
Proof.
  induction ops as [|o r IH]; intros t t' Hs H; simpl in H.
  - now injection H as <-.
  - destruct (exec t o) as [t1|] eqn:E; [|discriminate].
    eapply IH; [eapply exec_sound; eauto|exact H].
Qed.

(** X3.  A call of [Insert] that returns has stored the pair: on a table
    built by the constructor and public operations, [Find] of the key
    right after the call yields the inserted value, whatever splits the
    call went through. *)
Theorem Insert_then_Find (bucket_size : Z) (ops : list op) (t t' : Table)
    (key : K) (value : V) :
  0 <= bucket_size ->
  run ops (new_table bucket_size) = Some t ->
  Insert t key value = Done t' ->
  Find t' key = Some value.
Proof.
  intros H0 Hrun Hins.
  pose proof (run_sound _ _ _ (new_table_sound _ H0) Hrun) as Hs.
  pose proof (Insert_loop_sound key value
                (Z.to_nat (kMaxGlobalDepth + 1)) t Hs) as Hl.
  unfold Insert in Hins. rewrite Hins in Hl. tauto.
Qed.



(** X6.  No bucket overflows.  On a table built by the constructor and
    public operations, the bucket of every directory slot has the
    configured size, holds at most that many pairs, and its keys are
    pairwise different. *)
Theorem buckets_within_capacity (bucket_size : Z) (ops : list op) (t : Table)
    (i : Z) :
  0 <= bucket_size ->
  run ops (new_table bucket_size) = Some t ->
  0 <= i < Z.of_nat (length (dir_ t)) ->
  let b := deref t (dir_at t i) in
  size_ b = bucket_size /\
  Z.of_nat (length (list_ b)) <= bucket_size /\
  distinct_keys b.
Proof.
  intros H0 Hrun Hi.
  pose proof (run_sound _ _ _ (new_table_sound _ H0) Hrun) as (Hwf & Hok & _).
  pose proof (run_grows _ _ _ Hrun) as (_ & _ & Hbs & _). simpl in Hbs.
  assert (Hin : In (dir_at t i) (dir_ t)).
  { apply wf_slot; [assumption|]. destruct Hwf as (_ & Hl & _). lia. }
  destruct (wf_In t _ Hwf Hin) as [Hpl _].
  pose proof (deref_ok t _ Hok Hpl) as (Hs & Hl & Hd).
  simpl. rewrite <- Hbs. repeat split; [assumption|lia|assumption].
Qed.


(** *** What [Find] can hand back *)

Lemma find_item_of_In l k v :
  NoDup (map fst l) -> In (k, v) l -> find_item l k = Some v.
Proof.
  induction l as [|[k0 v0] r IH]; simpl; intros Hnd Hin; [contradiction|].
  inversion Hnd as [|? ? Hk Hr]; subst.
  destruct Hin as [E|Hin].
  - injection E as -> ->. now rewrite key_eqb_refl.
  - destruct (key_eqb k0 k) eqn:E; [|auto].
    apply key_eqb_spec in E. subst k0. exfalso. apply Hk.
    change k with (fst (k, v)). now apply in_map.
Qed.

Lemma update_item_In l key value l' kv :
  update_item l key value = Some l' -> In kv l' ->
  In kv l \/ kv = (key, value).
Proof.
  revert l'. induction l as [|[k v] r IH]; simpl; intros l' H Hin; [discriminate|].
  destruct (key_eqb k key) eqn:E.
  - injection H as <-. apply key_eqb_spec in E. subst k.
    destruct Hin as [<-|Hin]; auto.
  - destruct (update_item r key value) as [r'|]; [|discriminate].
    injection H as <-. destruct Hin as [<-|Hin]; [auto|].
    destruct (IH r' eq_refl Hin); auto.
Qed.

Lemma Bucket_Insert_In b key value kv :
  In kv (list_ (fst (Bucket_Insert b key value))) ->
  In kv (list_ b) \/ kv = (key, value).
Proof.
  unfold Bucket_Insert.
  destruct (update_item (list_ b) key value) as [l|] eqn:E; simpl.
  - eapply update_item_In; eauto.
  - destruct (IsFull b); simpl; [auto|].
    rewrite in_app_iff. simpl. intuition.
Qed.

Lemma redistribute_In t0 index items : forall nb kv,
  (In kv (fst (redistribute t0 index items nb)) -> In kv items) /\
  (In kv (list_ (snd (redistribute t0 index items nb))) ->
   In kv (list_ nb) \/ In kv items).
Proof.
  induction items as [|[k v] r IH]; intros nb kv; simpl; [tauto|].
  destruct (IndexOf t0 k =? index).
  - specialize (IH nb kv). destruct (redistribute t0 index r nb) as [kept nb'].
    simpl in *. intuition.
  - specialize (IH (fst (Bucket_Insert nb k v)) kv).
    destruct IH as [IH1 IH2]. split; [auto|].
    intros H. destruct (IH2 H) as [H1|H1]; [|auto].
    destruct (Bucket_Insert_In nb k v kv H1); auto.
Qed.

Lemma repoint_nth_eq dir : forall i old new d n,
  (n < length dir)%nat ->
  nth n (repoint i dir old new d) O = nth n dir O \/
  (nth n dir O = old /\ nth n (repoint i dir old new d) O = new).
Proof.
  induction dir as [|p r IH]; simpl; intros i old new d n Hn; [lia|].
  destruct n as [|n].
  - destruct (Nat.eqb_spec p old); simpl; [|auto].
    destruct (negb _); auto.
  - apply IH. lia.
Qed.

Lemma split_list_old t index p :
  (p < length (store_ t))%nat ->
  list_ (deref (split t index p) p) =
  fst (redistribute t index (list_ (deref t p))
         (mkBucket (bucket_size_ t) (depth_ (deref t p) + 1) [])).
Proof.
  intros Hp. unfold split. simpl.
  destruct (redistribute _ _ _ _) as [kept nb]. unfold deref at 1. simpl.
  rewrite app_nth1 by (rewrite list_set_length; exact Hp).
  rewrite nth_list_set, Nat.eqb_refl.
  destruct (Nat.ltb_spec p (length (store_ t))); [reflexivity|lia].
Qed.

Lemma split_list_new t index p :
  list_ (deref (split t index p) (length (store_ t))) =
  list_ (snd (redistribute t index (list_ (deref t p))
                (mkBucket (bucket_size_ t) (depth_ (deref t p) + 1) []))).
Proof.
  unfold split. simpl.
  destruct (redistribute _ _ _ _) as [kept nb]. unfold deref at 1. simpl.
  rewrite app_nth2 by (rewrite list_set_length; lia).
  rewrite list_set_length, Nat.sub_diag. reflexivity.
Qed.

(** A split shows no key with a value it did not have before. *)
Lemma split_Find t index p k v :
  sound t -> In p (dir_ t) ->
  Find (split t index p) k = Some v -> Find t k = Some v.
Proof.
  intros (Hwf & Hok & H0) Hp.
  destruct (wf_In t p Hwf Hp) as [Hpl _].
  pose proof (deref_ok t p Hok Hpl) as (_ & _ & Hd).
  pose proof (wf_key_slot t k Hwf) as Hq.
  destruct (wf_In t _ Hwf Hq) as [Hql _].
  pose proof Hwf as (Hg & Hlen & _).
  pose proof (IndexOf_range t k (proj1 Hg)) as Hr.
  unfold Find.
  replace (IndexOf (split t index p) k) with (IndexOf t k)
    by (unfold IndexOf; now rewrite split_global_depth).
  unfold dir_at at 1. rewrite split_dir.
  pose proof (redistribute_In t index (list_ (deref t p))
                (mkBucket (bucket_size_ t) (depth_ (deref t p) + 1) [])
                (k, v)) as [Hkept Hmoved].
  destruct (repoint_nth_eq (dir_ t) 0 p (length (store_ t))
              (depth_ (deref t p) + 1) (Z.to_nat (IndexOf t k)))
    as [E|[E1 E2]]; [lia| |].
  - rewrite E. fold (dir_at t (IndexOf t k)).
    destruct (Nat.eq_dec (dir_at t (IndexOf t k)) p) as [Ep|Ep].
    + rewrite Ep. unfold Bucket_Find. rewrite split_list_old by assumption.
      intros Hf. apply find_item_In in Hf.
      apply find_item_of_In; auto.
    + now rewrite split_deref_other.
  - rewrite E2. fold (dir_at t (IndexOf t k)) in E1. rewrite E1.
    unfold Bucket_Find. rewrite split_list_new.
    intros Hf. apply find_item_In, Hmoved in Hf.
    destruct Hf as [[]|Hf]. now apply find_item_of_In.
Qed.

Lemma grow_Find t k : wf t -> Find (grow t) k = Find t k.
Proof.
  intros Hwf. unfold Find. now rewrite grow_key_slot.
Qed.

Lemma Bucket_Insert_find_other b key value k :
  k <> key ->
  Bucket_Find (fst (Bucket_Insert b key value)) k = Bucket_Find b k.
Proof.
  intros Hne. unfold Bucket_Insert, Bucket_Find.
  destruct (update_item (list_ b) key value) as [l|] eqn:E; simpl.
  - eapply update_item_find_other; eauto.
  - destruct (IsFull b); simpl; [reflexivity|].
    rewrite find_item_app. destruct (find_item (list_ b) k); [reflexivity|].
    now rewrite key_eqb_neq by congruence.
Qed.

Lemma assign_Find t p b k :
  (p < length (store_ t))%nat ->
  Find (assign t p b) k =
  if Nat.eqb (dir_at t (IndexOf t k)) p then Bucket_Find b k else Find t k.
Proof.
  intros Hp. unfold Find.
  change (IndexOf (assign t p b) k) with (IndexOf t k).
  change (dir_at (assign t p b) (IndexOf t k)) with (dir_at t (IndexOf t k)).
  rewrite deref_assign.
  destruct (Nat.ltb_spec p (length (store_ t))); [|lia].
  rewrite andb_true_r. now destruct (Nat.eqb _ p).
Qed.

Lemma Insert_iteration_Find t key value k v :
  sound t ->
  match Insert_iteration t key value with
  | Returned t' => k <> key -> Find t' k = Find t k
  | Thrown t' => True
  | Continue t' => Find t' k = Some v -> Find t k = Some v
  end.
Proof.
  intros Hs. pose proof Hs as (Hwf & Hok & H0).
  pose proof (wf_key_slot t key Hwf) as Hin.
  destruct (wf_In t _ Hwf Hin) as [Hpl _].
  unfold Insert_iteration.
  set (p := dir_at t (IndexOf t key)) in *.
  pose proof (Bucket_Insert_find_other (deref t p) key value k) as Ho.
  destruct (Bucket_Insert (deref t p) key value) as [b ok]. simpl in Ho.
  destruct ok.
  - intros Hne. rewrite assign_Find by assumption.
    destruct (Nat.eqb_spec (dir_at t (IndexOf t k)) p) as [E|E]; [|reflexivity].
    rewrite (Ho Hne). unfold Find. now rewrite E.
  - destruct (Z.eqb_spec (GetDepth (deref t p)) (global_depth_ t)) as [E|E].
    + destruct (Z.geb_spec (global_depth_ t) kMaxGlobalDepth) as [G|G];
        [exact I|].
      intros Hf. rewrite <- (grow_Find t k Hwf).
      apply (split_Find (grow t) (IndexOf t key) p); [| |exact Hf].
      * split; [now apply grow_wf|]. split; [|exact H0].
        apply (buckets_ok_ext t (grow t)); [reflexivity..|exact Hok].
      * simpl. apply in_or_app. now left.
    + now apply split_Find.
Qed.

Lemma Insert_loop_Find key value k v : forall fuel t,
  sound t -> k <> key ->
  match Insert_loop fuel t key value with
  | Done t' => Find t' k = Some v -> Find t k = Some v
  | Overflow t' => Find t' k = Some v -> Find t k = Some v
  | Diverged => True
  end.
Proof.
  induction fuel as [|n IH]; intros t Hs Hne; simpl; [exact I|].
  pose proof (Insert_iteration_Find t key value k v Hs) as Hi.
  pose proof (Insert_iteration_sound t key value Hs) as Hs1.
  destruct (Insert_iteration t key value) as [t1|t1|t1].
  - now rewrite (Hi Hne).
  - now subst t1.
  - specialize (IH t1 Hs1 Hne).
    destruct (Insert_loop n t1 key value); auto.
Qed.

Lemma Remove_Find t key k :
  sound t ->
  Find (fst (Remove t key)) k = if key_eqb key k then None else Find t k.
Proof.
  intros (Hwf & Hok & _).
  pose proof (wf_key_slot t key Hwf) as Hin.
  destruct (wf_In t _ Hwf Hin) as [Hpl _].
  pose proof (deref_ok t _ Hok Hpl) as (_ & _ & Hd).
  unfold Remove. set (p := dir_at t (IndexOf t key)) in *.
  pose proof (Bucket_Remove_depth (deref t p) key) as _.
  unfold Bucket_Remove.
  destruct (remove_item (list_ (deref t p)) key) as [l|] eqn:E; simpl fst;
    rewrite assign_Find by assumption.
  - destruct (key_eqb key k) eqn:Ek.
    + apply key_eqb_spec in Ek. subst k. fold p. rewrite Nat.eqb_refl.
      unfold Bucket_Find. simpl. eapply remove_item_find_same; eauto.
    + destruct (Nat.eqb_spec (dir_at t (IndexOf t k)) p) as [Ep|Ep];
        [|reflexivity].
      unfold Find, Bucket_Find. rewrite Ep. simpl.
      eapply remove_item_find_other; eauto.
      intros ->. rewrite key_eqb_refl in Ek. discriminate.
  - apply remove_item_None in E.
    destruct (key_eqb key k) eqn:Ek.
    + apply key_eqb_spec in Ek. subst k. fold p. rewrite Nat.eqb_refl. exact E.
    + destruct (Nat.eqb_spec (dir_at t (IndexOf t k)) p) as [Ep|Ep];
        [|reflexivity].
      unfold Find. now rewrite Ep.
Qed.

(** X4.  An [Insert] whose bucket already holds the key, or still has
    room, is done in place: the call returns without a split, the global
    depth, the directory and the bucket count are unchanged, [Find] yields
    the new value for the key and what it yielded before for every other
    key. *)
Theorem Insert_in_place (bucket_size : Z) (ops : list op) (t : Table)
    (key : K) (value : V) :
  0 <= bucket_size ->
  run ops (new_table bucket_size) = Some t ->
  Find t key <> None \/
  IsFull (deref t (dir_at t (IndexOf t key))) = false ->
  exists t',
    Insert t key value = Done t' /\
    GetGlobalDepth t' = GetGlobalDepth t /\
    dir_ t' = dir_ t /\
    GetNumBuckets t' = GetNumBuckets t /\
    Find t' key = Some value /\
    forall k, k <> key -> Find t' k = Find t k.
Proof.
  intros H0 Hrun Hroom.
  pose proof (run_sound _ _ _ (new_table_sound _ H0) Hrun) as Hs.
  pose proof (Insert_iteration_sound t key value Hs) as Hi.
  pose proof (Insert_iteration_grows t key value) as Hg.
  assert (Hret : exists t', Insert_iteration t key value = Returned t').
  { unfold Insert_iteration, Find, Bucket_Find, Bucket_Insert in *.
    pose proof (update_item_Some
                  (list_ (deref t (dir_at t (IndexOf t key)))) key value) as Hu.
    destruct (update_item _ key value); [eauto|].
    destruct Hroom as [Hf|Hf]; [exfalso; apply Hu; congruence|].
    rewrite Hf. eauto. }
  destruct Hret as [t' Hret].
  assert (Hfr : forall k, k <> key -> Find t' k = Find t k).
  { intros k Hk.
    pose proof (Insert_iteration_Find t key value k value Hs) as Hf.
    rewrite Hret in Hf. auto. }
  rewrite Hret in Hi, Hg.
  exists t'. unfold Insert, GetGlobalDepth, GetNumBuckets.
  change (Z.to_nat (kMaxGlobalDepth + 1)) with 21%nat. simpl.
  rewrite Hret. tauto.
Qed.

(** X5.  [Remove] on a table built by the constructor and public
    operations: it hands back [true] exactly when [Find] sees the key;
    afterwards [Find] does not see the key and yields what it yielded
    before for every other key; the global depth, the directory and the
    bucket count are never changed (no bucket is merged, the directory
    never shrinks); and a call that hands back [false] leaves the table as
    it is. *)
Theorem Remove_spec (bucket_size : Z) (ops : list op) (t : Table) (key : K) :
  0 <= bucket_size ->
  run ops (new_table bucket_size) = Some t ->
  let t' := fst (Remove t key) in
  let removed := snd (Remove t key) in
  (removed = true <-> Find t key <> None) /\
  Find t' key = None /\
  (forall k, k <> key -> Find t' k = Find t k) /\
  GetGlobalDepth t' = GetGlobalDepth t /\
  dir_ t' = dir_ t /\
  GetNumBuckets t' = GetNumBuckets t /\
  (removed = false -> t' = t).
Proof.
  intros H0 Hrun.
  pose proof (run_sound _ _ _ (new_table_sound _ H0) Hrun) as Hs.
  assert (Hfr : forall k, Find (fst (Remove t key)) k
                          = if key_eqb key k then None else Find t k).
  { intros k. apply Remove_Find. exact Hs. }
  destruct Hs as (Hwf & Hok & _).
  pose proof (wf_key_slot t key Hwf) as Hin.
  destruct (wf_In t _ Hwf Hin) as [Hpl _].
  cbv zeta.
  split; [|split; [|split]].
  - unfold Remove, Find, Bucket_Remove, Bucket_Find.
    set (p := dir_at t (IndexOf t key)).
    destruct (remove_item (list_ (deref t p)) key) as [l|] eqn:E; simpl.
    + split; [intros _|reflexivity].
      intros Hn. apply remove_item_None in Hn. congruence.
    + apply remove_item_None in E. split; [discriminate|congruence].
  - rewrite Hfr, key_eqb_refl. reflexivity.
  - intros k Hk. rewrite Hfr, key_eqb_neq by congruence. reflexivity.
  - unfold Remove, Bucket_Remove, GetGlobalDepth, GetNumBuckets.
    set (p := dir_at t (IndexOf t key)).
    destruct (remove_item (list_ (deref t p)) key) as [l|] eqn:E; simpl.
    + split; [reflexivity|]. split; [reflexivity|].
      split; [reflexivity|discriminate].
    + split; [reflexivity|]. split; [reflexivity|].
      split; [reflexivity|]. intros _.
      unfold assign, deref. rewrite list_set_nth. now destruct t.
Qed.

(** The value of the last [Insert] of [k] among [ops], [None] when a
    [Remove] of [k] came after it; [acc] stands for what came before. *)
Fixpoint last_write (ops : list op) (k : K) (acc : option V) : option V :=
  match ops with
  | [] => acc
  | OpInsert k' v :: r => last_write r k (if key_eqb k' k then Some v else acc)
  | OpRemove k' :: r => last_write r k (if key_eqb k' k then None else acc)
  | _ :: r => last_write r k acc
  end.

Lemma run_last_write k : forall ops t t' acc,
  sound t -> (forall v, Find t k = Some v -> acc = Some v) ->
  run ops t = Some t' ->
  forall v, Find t' k = Some v -> last_write ops k acc = Some v.
Proof.
  induction ops as [|o r IH]; intros t t' acc Hs Hacc Hrun v Hf; simpl in *.
  - injection Hrun as <-. auto.
  - destruct (exec t o) as [t1|] eqn:E; [|discriminate].
    pose proof (exec_sound t o t1 Hs E) as Hs1.
    destruct o as [k'|k' v'|k'| | |]; simpl in E;
      try (injection E as <-; eapply IH; eauto; fail).
    + (* Insert *)
      pose proof (Insert_loop_sound k' v' (Z.to_nat (kMaxGlobalDepth + 1)) t Hs)
        as Hl.
      unfold Insert in E.
      destruct (key_eqb k' k) eqn:Ek.
      * apply key_eqb_spec in Ek. subst k'.
        destruct (Insert_loop _ t k v') as [t2|t2|] eqn:El; [| |discriminate];
          injection E as <-.
        -- eapply IH; eauto. intros w Hw. destruct Hl as [_ Hl]. congruence.
        -- eapply IH; eauto. intros w Hw.
           destruct (Insert_loop_overflow k v' _ t t2 (proj1 Hs) El)
             as (_ & _ & Hn & _). congruence.
      * assert (Hne : k <> k').
        { intros ->. rewrite key_eqb_refl in Ek. discriminate. }
        pose proof (fun w => Insert_loop_Find k' v' k w
                      (Z.to_nat (kMaxGlobalDepth + 1)) t Hs Hne) as Hother.
        destruct (Insert_loop _ t k' v') as [t2|t2|]; [| |discriminate];
          injection E as <-; eapply IH; eauto; intros w Hw;
          apply Hacc; now apply (Hother w).
    + (* Remove *)
      injection E as <-. eapply IH; eauto. intros w Hw.
      rewrite (Remove_Find t k' k Hs) in Hw.
      destruct (key_eqb k' k); [discriminate|auto].
Qed.

Lemma new_table_Find bucket_size k : Find (new_table bucket_size) k = None.
Proof.
  unfold Find, new_table, dir_at, deref. simpl.
  destruct (Z.to_nat _) as [|[|n]]; reflexivity.
Qed.

(** X9.  [Find] never hands back a stale or foreign value.  On a table
    built by the constructor and public operations, when [Find] yields a
    value for a key, the last [Insert] or [Remove] of that key among the
    operations was the [Insert] of exactly that value. *)
Theorem Find_yields_last_write (bucket_size : Z) (ops : list op) (t : Table)
    (k : K) (v : V) :
  0 <= bucket_size ->
  run ops (new_table bucket_size) = Some t ->
  Find t k = Some v ->
  last_write ops k None = Some v.
Proof.
  intros H0 Hrun Hf.
  apply (run_last_write k ops (new_table bucket_size) t None); auto.
  - now apply new_table_sound.
  - intros w Hw. rewrite new_table_Find in Hw. discriminate.
Qed.

(** *** A split at the global depth loses no key

    The split of [Insert] compares the slot of each pair with the slot of
    the key being inserted.  When the bucket that is split has the global
    depth as its local depth, the directory is doubled first and the two
    slots differ exactly in the bit the directory loop tests, so that each
    pair stays reachable. *)

Lemma redistribute_find_kept t0 index k : forall items nb,
  IndexOf t0 k = index ->
  find_item (fst (redistribute t0 index items nb)) k = find_item items k.
Proof.
  induction items as [|[k0 v0] r IH]; intros nb Hk; simpl; [reflexivity|].
  destruct (Z.eqb_spec (IndexOf t0 k0) index) as [E|E].
  - specialize (IH nb Hk).
    destruct (redistribute t0 index r nb) as [kept nb']. simpl in *.
    now rewrite IH.
  - rewrite IH by exact Hk.
    rewrite key_eqb_neq; [reflexivity|]. intros ->. contradiction.
Qed.

Lemma Bucket_Insert_room b key value :
  Z.of_nat (length (list_ b)) < size_ b ->
  snd (Bucket_Insert b key value) = true /\
  size_ (fst (Bucket_Insert b key value)) = size_ b /\
  (length (list_ (fst (Bucket_Insert b key value))) <= S (length (list_ b)))%nat.
Proof.
  intros Hlt. unfold Bucket_Insert.
  destruct (update_item (list_ b) key value) as [l|] eqn:E; simpl.
  - split; [reflexivity|]. split; [reflexivity|].
    rewrite (update_item_length _ _ _ _ E). lia.
  - unfold IsFull. destruct (Z.eqb_spec (Z.of_nat (length (list_ b))) (size_ b));
      [lia|]. simpl.
    split; [reflexivity|]. split; [reflexivity|].
    rewrite length_app. simpl. lia.
Qed.

Lemma redistribute_find_new t0 index k : forall items nb,
  NoDup (map fst items) ->
  Z.of_nat (length (list_ nb)) + Z.of_nat (length items) <= size_ nb ->
  IndexOf t0 k <> index ->
  Bucket_Find (snd (redistribute t0 index items nb)) k =
  match find_item items k with
  | Some v => Some v
  | None => Bucket_Find nb k
  end.
Proof.
  induction items as [|[k0 v0] r IH]; intros nb Hnd Hcap Hk; simpl;
    [reflexivity|].
  inversion Hnd as [|? ? Hk0 Hr]; subst. simpl in Hcap.
  destruct (Z.eqb_spec (IndexOf t0 k0) index) as [E|E].
  - assert (IHr := IH nb Hr ltac:(lia) Hk).
    destruct (redistribute t0 index r nb) as [kept nb']. simpl in *.
    rewrite key_eqb_neq; [exact IHr|]. intros ->. contradiction.
  - destruct (Bucket_Insert_room nb k0 v0 ltac:(lia)) as (Hok & Hsz & Hlen).
    rewrite IH; [|exact Hr|rewrite Hsz; lia|exact Hk].
    destruct (key_eqb k0 k) eqn:Ek.
    + apply key_eqb_spec in Ek. subst k0.
      assert (Hn : find_item r k = None) by (apply find_item_None; exact Hk0).
      rewrite Hn. now apply Bucket_Insert_found.
    + assert (Hne : k <> k0).
      { intros ->. rewrite key_eqb_refl in Ek. discriminate. }
      rewrite (Bucket_Insert_find_other nb k0 v0 k Hne). reflexivity.
Qed.

Lemma split_Find_exact t index p k :
  sound t -> aliasing t -> In p (dir_ t) ->
  dir_at t index = p ->
  0 <= index < 2 ^ depth_ (deref t p) ->
  depth_ (deref t p) + 1 = global_depth_ t ->
  Find (split t index p) k = Find t k.
Proof.
  intros (Hwf & Hok & H0) Hal Hp Hidx Hr Hd.
  destruct (wf_In t p Hwf Hp) as [Hpl Hpd].
  pose proof (deref_ok t p Hok Hpl) as (Hsz & Hcap & Hnd).
  pose proof (wf_key_slot t k Hwf) as Hq.
  destruct (wf_In t _ Hwf Hq) as [Hql _].
  pose proof Hwf as (Hg & Hlen & _).
  pose proof (IndexOf_range t k (proj1 Hg)) as Hrk.
  set (d := depth_ (deref t p)) in *.
  unfold Find.
  replace (IndexOf (split t index p) k) with (IndexOf t k)
    by (unfold IndexOf; now rewrite split_global_depth).
  rewrite (split_dir_at t index p (IndexOf t k) Hwf Hp Hrk). fold d.
  destruct (Nat.eqb_spec (dir_at t (IndexOf t k)) p) as [E|E]; simpl.
  - assert (Hi : 0 <= index < 2 ^ global_depth_ t).
    { rewrite <- Hd, Z.pow_add_r by lia. change (2 ^ 1) with 2. lia. }
    assert (Hm : IndexOf t k mod 2 ^ d = index).
    { assert (Hsame : dir_at t (IndexOf t k) = dir_at t index) by congruence.
      apply (Hal _ _ Hrk Hi) in Hsame.
      unfold GetLocalDepth, GetDepth in Hsame. rewrite E in Hsame. fold d in Hsame.
      rewrite Hsame. apply Z.mod_small. exact Hr. }
    assert (Hs : IndexOf t k = index + 2 ^ d * Z.b2z (Z.testbit (IndexOf t k) d)).
    { rewrite <- Hm, <- mod_pow2_succ by lia.
      symmetry. apply Z.mod_small. rewrite Hd. exact Hrk. }
    assert (Hpos : 0 < 2 ^ d) by (apply Z.pow_pos_nonneg; lia).
    rewrite E. unfold Bucket_Find.
    destruct (Z.testbit (IndexOf t k) d) eqn:B; simpl in Hs.
    + rewrite split_list_new.
      change (find_item (list_ ?b) k) with (Bucket_Find b k) at 1.
      rewrite redistribute_find_new;
        [|exact Hnd|simpl; unfold distinct_keys in *; lia|lia].
      simpl. destruct (find_item (list_ (deref t p)) k); reflexivity.
    + rewrite split_list_old by exact Hpl.
      apply redistribute_find_kept. lia.
  - now rewrite split_deref_other.
Qed.

Lemma Insert_iteration_keeps t key value k :
  sound t -> aliasing t -> key_depth t key = global_depth_ t ->
  match Insert_iteration t key value with
  | Returned t' => True
  | Thrown t' => True
  | Continue t' => key_depth t' key = global_depth_ t' /\ Find t' k = Find t k
  end.
Proof.
  intros Hs Hal Hreg. pose proof Hs as (Hwf & Hok & H0).
  pose proof (wf_key_slot t key Hwf) as Hin.
  destruct (wf_In t _ Hwf Hin) as [Hpl Hpd].
  pose proof Hwf as (Hg & Hlen & _).
  pose proof (IndexOf_range t key (proj1 Hg)) as Hr.
  unfold Insert_iteration. unfold key_depth, GetDepth in Hreg.
  set (p := dir_at t (IndexOf t key)) in *.
  destruct (Bucket_Insert (deref t p) key value) as [b ok].
  destruct ok; [exact I|].
  unfold GetDepth. rewrite Hreg, Z.eqb_refl.
  destruct (Z.geb_spec (global_depth_ t) kMaxGlobalDepth) as [G|G]; [exact I|].
  assert (Hwg : wf (grow t)) by (apply grow_wf; [exact Hwf|lia]).
  assert (Hsg : sound (grow t)).
  { split; [exact Hwg|]. split; [|exact H0].
    apply (buckets_ok_ext t (grow t)); [reflexivity..|exact Hok]. }
  assert (Hing : In p (dir_ (grow t))) by (simpl; apply in_or_app; now left).
  split.
  - rewrite split_global_depth.
    rewrite (split_key_depth (grow t) (IndexOf t key) p key Hwg).
    + change (deref (grow t) p) with (deref t p). rewrite Hreg. reflexivity.
    + rewrite grow_key_slot by exact Hwf. reflexivity.
  - rewrite <- (grow_Find t k Hwf).
    apply split_Find_exact.
    + exact Hsg.
    + now apply grow_aliasing.
    + exact Hing.
    + assert (Hr2 : 0 <= IndexOf t key < 2 ^ (global_depth_ t + 1)).
      { rewrite Z.pow_add_r by lia. change (2 ^ 1) with 2. lia. }
      rewrite (grow_dir_at t _ Hwf Hr2).
      rewrite Z.mod_small by exact Hr. reflexivity.
    + change (deref (grow t) p) with (deref t p). rewrite Hreg. exact Hr.
    + change (deref (grow t) p) with (deref t p). rewrite Hreg. reflexivity.
Qed.

Lemma Insert_loop_keeps key value k : forall fuel t,
  sound t -> aliasing t -> key_depth t key = global_depth_ t -> k <> key ->
  match Insert_loop fuel t key value with
  | Done t' => Find t' k = Find t k
  | Overflow t' => Find t' k = Find t k
  | Diverged => True
  end.
Proof.
  induction fuel as [|n IH]; intros t Hs Hal Hreg Hne; simpl; [exact I|].
  pose proof (Insert_iteration_Find t key value k value Hs) as Hi.
  pose proof (Insert_iteration_sound t key value Hs) as Hs1.
  pose proof (Insert_iteration_aliasing t key value (proj1 Hs) Hal) as Ha1.
  pose proof (Insert_iteration_keeps t key value k Hs Hal Hreg) as Hk1.
  destruct (Insert_iteration t key value) as [t1|t1|t1].
  - exact (Hi Hne).
  - now subst t1.
  - destruct Hk1 as [Hreg1 Hf1].
    specialize (IH t1 Hs1 Ha1 Hreg1 Hne).
    destruct (Insert_loop n t1 key value); [congruence|congruence|exact I].
Qed.

(** X20.  An [Insert] whose bucket has the global depth as its local depth
    loses no key, however many times it doubles the directory and splits:
    whether the call returns or throws, [Find] yields afterwards for every
    other key what it yielded before. *)
Theorem Insert_keeps_other_keys (bucket_size : Z) (ops : list op) (t : Table)
    (key : K) (value : V) :
  0 <= bucket_size ->
  run ops (new_table bucket_size) = Some t ->
  GetLocalDepth t (IndexOf t key) = GetGlobalDepth t ->
  forall k, k <> key ->
            Find (table_after t (Insert t key value)) k = Find t k.
Proof.
  intros H0 Hrun Hreg k Hne.
  pose proof (run_sound _ _ _ (new_table_sound _ H0) Hrun) as Hs.
  assert (Ha : aliasing (new_table bucket_size)).
  { intros x y Hx Hy. simpl in Hx, Hy.
    assert (x = 0) by lia. assert (y = 0) by lia. subst. tauto. }
  pose proof (run_aliasing _ _ _ (new_table_wf bucket_size) Ha Hrun) as Hal.
  pose proof (Insert_loop_keeps key value k
                (Z.to_nat (kMaxGlobalDepth + 1)) t Hs Hal Hreg Hne) as H.
  unfold Insert.
  destruct (Insert_loop (Z.to_nat (kMaxGlobalDepth + 1)) t key value);
    simpl; [exact H|exact H|reflexivity].
Qed.

End KeyEquality.
End Table.

Arguments mkBucket {K V} size_ depth_ list_.
Arguments mkTable {K V} global_depth_ bucket_size_ num_buckets_ dir_ store_.
Arguments global_depth_ {K V} t.
Arguments num_buckets_ {K V} t.
Arguments GetGlobalDepth {K V} t.
Arguments GetNumBuckets {K V} t.
Arguments Done {K V} t.
Arguments Overflow {K V} t.
Arguments Diverged {K V}.
Arguments OpFind {K V} key.
Arguments OpInsert {K V} key value.
Arguments OpRemove {K V} key.
Arguments Insert {K V} key_eqb hash t key value.
Arguments Find {K V} key_eqb hash t key.
Arguments Remove {K V} key_eqb hash t key.
Arguments run {K V} key_eqb hash ops t.
Arguments overflowed {K V} o.
Arguments table_after {K V} t o.
Arguments key_depth {K V} hash t key.

(** *** The instance [ExtendibleHashTable<int, int>]

    [std::hash<int>] hands back the key converted to [size_t] (libstdc++,
    libc++). *)
Definition int_hash (k : Z) : Z := k mod 2 ^ 64.

(** The table after [ExtendibleHashTable<int, int> t(1); t.Insert(0, 0);]. *)
Definition one_key_table : Table Z Z :=
  mkTable 0 1 1 [O] [mkBucket 1 0 [(0, 0)]].

(** The table after [Insert(0, 100)], [Insert(1, 101)], [Insert(2, 102)]
    with buckets of one pair: slots 1 and 3 share the bucket of key 1. *)
Definition three_keys_table : Table Z Z :=
  mkTable 2 1 3 [0; 1; 2; 1]%nat
    [mkBucket 1 2 [(0, 100)]; mkBucket 1 1 [(1, 101)]; mkBucket 1 2 [(2, 102)]].

(** The table after one more call, [Insert(3, 103)]. *)
Definition four_keys_table : Table Z Z :=
  mkTable 3 1 5 [0; 1; 2; 3; 0; 1; 2; 4]%nat
    [mkBucket 1 2 [(0, 100)]; mkBucket 1 2 []; mkBucket 1 2 [(2, 102)];
     mkBucket 1 3 [(3, 103)]; mkBucket 1 3 [(1, 101)]].

(** C1 (round trip), on the code.  With buckets of one pair, after
    [Insert(0, 100)], [Insert(1, 101)], [Insert(2, 102)] the key 1 is
    found with its value; [Insert(3, 103)] then splits the bucket of slots
    1 and 3 and returns, no [Remove] is ever called, and [Find(1)] fails:
    the pair of key 1 went to the bucket of slot 7 while slot 1 refers to
    a bucket that was emptied. *)
Theorem lost_key_after_split :
  run Z.eqb int_hash [OpInsert 0 100; OpInsert 1 101; OpInsert 2 102]
      (new_table Z Z 1) = Some three_keys_table /\
  Find Z.eqb int_hash three_keys_table 1 = Some 101 /\
  Insert Z.eqb int_hash three_keys_table 3 103 = Done four_keys_table /\
  Find Z.eqb int_hash four_keys_table 3 = Some 103 /\
  Find Z.eqb int_hash four_keys_table 1 = None.
Proof.
  split; [vm_compute; reflexivity|]. split; [vm_compute; reflexivity|].
  split; [vm_compute; reflexivity|]. split; vm_compute; reflexivity.
Qed.

(** C5, the claim as stated fails.  With buckets of one pair and the key 0
    in the table, [Insert(1048576, 1)] (same low 20 bits as 0) ends with
    the overflow error, and leaves global depth 20 and 21 buckets where
    there were global depth 0 and 1 bucket. *)
Lemma overflow_keeps_splits :
  run Z.eqb int_hash [OpInsert 0 0] (new_table Z Z 1) = Some one_key_table /\
  overflowed (Insert Z.eqb int_hash one_key_table 1048576 1) = true /\
  GetGlobalDepth one_key_table = 0 /\
  GetNumBuckets one_key_table = 1 /\
  GetGlobalDepth
    (table_after one_key_table
       (Insert Z.eqb int_hash one_key_table 1048576 1)) = 20 /\
  GetNumBuckets
    (table_after one_key_table
       (Insert Z.eqb int_hash one_key_table 1048576 1)) = 21 /\
  table_after one_key_table (Insert Z.eqb int_hash one_key_table 1048576 1)
  <> one_key_table.
Proof.
  assert (H2 : GetGlobalDepth
                 (table_after one_key_table
                    (Insert Z.eqb int_hash one_key_table 1048576 1)) = 20)
    by (vm_compute; reflexivity).
  split; [vm_compute; reflexivity|]. split; [vm_compute; reflexivity|].
  split; [reflexivity|]. split; [reflexivity|]. split; [exact H2|].
  split; [vm_compute; reflexivity|].
  intros E. rewrite E in H2. vm_compute in H2. discriminate H2.
Qed.

Lemma Insert_overflow_effect_witness :
  run Z.eqb int_hash [OpInsert 0 0] (new_table Z Z 1) = Some one_key_table /\
  overflowed (Insert Z.eqb int_hash one_key_table 1048576 1) = true /\
  (let t' := table_after one_key_table
               (Insert Z.eqb int_hash one_key_table 1048576 1) in
   GetGlobalDepth t' = kMaxGlobalDepth /\
   Find Z.eqb int_hash t' 1048576 = None /\
   GetGlobalDepth one_key_table <= GetGlobalDepth t' /\
   (t' = one_key_table <->
    key_depth int_hash one_key_table 1048576 = kMaxGlobalDepth)).
Proof.
  assert (H0 : run Z.eqb int_hash [OpInsert 0 0] (new_table Z Z 1)
               = Some one_key_table) by (vm_compute; reflexivity).
  assert (H : overflowed (Insert Z.eqb int_hash one_key_table 1048576 1) = true)
    by (vm_compute; reflexivity).
  split; [exact H0|]. split; [exact H|].
  exact (Insert_overflow_effect Z Z Z.eqb int_hash 1 [OpInsert 0 0]
           one_key_table 1048576 1 H0 H).
Defined.

(** *** Instances of the further properties at [ExtendibleHashTable<int, int>] *)

Arguments list_ {K V} b.
Arguments size_ {K V} b.
Arguments IsFull {K V} b.
Arguments Bucket_Find {K V} key_eqb b key.
Arguments Bucket_Insert {K V} key_eqb b key value.
Arguments Bucket_Remove {K V} key_eqb b key.
Arguments distinct_keys {K V} b.
Arguments dir_ {K V} t.
Arguments store_ {K V} t.
Arguments deref {K V} t p.
Arguments dir_at {K V} t index.
Arguments GetLocalDepth {K V} t dir_index.
Arguments last_write {K V} key_eqb ops k acc.

Definition three_inserts : list (op Z Z) :=
  [OpInsert 0 100; OpInsert 1 101; OpInsert 2 102].

Definition full_bucket : Bucket Z Z := mkBucket 1 0 [(0, 100)].

Lemma Bucket_Insert_spec_witness :
  (forall a b : Z, (a =? b) = true <-> a = b) /\
  (let b' := fst (Bucket_Insert Z.eqb full_bucket 0 7) in
   let ok := snd (Bucket_Insert Z.eqb full_bucket 0 7) in
   (ok = false <->
    Bucket_Find Z.eqb full_bucket 0 = None /\ IsFull full_bucket = true) /\
   (ok = false -> b' = full_bucket) /\
   (ok = true ->
    Bucket_Find Z.eqb b' 0 = Some 7 /\
    (forall k', k' <> 0 ->
                Bucket_Find Z.eqb b' k' = Bucket_Find Z.eqb full_bucket k') /\
    length (list_ b') =
    match Bucket_Find Z.eqb full_bucket 0 with
    | Some _ => length (list_ full_bucket)
    | None => S (length (list_ full_bucket))
    end)).
Proof.
  split; [exact Z.eqb_eq|].
  exact (Bucket_Insert_spec Z Z Z.eqb Z.eqb_eq full_bucket 0 7).
Defined.

Lemma Bucket_Remove_spec_witness :
  (forall a b : Z, (a =? b) = true <-> a = b) /\
  (let b' := fst (Bucket_Remove Z.eqb full_bucket 0) in
   let removed := snd (Bucket_Remove Z.eqb full_bucket 0) in
   (removed = true <-> Bucket_Find Z.eqb full_bucket 0 <> None) /\
   (removed = false -> b' = full_bucket) /\
   (removed = true -> S (length (list_ b')) = length (list_ full_bucket)) /\
   (forall k', k' <> 0 ->
               Bucket_Find Z.eqb b' k' = Bucket_Find Z.eqb full_bucket k') /\
   (distinct_keys full_bucket -> Bucket_Find Z.eqb b' 0 = None)).
Proof.
  split; [exact Z.eqb_eq|].
  exact (Bucket_Remove_spec Z Z Z.eqb Z.eqb_eq full_bucket 0).
Defined.

Lemma three_inserts_run :
  run Z.eqb int_hash three_inserts (new_table Z Z 1) = Some three_keys_table.
Proof. vm_compute. reflexivity. Qed.

Lemma Insert_then_Find_witness :
  (forall a b : Z, (a =? b) = true <-> a = b) /\
  0 <= 1 /\
  run Z.eqb int_hash three_inserts (new_table Z Z 1) = Some three_keys_table /\
  Insert Z.eqb int_hash three_keys_table 3 103 = Done four_keys_table /\
  Find Z.eqb int_hash four_keys_table 3 = Some 103.
Proof.
  assert (H1 : run Z.eqb int_hash three_inserts (new_table Z Z 1)
               = Some three_keys_table) by (vm_compute; reflexivity).
  assert (H2 : Insert Z.eqb int_hash three_keys_table 3 103
               = Done four_keys_table) by (vm_compute; reflexivity).
  split; [exact Z.eqb_eq|]. split; [lia|]. split; [exact H1|].
  split; [exact H2|].
  exact (Insert_then_Find Z Z Z.eqb int_hash Z.eqb_eq 1 three_inserts
           three_keys_table four_keys_table 3 103 ltac:(lia) H1 H2).
Defined.

Lemma Insert_in_place_witness :
  (forall a b : Z, (a =? b) = true <-> a = b) /\
  0 <= 1 /\
  run Z.eqb int_hash (three_inserts ++ [OpInsert 3 103]) (new_table Z Z 1)
  = Some four_keys_table /\
  (Find Z.eqb int_hash four_keys_table 5 <> None \/
   IsFull (deref four_keys_table
             (dir_at four_keys_table
                (IndexOf Z Z int_hash four_keys_table 5))) = false) /\
  exists t',
    Insert Z.eqb int_hash four_keys_table 5 105 = Done t' /\
    GetGlobalDepth t' = GetGlobalDepth four_keys_table /\
    dir_ t' = dir_ four_keys_table /\
    GetNumBuckets t' = GetNumBuckets four_keys_table /\
    Find Z.eqb int_hash t' 5 = Some 105 /\
    forall k, k <> 5 ->
              Find Z.eqb int_hash t' k = Find Z.eqb int_hash four_keys_table k.
Proof.
  assert (H1 : run Z.eqb int_hash (three_inserts ++ [OpInsert 3 103])
                 (new_table Z Z 1)
               = Some four_keys_table) by (vm_compute; reflexivity).
  assert (H2 : Find Z.eqb int_hash four_keys_table 5 <> None \/
               IsFull (deref four_keys_table
                         (dir_at four_keys_table
                            (IndexOf Z Z int_hash four_keys_table 5))) = false)
    by (right; vm_compute; reflexivity).
  split; [exact Z.eqb_eq|]. split; [lia|]. split; [exact H1|].
  split; [exact H2|].
  exact (Insert_in_place Z Z Z.eqb int_hash Z.eqb_eq 1
           (three_inserts ++ [OpInsert 3 103])
           four_keys_table 5 105 ltac:(lia) H1 H2).
Defined.

Lemma Remove_spec_witness :
  (forall a b : Z, (a =? b) = true <-> a = b) /\
  0 <= 1 /\
  run Z.eqb int_hash three_inserts (new_table Z Z 1) = Some three_keys_table /\
  (let t' := fst (Remove Z.eqb int_hash three_keys_table 1) in
   let removed := snd (Remove Z.eqb int_hash three_keys_table 1) in
   (removed = true <-> Find Z.eqb int_hash three_keys_table 1 <> None) /\
   Find Z.eqb int_hash t' 1 = None /\
   (forall k, k <> 1 ->
              Find Z.eqb int_hash t' k
              = Find Z.eqb int_hash three_keys_table k) /\
   GetGlobalDepth t' = GetGlobalDepth three_keys_table /\
   dir_ t' = dir_ three_keys_table /\
   GetNumBuckets t' = GetNumBuckets three_keys_table /\
   (removed = false -> t' = three_keys_table)).
Proof.
  assert (H1 : run Z.eqb int_hash three_inserts (new_table Z Z 1)
               = Some three_keys_table) by (vm_compute; reflexivity).
  split; [exact Z.eqb_eq|]. split; [lia|]. split; [exact H1|].
  exact (Remove_spec Z Z Z.eqb int_hash Z.eqb_eq 1 three_inserts
           three_keys_table 1 ltac:(lia) H1).
Defined.

Lemma buckets_within_capacity_witness :
  (forall a b : Z, (a =? b) = true <-> a = b) /\
  0 <= 1 /\
  run Z.eqb int_hash three_inserts (new_table Z Z 1) = Some three_keys_table /\
  0 <= 3 < Z.of_nat (length (dir_ three_keys_table)) /\
  (let b := deref three_keys_table (dir_at three_keys_table 3) in
   size_ b = 1 /\
   Z.of_nat (length (list_ b)) <= 1 /\
   distinct_keys b).
Proof.
  assert (H1 : run Z.eqb int_hash three_inserts (new_table Z Z 1)
               = Some three_keys_table) by (vm_compute; reflexivity).
  assert (H2 : 0 <= 3 < Z.of_nat (length (dir_ three_keys_table)))
    by (simpl; lia).
  split; [exact Z.eqb_eq|]. split; [lia|]. split; [exact H1|].
  split; [exact H2|].
  exact (buckets_within_capacity Z Z Z.eqb int_hash Z.eqb_eq 1 three_inserts
           three_keys_table 3 ltac:(lia) H1 H2).
Defined.

Lemma table_only_grows_witness :
  run Z.eqb int_hash three_inserts (new_table Z Z 1) = Some three_keys_table /\
  run Z.eqb int_hash [OpInsert 3 103] three_keys_table = Some four_keys_table /\
  0 <= GetGlobalDepth three_keys_table <= GetGlobalDepth four_keys_table /\
  GetGlobalDepth four_keys_table <= kMaxGlobalDepth /\
  (length (dir_ three_keys_table) <= length (dir_ four_keys_table))%nat /\
  1 <= GetNumBuckets three_keys_table <= GetNumBuckets four_keys_table /\
  GetNumBuckets four_keys_table = Z.of_nat (length (store_ four_keys_table)).
Proof.
  assert (H1 : run Z.eqb int_hash three_inserts (new_table Z Z 1)
               = Some three_keys_table) by (vm_compute; reflexivity).
  assert (H2 : run Z.eqb int_hash [OpInsert 3 103] three_keys_table
               = Some four_keys_table) by (vm_compute; reflexivity).
  split; [exact H1|]. split; [exact H2|].
  exact (table_only_grows Z Z Z.eqb int_hash 1 three_inserts [OpInsert 3 103]
           three_keys_table four_keys_table H1 H2).
Defined.

Lemma directory_aliasing_witness :
  run Z.eqb int_hash three_inserts (new_table Z Z 1) = Some three_keys_table /\
  0 <= 1 < Z.of_nat (length (dir_ three_keys_table)) /\
  0 <= 3 < Z.of_nat (length (dir_ three_keys_table)) /\
  (dir_at three_keys_table 1 = dir_at three_keys_table 3 <->
   1 mod 2 ^ GetLocalDepth three_keys_table 1
   = 3 mod 2 ^ GetLocalDepth three_keys_table 1).
Proof.
  assert (H1 : run Z.eqb int_hash three_inserts (new_table Z Z 1)
               = Some three_keys_table) by (vm_compute; reflexivity).
  assert (H2 : 0 <= 1 < Z.of_nat (length (dir_ three_keys_table)))
    by (simpl; lia).
  assert (H3 : 0 <= 3 < Z.of_nat (length (dir_ three_keys_table)))
    by (simpl; lia).
  split; [exact H1|]. split; [exact H2|]. split; [exact H3|].
  exact (directory_aliasing Z Z Z.eqb int_hash 1 three_inserts
           three_keys_table 1 3 H1 H2 H3).
Defined.

Lemma Find_yields_last_write_witness :
  (forall a b : Z, (a =? b) = true <-> a = b) /\
  0 <= 1 /\
  run Z.eqb int_hash three_inserts (new_table Z Z 1) = Some three_keys_table /\
  Find Z.eqb int_hash three_keys_table 1 = Some 101 /\
  last_write Z.eqb three_inserts 1 None = Some 101.
Proof.
  assert (H1 : run Z.eqb int_hash three_inserts (new_table Z Z 1)
               = Some three_keys_table) by (vm_compute; reflexivity).
  assert (H2 : Find Z.eqb int_hash three_keys_table 1 = Some 101)
    by (vm_compute; reflexivity).
  split; [exact Z.eqb_eq|]. split; [lia|]. split; [exact H1|].
  split; [exact H2|].
  exact (Find_yields_last_write Z Z Z.eqb int_hash Z.eqb_eq 1 three_inserts
           three_keys_table 1 101 ltac:(lia) H1 H2).
Defined.

Lemma key_routing_witness :
  run Z.eqb int_hash three_inserts (new_table Z Z 1) = Some three_keys_table /\
  (let d := GetLocalDepth three_keys_table
              (IndexOf Z Z int_hash three_keys_table 1) in
   IndexOf Z Z int_hash three_keys_table 1
   = int_hash 1 mod 2 ^ GetGlobalDepth three_keys_table /\
   0 <= IndexOf Z Z int_hash three_keys_table 1
     < Z.of_nat (length (dir_ three_keys_table)) /\
   (dir_at three_keys_table (IndexOf Z Z int_hash three_keys_table 1%Z)
    < length (store_ three_keys_table))%nat /\
   0 <= d <= GetGlobalDepth three_keys_table /\
   (dir_at three_keys_table (IndexOf Z Z int_hash three_keys_table 1)
    = dir_at three_keys_table (IndexOf Z Z int_hash three_keys_table 3) <->
    int_hash 1 mod 2 ^ d = int_hash 3 mod 2 ^ d)).
Proof.
  assert (H1 : run Z.eqb int_hash three_inserts (new_table Z Z 1)
               = Some three_keys_table) by (vm_compute; reflexivity).
  split; [exact H1|].
  exact (key_routing Z Z Z.eqb int_hash 1 three_inserts three_keys_table
           1 3 H1).
Defined.

Lemma Insert_keeps_other_keys_witness :
  (forall a b : Z, (a =? b) = true <-> a = b) /\
  0 <= 1 /\
  run Z.eqb int_hash three_inserts (new_table Z Z 1) = Some three_keys_table /\
  GetLocalDepth three_keys_table (IndexOf Z Z int_hash three_keys_table 4)
  = GetGlobalDepth three_keys_table /\
  forall k, k <> 4 ->
            Find Z.eqb int_hash
              (table_after three_keys_table
                 (Insert Z.eqb int_hash three_keys_table 4 104)) k
            = Find Z.eqb int_hash three_keys_table k.
Proof.
  assert (H1 : run Z.eqb int_hash three_inserts (new_table Z Z 1)
               = Some three_keys_table) by (vm_compute; reflexivity).
  assert (H2 : GetLocalDepth three_keys_table
                 (IndexOf Z Z int_hash three_keys_table 4)
               = GetGlobalDepth three_keys_table) by (vm_compute; reflexivity).
  split; [exact Z.eqb_eq|]. split; [lia|]. split; [exact H1|].
  split; [exact H2|].
  exact (Insert_keeps_other_keys Z Z Z.eqb int_hash Z.eqb_eq 1 three_inserts
           three_keys_table 4 104 ltac:(lia) H1 H2).
Defined.

End ExtendibleHashTable.

(* ================================================================== *)
(** * LRU-K replacer *)
(* ================================================================== *)

Module LRUKReplacer.

(** The class declaration is not part of the sources at hand.  The fields
    are taken as the member functions use them: [size_t] counters, maps
    from frame ids read and written with [operator[]] ([hist],
    [recorded_cnt_], [evictable_]), the two queues as [std::list], and the
    maps [new_locate_] and [cache_locate_] from a frame id to the iterator
    of its node in a queue. *)

Abbreviation frame_id_t := Z (only parsing).  (* a signed 32-bit integer *)

Definition size_t_incr (x : Z) : Z := (x + 1) mod 2 ^ 64.
Definition size_t_decr (x : Z) : Z := (x - 1) mod 2 ^ 64.

(** [static_cast<frame_id_t>(x)] of a [size_t]. *)
Definition to_frame_id (x : Z) : frame_id_t :=
  (x + 2 ^ 31) mod 2 ^ 32 - 2 ^ 31.

(** [using k_time = std::pair<frame_id_t, size_t>]. *)
Abbreviation k_time := (frame_id_t * Z)%type (only parsing).

(** A map read with [operator[]] is a total function: a key never written
    reads as the value-initialised default, and the entry that such a read
    creates cannot be told from an absent one. *)
Definition upd {A : Type} (m : frame_id_t -> A) (f : frame_id_t) (v : A)
  : frame_id_t -> A :=
  fun g => if g =? f then v else m g.

Record Replacer : Type := mkReplacer {
  replacer_size_ : Z;
  k_ : Z;
  max_size_ : Z;
  curr_size_ : Z;
  current_timestamp_ : Z;
  hist : frame_id_t -> list Z;
  recorded_cnt_ : frame_id_t -> Z;
  evictable_ : frame_id_t -> bool;
  new_frame_ : list frame_id_t;
  cache_frame_ : list k_time;
  latch_ : bool                         (* [true]: the mutex is held *)
}.

Definition set_latch (st : Replacer) (b : bool) : Replacer :=
  mkReplacer (replacer_size_ st) (k_ st) (max_size_ st) (curr_size_ st)
    (current_timestamp_ st) (hist st) (recorded_cnt_ st) (evictable_ st)
    (new_frame_ st) (cache_frame_ st) b.

Definition set_sizes (st : Replacer) (max_size curr_size : Z) : Replacer :=
  mkReplacer (replacer_size_ st) (k_ st) max_size curr_size
    (current_timestamp_ st) (hist st) (recorded_cnt_ st) (evictable_ st)
    (new_frame_ st) (cache_frame_ st) (latch_ st).

Definition set_current_timestamp (st : Replacer) (ts : Z) : Replacer :=
  mkReplacer (replacer_size_ st) (k_ st) (max_size_ st) (curr_size_ st)
    ts (hist st) (recorded_cnt_ st) (evictable_ st)
    (new_frame_ st) (cache_frame_ st) (latch_ st).

Definition set_hist (st : Replacer) (f : frame_id_t) (h : list Z) : Replacer :=
  mkReplacer (replacer_size_ st) (k_ st) (max_size_ st) (curr_size_ st)
    (current_timestamp_ st) (upd (hist st) f h) (recorded_cnt_ st)
    (evictable_ st) (new_frame_ st) (cache_frame_ st) (latch_ st).

Definition set_recorded_cnt (st : Replacer) (f : frame_id_t) (c : Z) : Replacer :=
  mkReplacer (replacer_size_ st) (k_ st) (max_size_ st) (curr_size_ st)
    (current_timestamp_ st) (hist st) (upd (recorded_cnt_ st) f c)
    (evictable_ st) (new_frame_ st) (cache_frame_ st) (latch_ st).

Definition set_evictable (st : Replacer) (f : frame_id_t) (b : bool) : Replacer :=
  mkReplacer (replacer_size_ st) (k_ st) (max_size_ st) (curr_size_ st)
    (current_timestamp_ st) (hist st) (recorded_cnt_ st)
    (upd (evictable_ st) f b) (new_frame_ st) (cache_frame_ st) (latch_ st).

Definition set_new_frame (st : Replacer) (q : list frame_id_t) : Replacer :=
  mkReplacer (replacer_size_ st) (k_ st) (max_size_ st) (curr_size_ st)
    (current_timestamp_ st) (hist st) (recorded_cnt_ st) (evictable_ st)
    q (cache_frame_ st) (latch_ st).

Definition set_cache_frame (st : Replacer) (q : list k_time) : Replacer :=
  mkReplacer (replacer_size_ st) (k_ st) (max_size_ st) (curr_size_ st)
    (current_timestamp_ st) (hist st) (recorded_cnt_ st) (evictable_ st)
    (new_frame_ st) q (latch_ st).

(** Constructor: [curr_size_] and [current_timestamp_] start at 0. *)
Definition new_replacer (num_frames k : Z) : Replacer :=
  mkReplacer num_frames k num_frames 0 0
    (fun _ => []) (fun _ => 0) (fun _ => false) [] [] false.

(** *** Results of a call *)

Inductive result (A : Type) : Type :=
| Ok (st : Replacer) (a : A)
| Throw (st : Replacer)          (* [throw std::exception()] *)
| Deadlock.                      (* the call never returns *)
Arguments Ok {A} st a.
Arguments Throw {A} st.
Arguments Deadlock {A}.

Definition bind {A B : Type} (r : result A) (k : Replacer -> A -> result B)
  : result B :=
  match r with
  | Ok st a => k st a
  | Throw st => Throw st
  | Deadlock => Deadlock
  end.

(** [std::lock_guard<std::mutex> lock(latch_)] around a body.  The mutex
    is not recursive: taking it while it is held never returns.  It is
    released when the body returns or throws. *)
Definition lock_guard {A : Type} (st : Replacer)
    (body : Replacer -> result A) : result A :=
  if latch_ st then Deadlock
  else match body (set_latch st true) with
       | Ok st' a => Ok (set_latch st' false) a
       | Throw st' => Throw (set_latch st' false)
       | Deadlock => Deadlock
       end.

(** *** Queues *)

(** [q.erase(it)] for the iterator [it] of the first node that satisfies
    [p]. *)
Fixpoint erase_first {A : Type} (p : A -> bool) (q : list A) : list A :=
  match q with
  | [] => []
  | x :: r => if p x then r else x :: erase_first p r
  end.

(** [new_frame_.erase(new_locate_[frame_id])]: the node of the frame. *)
Definition erase_new (q : list frame_id_t) (f : frame_id_t) : list frame_id_t :=
  erase_first (fun g => g =? f) q.

(** [cache_frame_.erase(cache_locate_[frame_id])]: the node of the frame. *)
Definition erase_cache (q : list k_time) (f : frame_id_t) : list k_time :=
  erase_first (fun e => fst e =? f) q.

(** [new_frame_.remove(frame)]: every node equal to [frame]. *)
Definition list_remove (q : list frame_id_t) (f : frame_id_t) : list frame_id_t :=
  filter (fun g => negb (g =? f)) q.

Definition CmpTimestamp (f1 f2 : k_time) : bool := snd f1 <? snd f2.

(** [cache_frame_.insert(std::upper_bound(begin, end, x, CmpTimestamp), x)]:
    before the first node [y] with [CmpTimestamp(x, y)]. *)
Fixpoint insert_upper_bound (q : list k_time) (x : k_time) : list k_time :=
  match q with
  | [] => [x]
  | y :: r => if CmpTimestamp x y then x :: y :: r
              else y :: insert_upper_bound r x
  end.

(** *** Member functions *)

Definition Size (st : Replacer) : Z := curr_size_ st.

(** The statements of [Evict] once a victim [frame] is found. *)
Definition reset_frame (st : Replacer) (frame : frame_id_t) : Replacer :=
  let st := set_recorded_cnt st frame 0 in
  let st := set_sizes st (max_size_ st) (size_t_decr (curr_size_ st)) in
  set_hist st frame [].

Definition Evict (st : Replacer) : result (option frame_id_t) :=
  lock_guard st (fun st =>
    if Size st =? 0 then Ok st None
    else
      match find (evictable_ st) (rev (new_frame_ st)) with
      | Some frame =>
          let st := set_new_frame st (list_remove (new_frame_ st) frame) in
          Ok (reset_frame st frame) (Some frame)
      | None =>
          match find (fun e => evictable_ st (fst e)) (cache_frame_ st) with
          | Some e =>
              let frame := fst e in
              let st := set_cache_frame st
                (erase_first (fun e => evictable_ st (fst e)) (cache_frame_ st)) in
              Ok (reset_frame st frame) (Some frame)
          | None => Ok st None
          end
      end).

Definition RecordAccess (st : Replacer) (frame_id : frame_id_t) : result unit :=
  lock_guard st (fun st =>
    if frame_id >? to_frame_id (replacer_size_ st) then Throw st
    else
      let st := set_current_timestamp st (size_t_incr (current_timestamp_ st)) in
      let st := set_recorded_cnt st frame_id
                  (size_t_incr (recorded_cnt_ st frame_id)) in
      let cnt := recorded_cnt_ st frame_id in
      let st := set_hist st frame_id
                  (hist st frame_id ++ [current_timestamp_ st]) in
      bind
        (if cnt =? 1 then
           bind (if curr_size_ st =? max_size_ st
                 then bind (Evict st) (fun st _ => Ok st tt)
                 else Ok st tt)
             (fun st _ =>
                let st := set_evictable st frame_id true in
                let st := set_sizes st (max_size_ st)
                                    (size_t_incr (curr_size_ st)) in
                Ok (set_new_frame st (frame_id :: new_frame_ st)) tt)
         else Ok st tt)
        (fun st _ =>
           if cnt =? k_ st then
             let st := set_new_frame st (erase_new (new_frame_ st) frame_id) in
             let kth_time := hd 0 (hist st frame_id) in
             Ok (set_cache_frame st
                   (insert_upper_bound (cache_frame_ st) (frame_id, kth_time))) tt
           else if cnt >? k_ st then
             let st := set_hist st frame_id (tl (hist st frame_id)) in
             let st := set_cache_frame st
                         (erase_cache (cache_frame_ st) frame_id) in
             let kth_time := hd 0 (hist st frame_id) in
             Ok (set_cache_frame st
                   (insert_upper_bound (cache_frame_ st) (frame_id, kth_time))) tt
           else Ok st tt)).

Definition SetEvictable (st : Replacer) (frame_id : frame_id_t)
    (set_evictable_ : bool) : result unit :=
  lock_guard st (fun st =>
    if recorded_cnt_ st frame_id =? 0 then Ok st tt
    else
      let status := evictable_ st frame_id in
      let st := set_evictable st frame_id set_evictable_ in
      let st := if status && negb set_evictable_
                then set_sizes st (size_t_decr (max_size_ st))
                                  (size_t_decr (curr_size_ st))
                else st in
      let st := if negb status && set_evictable_
                then set_sizes st (size_t_incr (max_size_ st))
                                  (size_t_incr (curr_size_ st))
                else st in
      Ok st tt).

Definition Remove (st : Replacer) (frame_id : frame_id_t) : result unit :=
  lock_guard st (fun st =>
    if frame_id >? to_frame_id (replacer_size_ st) then Throw st
    else
      let cnt := recorded_cnt_ st frame_id in
      if cnt =? 0 then Ok st tt
      else if negb (evictable_ st frame_id) then Throw st
      else if cnt <? k_ st then
        let st := set_new_frame st (erase_new (new_frame_ st) frame_id) in
        Ok (reset_frame st frame_id) tt
      else
        let st := set_cache_frame st (erase_cache (cache_frame_ st) frame_id) in
        Ok (reset_frame st frame_id) tt).

(** *** Runs of public operations *)

Inductive op : Type :=
| OpRecordAccess (frame_id : frame_id_t)
| OpEvict
| OpSetEvictable (frame_id : frame_id_t) (set_evictable_ : bool)
| OpRemove (frame_id : frame_id_t)
| OpSize.

(** The replacer after a call; [None] when the call never returns.  An
    exception is caught by the caller, who goes on with the object. *)
Definition after {A : Type} (r : result A) : option Replacer :=
  match r with
  | Ok st _ => Some st
  | Throw st => Some st
  | Deadlock => None
  end.

Definition exec (st : Replacer) (o : op) : option Replacer :=
  match o with
  | OpRecordAccess f => after (RecordAccess st f)
  | OpEvict => after (Evict st)
  | OpSetEvictable f b => after (SetEvictable st f b)
  | OpRemove f => after (Remove st f)
  | OpSize => Some st
  end.

Fixpoint run (ops : list op) (st : Replacer) : option Replacer :=
  match ops with
  | [] => Some st
  | o :: r => match exec st o with Some st' => run r st' | None => None end
  end.

(** The frame a call of [Evict] hands back. *)
Definition victim (r : result (option frame_id_t)) : option frame_id_t :=
  match r with Ok _ v => v | _ => None end.

(** *** Lemmas on the queue primitives *)

Lemma erase_first_In {A : Type} (p : A -> bool) (q : list A) (x : A) :
  In x (erase_first p q) -> In x q.
Proof.
  induction q as [|y r IH]; simpl; [tauto|].
  destruct (p y); simpl; tauto.
Qed.

Lemma erase_first_length {A : Type} (p : A -> bool) (q : list A) :
  (length (erase_first p q) <= length q)%nat.
Proof.
  induction q as [|y r IH]; simpl; [lia|]. destruct (p y); simpl; lia.
Qed.

Lemma erase_first_map {A B : Type} (g : A -> B) (p : B -> bool) (q : list A) :
  map g (erase_first (fun x => p (g x)) q) = erase_first p (map g q).
Proof.
  induction q as [|y r IH]; simpl; [reflexivity|].
  destruct (p (g y)); simpl; [reflexivity|]. now rewrite IH.
Qed.

Lemma erase_cache_fst q f : map fst (erase_cache q f) = erase_new (map fst q) f.
Proof. unfold erase_cache, erase_new. apply (erase_first_map fst (fun g => g =? f)). Qed.

Lemma erase_new_notin q f : ~ In f q -> erase_new q f = q.
Proof.
  unfold erase_new. induction q as [|y r IH]; simpl; intros H; [reflexivity|].
  destruct (Z.eqb_spec y f); [tauto|]. f_equal. apply IH. tauto.
Qed.

Lemma erase_new_In q f g :
  NoDup q -> (In g (erase_new q f) <-> In g q /\ g <> f).
Proof.
  unfold erase_new. induction q as [|y r IH]; simpl; intros Hnd; [tauto|].
  inversion Hnd as [|? ? Hy Hr]; subst.
  destruct (Z.eqb_spec y f) as [->|Hne].
  - split; [intros H; split; [tauto|intros ->; tauto]|intros [[H|H] Hg]; congruence].
  - simpl. rewrite (IH Hr). split; [intros [->|[H1 H2]]; tauto|tauto].
Qed.

Lemma erase_first_NoDup {A : Type} (p : A -> bool) (q : list A) :
  NoDup q -> NoDup (erase_first p q).
Proof.
  induction q as [|y r IH]; simpl; intros Hnd; [constructor|].
  inversion Hnd as [|? ? Hy Hr]; subst.
  destruct (p y); [assumption|]. constructor; [|auto].
  intros H. apply Hy. eapply erase_first_In; eauto.
Qed.

Lemma erase_new_NoDup q f : NoDup q -> NoDup (erase_new q f).
Proof. apply erase_first_NoDup. Qed.

Lemma list_remove_notin q f : ~ In f q -> list_remove q f = q.
Proof.
  unfold list_remove. induction q as [|y r IH]; simpl; intros H; [reflexivity|].
  destruct (Z.eqb_spec y f); [tauto|]. simpl. f_equal. apply IH. tauto.
Qed.

Lemma list_remove_erase_new q f : NoDup q -> list_remove q f = erase_new q f.
Proof.
  induction q as [|y r IH]; simpl; intros Hnd; [reflexivity|].
  inversion Hnd as [|? ? Hy Hr]; subst.
  unfold list_remove, erase_new in *. simpl.
  destruct (Z.eqb_spec y f) as [->|Hne]; simpl.
  - now apply list_remove_notin.
  - f_equal. auto.
Qed.

(** With distinct frames in the queue, the node found by a scan is the
    node of its frame. *)
Lemma erase_first_found (p : frame_id_t -> bool) (q : list k_time) e :
  NoDup (map fst q) ->
  find (fun e => p (fst e)) q = Some e ->
  erase_first (fun e => p (fst e)) q = erase_cache q (fst e).
Proof.
  unfold erase_cache. induction q as [|y r IH]; simpl; intros Hnd H; [discriminate|].
  inversion Hnd as [|? ? Hy Hr]; subst.
  destruct (p (fst y)) eqn:Hp.
  - injection H as <-. now rewrite Z.eqb_refl.
  - destruct (Z.eqb_spec (fst y) (fst e)) as [E|E].
    + exfalso. apply Hy. rewrite E. apply in_map. eapply find_some; eauto.
    + f_equal. auto.
Qed.

Lemma erase_first_Sorted {A : Type} (R : A -> A -> Prop) p (q : list A) :
  StronglySorted R q -> StronglySorted R (erase_first p q).
Proof.
  induction q as [|y r IH]; simpl; intros H; [constructor|].
  inversion H as [|? ? Hr Hy]; subst.
  destruct (p y); [assumption|]. constructor; [auto|].
  rewrite Forall_forall in *. intros x Hx. apply Hy. eapply erase_first_In; eauto.
Qed.

Lemma insert_upper_bound_In q x y :
  In y (insert_upper_bound q x) <-> y = x \/ In y q.
Proof.
  induction q as [|z r IH]; simpl; [intuition congruence|].
  destruct (CmpTimestamp x z); simpl; [intuition congruence|].
  rewrite IH. intuition congruence.
Qed.

Lemma insert_upper_bound_length q x :
  length (insert_upper_bound q x) = S (length q).
Proof.
  induction q as [|z r IH]; simpl; [reflexivity|].
  destruct (CmpTimestamp x z); simpl; [reflexivity|]. now rewrite IH.
Qed.

Lemma insert_upper_bound_NoDup q x :
  NoDup (map fst q) -> ~ In (fst x) (map fst q) ->
  NoDup (map fst (insert_upper_bound q x)).
Proof.
  induction q as [|z r IH]; simpl; intros Hnd Hx.
  - constructor; [tauto|constructor].
  - inversion Hnd as [|? ? Hz Hr]; subst.
    destruct (CmpTimestamp x z); simpl.
    + constructor; [simpl; tauto|assumption].
    + constructor; [|apply IH; tauto].
      rewrite in_map_iff. intros (y & Hy1 & Hy2).
      apply insert_upper_bound_In in Hy2. destruct Hy2 as [->|Hy2].
      * apply Hx. left. congruence.
      * apply Hz. rewrite <- Hy1. now apply in_map.
Qed.

Definition time_lt (a b : k_time) : Prop := snd a < snd b.

Lemma insert_upper_bound_Sorted q x :
  StronglySorted time_lt q -> (forall y, In y q -> snd y <> snd x) ->
  StronglySorted time_lt (insert_upper_bound q x).
Proof.
  induction q as [|z r IH]; simpl; intros H Hne.
  - repeat constructor.
  - inversion H as [|? ? Hr Hz]; subst.
    assert (Hzx : snd z <> snd x) by (apply Hne; now left).
    unfold CmpTimestamp. destruct (Z.ltb_spec (snd x) (snd z)) as [L|L].
    + constructor; [assumption|]. constructor; [exact L|].
      rewrite Forall_forall in *. intros y Hy. specialize (Hz y Hy).
      unfold time_lt in *. lia.
    + constructor; [apply IH; auto|]. rewrite Forall_forall in *. intros y Hy.
      apply insert_upper_bound_In in Hy. destruct Hy as [->|Hy]; [|auto].
      unfold time_lt. lia.
Qed.

(** *** Counting evictable frames of a queue *)

Definition count (ev : frame_id_t -> bool) (q : list frame_id_t) : Z :=
  Z.of_nat (length (filter ev q)).

Lemma count_nonneg ev q : 0 <= count ev q.
Proof. unfold count. lia. Qed.

Lemma count_le_length ev q : count ev q <= Z.of_nat (length q).
Proof. unfold count. pose proof (filter_length_le ev q). lia. Qed.

Lemma count_cons ev f q :
  count ev (f :: q) = (if ev f then 1 else 0) + count ev q.
Proof.
  unfold count. simpl filter. destruct (ev f); [|lia].
  simpl length. rewrite Nat2Z.inj_succ. lia.
Qed.

Lemma count_ext ev ev' q :
  (forall g, In g q -> ev g = ev' g) -> count ev q = count ev' q.
Proof. intros H. unfold count. now rewrite (filter_ext_in _ _ _ H). Qed.

Lemma count_upd_notin ev f b q :
  ~ In f q -> count (upd ev f b) q = count ev q.
Proof.
  intros H. apply count_ext. intros g Hg. unfold upd.
  destruct (Z.eqb_spec g f); [subst; tauto|reflexivity].
Qed.

Lemma count_upd_in ev f b q :
  NoDup q -> In f q ->
  count (upd ev f b) q =
  count ev q - (if ev f then 1 else 0) + (if b then 1 else 0).
Proof.
  induction q as [|y r IH]; simpl; intros Hnd Hin; [tauto|].
  inversion Hnd as [|? ? Hy Hr]; subst. rewrite !count_cons.
  destruct Hin as [->|Hin].
  - rewrite count_upd_notin by assumption. unfold upd. rewrite Z.eqb_refl. lia.
  - rewrite IH by assumption. unfold upd at 1.
    destruct (Z.eqb_spec y f); [subst; tauto|]. lia.
Qed.

Lemma count_erase ev f q :
  NoDup q -> In f q ->
  count ev (erase_new q f) = count ev q - (if ev f then 1 else 0).
Proof.
  unfold erase_new. induction q as [|y r IH]; simpl; intros Hnd Hin; [tauto|].
  inversion Hnd as [|? ? Hy Hr]; subst. rewrite count_cons.
  destruct (Z.eqb_spec y f) as [->|Hne]; [lia|].
  rewrite count_cons, IH; [lia|assumption|]. destruct Hin; [contradiction|assumption].
Qed.

Lemma count_zero ev q g : count ev q = 0 -> In g q -> ev g = false.
Proof.
  unfold count. intros H Hg. destruct (ev g) eqn:E; [|reflexivity].
  assert (In g (filter ev q)) as Hin by (apply filter_In; auto).
  destruct (filter ev q); [contradiction|simpl in H; lia].
Qed.

Lemma count_pos ev q g : In g q -> ev g = true -> 1 <= count ev q.
Proof.
  intros Hg E. unfold count.
  assert (In g (filter ev q)) as Hin by (apply filter_In; auto).
  destruct (filter ev q); [contradiction|simpl; lia].
Qed.

Lemma count_insert ev q x :
  count ev (map fst (insert_upper_bound q x)) =
  (if ev (fst x) then 1 else 0) + count ev (map fst q).
Proof.
  induction q as [|z r IH]; simpl.
  - now rewrite count_cons.
  - destruct (CmpTimestamp x z); simpl.
    + now rewrite (count_cons ev (fst x)).
    + rewrite !count_cons, IH. lia.
Qed.

(** *** Scans *)

Lemma find_split {A : Type} (p : A -> bool) (q : list A) x :
  find p q = Some x ->
  exists q1 q2, q = q1 ++ x :: q2 /\ p x = true /\
                forall y, In y q1 -> p y = false.
Proof.
  induction q as [|y r IH]; simpl; intros H; [discriminate|].
  destruct (p y) eqn:E.
  - injection H as <-. exists [], r. simpl. tauto.
  - destruct (IH H) as (q1 & q2 & -> & Hx & Hq1).
    exists (y :: q1), q2. simpl. repeat split; auto.
    intros z [<-|Hz]; auto.
Qed.

Lemma find_none_iff {A : Type} (p : A -> bool) (q : list A) :
  find p q = None -> forall y, In y q -> p y = false.
Proof. intros H y Hy. eapply find_none; eauto. Qed.

Lemma find_rev_split {A : Type} (p : A -> bool) (q : list A) x :
  find p (rev q) = Some x ->
  exists q1 q2, q = q1 ++ x :: q2 /\ p x = true /\
                forall y, In y q2 -> p y = false.
Proof.
  intros H. destruct (find_split p (rev q) x H) as (r1 & r2 & E & Hx & Hr1).
  exists (rev r2), (rev r1). repeat split; auto.
  - rewrite <- (rev_involutive q), E, rev_app_distr. simpl.
    now rewrite <- app_assoc.
  - intros y Hy. apply Hr1. now apply in_rev.
Qed.

(** *** The calls without the lock

    On a replacer whose mutex is free, each member function is its body;
    the only call that is made while the mutex is held is the [Evict] of
    [RecordAccess]. *)

Definition drop_new (st : Replacer) (f : frame_id_t) : Replacer :=
  reset_frame (set_new_frame st (erase_new (new_frame_ st) f)) f.

Definition drop_cache (st : Replacer) (f : frame_id_t) : Replacer :=
  reset_frame (set_cache_frame st (erase_cache (cache_frame_ st) f)) f.

Definition touch (st : Replacer) (f : frame_id_t) : Replacer :=
  let ts := size_t_incr (current_timestamp_ st) in
  set_hist
    (set_recorded_cnt (set_current_timestamp st ts) f
                      (size_t_incr (recorded_cnt_ st f)))
    f (hist st f ++ [ts]).

Definition enter (st : Replacer) (f : frame_id_t) : Replacer :=
  set_new_frame
    (set_sizes (set_evictable st f true) (max_size_ st)
               (size_t_incr (curr_size_ st)))
    (f :: new_frame_ st).

Definition promote (st : Replacer) (f : frame_id_t) (cnt : Z) : Replacer :=
  if cnt =? k_ st then
    set_cache_frame (set_new_frame st (erase_new (new_frame_ st) f))
      (insert_upper_bound (cache_frame_ st) (f, hd 0 (hist st f)))
  else if cnt >? k_ st then
    set_cache_frame (set_hist st f (tl (hist st f)))
      (insert_upper_bound (erase_cache (cache_frame_ st) f)
                          (f, hd 0 (tl (hist st f))))
  else st.

Definition toggle (st : Replacer) (f : frame_id_t) (b : bool) : Replacer :=
  let status := evictable_ st f in
  let st := set_evictable st f b in
  let st := if status && negb b
            then set_sizes st (size_t_decr (max_size_ st))
                              (size_t_decr (curr_size_ st))
            else st in
  if negb status && b
  then set_sizes st (size_t_incr (max_size_ st)) (size_t_incr (curr_size_ st))
  else st.

Lemma upd_same {A : Type} (m : Z -> A) f v : upd m f v f = v.
Proof. unfold upd. now rewrite Z.eqb_refl. Qed.

Lemma upd_other {A : Type} (m : Z -> A) f v g : g <> f -> upd m f v g = m g.
Proof. unfold upd. intros H. destruct (Z.eqb_spec g f); [contradiction|reflexivity]. Qed.

Lemma Evict_eq st :
  latch_ st = false ->
  Evict st =
  if Size st =? 0 then Ok st None
  else match find (evictable_ st) (rev (new_frame_ st)) with
       | Some frame =>
           Ok (reset_frame
                 (set_new_frame st (list_remove (new_frame_ st) frame)) frame)
              (Some frame)
       | None =>
           match find (fun e => evictable_ st (fst e)) (cache_frame_ st) with
           | Some e =>
               Ok (reset_frame
                     (set_cache_frame st
                        (erase_first (fun e => evictable_ st (fst e))
                                     (cache_frame_ st))) (fst e))
                  (Some (fst e))
           | None => Ok st None
           end
       end.
Proof.
  destruct st as [n k mx cur ts h c ev nq cq l]. simpl. intros ->.
  unfold Evict, lock_guard, Size. simpl.
  destruct (cur =? 0); [reflexivity|].
  destruct (find ev (rev nq)); [reflexivity|].
  destruct (find _ cq); reflexivity.
Qed.

Lemma Evict_locked {st} : latch_ st = true -> Evict st = Deadlock.
Proof. intros H. unfold Evict, lock_guard. now rewrite H. Qed.

Lemma RecordAccess_eq st f :
  latch_ st = false ->
  RecordAccess st f =
  if f >? to_frame_id (replacer_size_ st) then Throw st
  else
    let st1 := touch st f in
    let cnt := recorded_cnt_ st1 f in
    if cnt =? 1 then
      if curr_size_ st =? max_size_ st then Deadlock
      else Ok (promote (enter st1 f) f cnt) tt
    else Ok (promote st1 f cnt) tt.
Proof.
  destruct st as [n k mx cur ts h c ev nq cq l]. simpl. intros ->.
  unfold RecordAccess, lock_guard. simpl.
  destruct (f >? to_frame_id n); [reflexivity|].
  rewrite !upd_same.
  destruct (size_t_incr (c f) =? 1) eqn:E1.
  - destruct (cur =? mx); [reflexivity|]. simpl.
    unfold promote. simpl. rewrite !upd_same.
    destruct (size_t_incr (c f) =? k); [reflexivity|].
    destruct (size_t_incr (c f) >? k); reflexivity.
  - simpl. unfold promote. simpl. rewrite !upd_same.
    destruct (size_t_incr (c f) =? k); [reflexivity|].
    destruct (size_t_incr (c f) >? k); reflexivity.
Qed.

Lemma SetEvictable_eq st f b :
  latch_ st = false ->
  SetEvictable st f b =
  if recorded_cnt_ st f =? 0 then Ok st tt else Ok (toggle st f b) tt.
Proof.
  destruct st as [n k mx cur ts h c ev nq cq l]. simpl. intros ->.
  unfold SetEvictable, lock_guard, toggle. simpl.
  destruct (c f =? 0); [reflexivity|].
  destruct (ev f), b; reflexivity.
Qed.

Lemma Remove_eq st f :
  latch_ st = false ->
  Remove st f =
  if f >? to_frame_id (replacer_size_ st) then Throw st
  else if recorded_cnt_ st f =? 0 then Ok st tt
  else if negb (evictable_ st f) then Throw st
  else if recorded_cnt_ st f <? k_ st then Ok (drop_new st f) tt
  else Ok (drop_cache st f) tt.
Proof.
  destruct st as [n k mx cur ts h c ev nq cq l]. simpl. intros ->.
  unfold Remove, lock_guard. simpl.
  destruct (f >? to_frame_id n); [reflexivity|].
  destruct (c f =? 0); [reflexivity|].
  destruct (ev f); simpl; [|reflexivity].
  destruct (c f <? k); reflexivity.
Qed.

(** *** Invariant of the replacer *)

(** [hist[f].front()]: the oldest access the replacer remembers for [f]. *)
Definition oldest (st : Replacer) (f : frame_id_t) : Z := hd 0 (hist st f).

Record Inv (st : Replacer) : Prop := mkInv {
  inv_k : 1 <= k_ st < 2 ^ 64;
  inv_ts : 0 <= current_timestamp_ st < 2 ^ 64;
  inv_cnt : forall f, 0 <= recorded_cnt_ st f <= current_timestamp_ st;
  inv_new : forall f, In f (new_frame_ st) <-> 0 < recorded_cnt_ st f < k_ st;
  inv_cache : forall f,
    In f (map fst (cache_frame_ st)) <-> k_ st <= recorded_cnt_ st f;
  inv_new_nodup : NoDup (new_frame_ st);
  inv_cache_nodup : NoDup (map fst (cache_frame_ st));
  inv_hist_len : forall f,
    Z.of_nat (length (hist st f)) = Z.min (recorded_cnt_ st f) (k_ st);
  inv_hist_bound : forall f t,
    In t (hist st f) -> t <= current_timestamp_ st;
  inv_hist_owner : forall f g t,
    In t (hist st f) -> In t (hist st g) -> f = g;
  inv_new_sorted : StronglySorted Z.gt (map (oldest st) (new_frame_ st));
  inv_cache_sorted : StronglySorted time_lt (cache_frame_ st);
  inv_cache_time : forall e,
    In e (cache_frame_ st) -> snd e = oldest st (fst e);
  inv_curr :
    curr_size_ st = count (evictable_ st) (new_frame_ st)
                    + count (evictable_ st) (map fst (cache_frame_ st));
  inv_len :
    Z.of_nat (length (new_frame_ st)) + Z.of_nat (length (cache_frame_ st))
    <= current_timestamp_ st;
  inv_range : forall f,
    recorded_cnt_ st f <> 0 -> f <= to_frame_id (replacer_size_ st)
}.

Lemma size_t_incr_small x : 0 <= x < 2 ^ 64 - 1 -> size_t_incr x = x + 1.
Proof. intros H. unfold size_t_incr. apply Z.mod_small. lia. Qed.

Lemma size_t_decr_small x : 1 <= x < 2 ^ 64 -> size_t_decr x = x - 1.
Proof. intros H. unfold size_t_decr. apply Z.mod_small. lia. Qed.

Lemma new_replacer_Inv num_frames k :
  1 <= k < 2 ^ 64 -> Inv (new_replacer num_frames k).
Proof.
  intros Hk. constructor; simpl; try lia; try tauto; try constructor;
    intros f; lia.
Qed.

Lemma map_erase_first_Sorted {A B : Type} (R : B -> B -> Prop) (g : A -> B)
    (p : A -> bool) (q : list A) :
  StronglySorted R (map g q) -> StronglySorted R (map g (erase_first p q)).
Proof.
  induction q as [|y r IH]; simpl; intros H; [constructor|].
  inversion H as [|? ? Hr Hy]; subst.
  destruct (p y); [assumption|]. simpl. constructor; [auto|].
  rewrite Forall_forall in *. intros x Hx. apply Hy.
  apply in_map_iff in Hx. destruct Hx as (z & <- & Hz).
  apply in_map. eapply erase_first_In; eauto.
Qed.

Lemma erase_cache_In q f e :
  NoDup (map fst q) -> In e (erase_cache q f) -> In e q /\ fst e <> f.
Proof.
  intros Hnd He. split; [eapply erase_first_In; eauto|].
  apply (in_map fst) in He. rewrite erase_cache_fst in He.
  apply erase_new_In in He; tauto.
Qed.

Lemma hd_In (l : list Z) : l <> [] -> In (hd 0 l) l.
Proof. destruct l; [congruence|now left]. Qed.

(** Timestamps are handed out once: replacing the history of [f] by
    stamps it already had, or by younger ones than any stamp so far, keeps
    the histories of different frames apart. *)
Lemma owner_upd (h : Z -> list Z) f l b :
  (forall f1 f2 t, In t (h f1) -> In t (h f2) -> f1 = f2) ->
  (forall g t, In t (h g) -> t <= b) ->
  (forall t, In t l -> In t (h f) \/ b < t) ->
  forall f1 f2 t, In t (upd h f l f1) -> In t (upd h f l f2) -> f1 = f2.
Proof.
  intros Hown Hb Hl f1 f2 t. unfold upd.
  destruct (Z.eqb_spec f1 f) as [->|N1], (Z.eqb_spec f2 f) as [->|N2];
    intros H1 H2; eauto.
  - destruct (Hl t H1) as [H|H]; [eauto|]. specialize (Hb f2 t H2). lia.
  - destruct (Hl t H2) as [H|H]; [eauto|]. specialize (Hb f1 t H1). lia.
Qed.

Lemma hd_bound (l : list Z) b :
  0 <= b -> (forall t, In t l -> t <= b) -> hd 0 l <= b.
Proof. destruct l; simpl; intros H0 H; [lia|]. apply H. now left. Qed.

#[local] Arguments Z.pow : simpl never.
#[local] Arguments Z.of_nat : simpl never.
#[local] Arguments Z.add : simpl never.
#[local] Arguments Z.sub : simpl never.

Ltac inv_open H :=
  destruct H as [Hk Hts Hcnt Hnew Hcache Hnd1 Hnd2 Hlen Hbound Hown Hs1 Hs2
                 Htime Hcurr Hqlen Hrange];
  unfold oldest in *; simpl in *.

Ltac upd_cases g f :=
  unfold upd; destruct (Z.eqb_spec g f) as [->|?].

Lemma set_latch_Inv st b : Inv st -> Inv (set_latch st b).
Proof. intros H. destruct H. constructor; assumption. Qed.

Lemma drop_new_Inv st f :
  Inv st -> In f (new_frame_ st) -> evictable_ st f = true ->
  Inv (drop_new st f).
Proof.
  destruct st as [n k mx cur ts h c ev nq cq l]. intros H Hin Hev.
  inv_open H. unfold drop_new, reset_frame.
  assert (Hf : 0 < c f < k) by now apply Hnew.
  assert (Hnc : ~ In f (map fst cq)) by (rewrite Hcache; lia).
  pose proof (count_pos ev nq f Hin Hev) as Hpos.
  pose proof (count_nonneg ev (map fst cq)) as Hc0.
  pose proof (count_le_length ev nq) as Hc1.
  pose proof (count_le_length ev (map fst cq)) as Hc2.
  rewrite length_map in Hc2.
  constructor; unfold oldest; simpl; try assumption.
  - intros g. upd_cases g f; [lia|apply Hcnt].
  - intros g. rewrite erase_new_In by assumption. rewrite Hnew.
    upd_cases g f; [lia|tauto].
  - intros g. rewrite Hcache. upd_cases g f; [lia|tauto].
  - now apply erase_new_NoDup.
  - intros g. upd_cases g f; [simpl; lia|apply Hlen].
  - intros g t. upd_cases g f; [simpl; tauto|apply Hbound].
  - apply (owner_upd h f [] ts); auto. simpl. tauto.
  - rewrite (map_ext_in _ (fun g => hd 0 (h g))).
    + now apply map_erase_first_Sorted.
    + intros g Hg. apply erase_new_In in Hg; [|assumption].
      now rewrite upd_other.
  - intros e He. rewrite upd_other; [now apply Htime|].
    intros E. apply Hnc. rewrite <- E. now apply in_map.
  - rewrite size_t_decr_small by lia.
    rewrite count_erase by assumption. rewrite Hev. lia.
  - pose proof (erase_first_length (fun g => g =? f) nq). unfold erase_new. lia.
  - intros g. upd_cases g f; [lia|apply Hrange].
Qed.

Lemma drop_cache_Inv st f :
  Inv st -> In f (map fst (cache_frame_ st)) -> evictable_ st f = true ->
  Inv (drop_cache st f).
Proof.
  destruct st as [n k mx cur ts h c ev nq cq l]. intros H Hin Hev.
  inv_open H. unfold drop_cache, reset_frame.
  assert (Hf : k <= c f) by now apply Hcache.
  assert (Hnc : ~ In f nq) by (rewrite Hnew; lia).
  pose proof (count_pos ev _ f Hin Hev) as Hpos.
  pose proof (count_nonneg ev nq) as Hc0.
  pose proof (count_le_length ev nq) as Hc1.
  pose proof (count_le_length ev (map fst cq)) as Hc2.
  rewrite length_map in Hc2.
  constructor; unfold oldest; simpl; try assumption.
  - intros g. upd_cases g f; [lia|apply Hcnt].
  - intros g. rewrite Hnew. upd_cases g f; [lia|tauto].
  - intros g. rewrite erase_cache_fst, erase_new_In by assumption.
    rewrite Hcache. upd_cases g f; [lia|tauto].
  - rewrite erase_cache_fst. now apply erase_new_NoDup.
  - intros g. upd_cases g f; [simpl; lia|apply Hlen].
  - intros g t. upd_cases g f; [simpl; tauto|apply Hbound].
  - apply (owner_upd h f [] ts); auto. simpl. tauto.
  - rewrite (map_ext_in _ (fun g => hd 0 (h g))); [assumption|].
    intros g Hg. rewrite upd_other; [reflexivity|]. intros ->. tauto.
  - now apply erase_first_Sorted.
  - intros e He. apply erase_cache_In in He; [|assumption].
    destruct He as [He Hne]. rewrite upd_other by assumption. now apply Htime.
  - rewrite size_t_decr_small by lia.
    rewrite erase_cache_fst, count_erase by assumption. rewrite Hev. lia.
  - pose proof (erase_first_length (fun e => fst e =? f) cq).
    unfold erase_cache. lia.
  - intros g. upd_cases g f; [lia|apply Hrange].
Qed.

Lemma toggle_Inv st f b :
  Inv st -> recorded_cnt_ st f <> 0 -> Inv (toggle st f b).
Proof.
  destruct st as [n k mx cur ts h c ev nq cq l]. intros H Hf.
  inv_open H. unfold toggle. simpl.
  pose proof (count_nonneg ev nq) as Hc0.
  pose proof (count_nonneg ev (map fst cq)) as Hc0'.
  pose proof (count_le_length (upd ev f b) nq) as Hc1.
  pose proof (count_le_length (upd ev f b) (map fst cq)) as Hc2.
  pose proof (count_nonneg (upd ev f b) nq) as Hc3.
  pose proof (count_nonneg (upd ev f b) (map fst cq)) as Hc4.
  pose proof (count_le_length ev nq) as Hc5.
  pose proof (count_le_length ev (map fst cq)) as Hc6.
  rewrite length_map in Hc6.
  rewrite length_map in Hc2.
  assert (Hcount :
    count (upd ev f b) nq + count (upd ev f b) (map fst cq) =
    count ev nq + count ev (map fst cq)
    - (if ev f then 1 else 0) + (if b then 1 else 0)).
  { pose proof (Hcnt f) as Hcf.
    destruct (Z.lt_ge_cases (c f) k) as [L|L].
    - rewrite (count_upd_in ev f b nq); [|assumption|apply Hnew; lia].
      rewrite (count_upd_notin ev f b (map fst cq)); [lia|rewrite Hcache; lia].
    - rewrite (count_upd_in ev f b (map fst cq)); [|assumption|apply Hcache; lia].
      rewrite (count_upd_notin ev f b nq); [lia|rewrite Hnew; lia]. }
  destruct (ev f) eqn:E, b; simpl;
    constructor; unfold oldest; simpl; try assumption.
  - lia.
  - rewrite size_t_decr_small by lia. lia.
  - rewrite size_t_incr_small by lia. lia.
  - lia.
Qed.

(** The replacer after a call of [RecordAccess] that returns. *)
Definition accessed (st : Replacer) (f : frame_id_t) : Replacer :=
  let st1 := touch st f in
  let cnt := recorded_cnt_ st1 f in
  if cnt =? 1 then promote (enter st1 f) f cnt else promote st1 f cnt.

Lemma hd_app_nonempty (l : list Z) x : l <> [] -> hd 0 (l ++ [x]) = hd 0 l.
Proof. destruct l; [congruence|reflexivity]. Qed.

Lemma length_tl_snoc (l : list Z) x : length (tl (l ++ [x])) = length l.
Proof. destruct l; simpl; [reflexivity|]. rewrite length_app. simpl. lia. Qed.

Lemma In_tl {A : Type} (l : list A) x : In x (tl l) -> In x l.
Proof. destruct l; simpl; tauto. Qed.

Lemma accessed_Inv st f :
  Inv st -> current_timestamp_ st < 2 ^ 64 - 1 ->
  f <= to_frame_id (replacer_size_ st) ->
  Inv (accessed st f).
Proof.
  destruct st as [n k mx cur ts h c ev nq cq l]. intros H Hsmall Hfr.
  inv_open H. unfold accessed, touch. simpl.
  pose proof (Hcnt f) as Hcf. pose proof (Hlen f) as Hlf.
  rewrite (size_t_incr_small ts) by lia.
  rewrite (size_t_incr_small (c f)) by lia.
  rewrite !upd_same.
  pose proof (count_nonneg ev nq) as Hc0.
  pose proof (count_nonneg ev (map fst cq)) as Hc0'.
  pose proof (count_le_length ev nq) as Hc1.
  pose proof (count_le_length ev (map fst cq)) as Hc2.
  rewrite length_map in Hc2.
  assert (Hold : forall g, hd 0 (h g) <= ts).
  { intros g. apply hd_bound; [lia|apply Hbound]. }
  assert (nonempty_of_tracked : forall g, k <= c g -> h g <> []).
  { intros g Hg E. specialize (Hlen g). rewrite E in Hlen. simpl in Hlen. lia. }
  destruct (Z.eqb_spec (c f + 1) 1) as [E1|E1].
  - (* first access *)
    assert (Hc : c f = 0) by lia.
    assert (Hh : h f = []).
    { destruct (h f); [reflexivity|simpl in Hlf; lia]. }
    assert (Hn1 : ~ In f nq) by (rewrite Hnew; lia).
    assert (Hn2 : ~ In f (map fst cq)) by (rewrite Hcache; lia).
    unfold promote, enter. simpl. rewrite !upd_same, Hh. simpl.
    rewrite (size_t_incr_small cur) by lia.
    destruct (Z.eqb_spec (c f + 1) k) as [Ek|Ek].
    + (* k = 1: straight to the cache queue *)
      unfold erase_new. simpl. rewrite Z.eqb_refl.
      constructor; unfold oldest; simpl; try assumption; try lia.
      * intros g. upd_cases g f; [lia|]. specialize (Hcnt g). lia.
      * intros g. rewrite Hnew. upd_cases g f; lia.
      * intros g. rewrite in_map_iff. split.
        -- intros (e & <- & He). apply insert_upper_bound_In in He.
           destruct He as [->|He]; simpl; [rewrite upd_same; lia|].
           assert (In (fst e) (map fst cq)) as Hin by now apply in_map.
           rewrite upd_other by (intros E; rewrite E in Hin; tauto).
           now apply Hcache.
        -- upd_cases g f; intros Hg.
           ++ exists (f, ts + 1). split; [reflexivity|].
              apply insert_upper_bound_In. now left.
           ++ apply Hcache in Hg. apply in_map_iff in Hg.
              destruct Hg as (e & <- & He). exists e. split; [reflexivity|].
              apply insert_upper_bound_In. now right.
      * now apply insert_upper_bound_NoDup.
      * intros g. upd_cases g f; [simpl; lia|apply Hlen].
      * intros g t. upd_cases g f.
        -- simpl. intros [<-|[]]. lia.
        -- intros Ht. specialize (Hbound g t Ht). lia.
      * apply (owner_upd h f [ts + 1] ts); auto.
        simpl. intros t [<-|[]]. right. lia.
      * rewrite (map_ext_in _ (fun g => hd 0 (h g))); [assumption|].
        intros g Hg. rewrite upd_other; [reflexivity|]. intros ->. tauto.
      * apply insert_upper_bound_Sorted; [assumption|].
        intros y Hy. rewrite (Htime y Hy). simpl.
        specialize (Hold (fst y)). lia.
      * intros e He. apply insert_upper_bound_In in He.
        destruct He as [->|He]; simpl; [now rewrite upd_same|].
        rewrite upd_other; [now apply Htime|].
        intros E. apply Hn2. rewrite <- E. now apply in_map.
      * rewrite count_insert. simpl. rewrite upd_same.
        rewrite !count_upd_notin by assumption. lia.
      * rewrite insert_upper_bound_length. lia.
      * intros g. upd_cases g f; [lia|apply Hrange].
    + (* k > 1: into the queue of the young frames *)
      destruct (Z.gtb_spec (c f + 1) k) as [Gk|Gk]; [lia|].
      constructor; unfold oldest; simpl; try assumption; try lia.
      * intros g. upd_cases g f; [lia|]. specialize (Hcnt g). lia.
      * intros g. rewrite Hnew. upd_cases g f; [lia|].
        split; [intros [->|]; tauto|tauto].
      * intros g. rewrite Hcache. upd_cases g f; [lia|tauto].
      * now constructor.
      * intros g. upd_cases g f; [simpl; lia|apply Hlen].
      * intros g t. upd_cases g f.
        -- simpl. intros [<-|[]]. lia.
        -- intros Ht. specialize (Hbound g t Ht). lia.
      * apply (owner_upd h f [ts + 1] ts); auto.
        simpl. intros t [<-|[]]. right. lia.
      * rewrite upd_same. simpl.
        rewrite (map_ext_in _ (fun g => hd 0 (h g))).
        -- constructor; [assumption|]. rewrite Forall_forall.
           intros x Hx. apply in_map_iff in Hx. destruct Hx as (g & <- & _).
           specialize (Hold g). lia.
        -- intros g Hg. rewrite upd_other; [reflexivity|]. intros ->. tauto.
      * intros e He. rewrite upd_other; [now apply Htime|].
        intros E. apply Hn2. rewrite <- E. now apply in_map.
      * rewrite count_cons, upd_same.
        rewrite !count_upd_notin by assumption. lia.
      * intros g. upd_cases g f; [lia|apply Hrange].
  - (* a frame that is already tracked *)
    assert (Hc : 1 <= c f) by lia.
    assert (Hh : h f <> []).
    { destruct (h f); [simpl in Hlf; lia|discriminate]. }
    unfold promote. simpl. rewrite !upd_same.
    destruct (Z.eqb_spec (c f + 1) k) as [Ek|Ek].
    + (* the K-th access: from the young queue to the cache queue *)
      assert (Hn1 : In f nq) by (rewrite Hnew; lia).
      assert (Hn2 : ~ In f (map fst cq)) by (rewrite Hcache; lia).
      constructor; unfold oldest; simpl; try assumption; try lia.
      * intros g. upd_cases g f; [lia|]. specialize (Hcnt g). lia.
      * intros g. rewrite erase_new_In by assumption. rewrite Hnew.
        upd_cases g f; [lia|tauto].
      * intros g. rewrite in_map_iff. split.
        -- intros (e & <- & He). apply insert_upper_bound_In in He.
           destruct He as [->|He]; simpl; [rewrite upd_same; lia|].
           assert (In (fst e) (map fst cq)) as Hin by now apply in_map.
           rewrite upd_other by (intros E; rewrite E in Hin; tauto).
           now apply Hcache.
        -- upd_cases g f; intros Hg.
           ++ eexists (f, _). split; [reflexivity|].
              apply insert_upper_bound_In. now left.
           ++ apply Hcache in Hg. apply in_map_iff in Hg.
              destruct Hg as (e & <- & He). exists e. split; [reflexivity|].
              apply insert_upper_bound_In. now right.
      * now apply erase_new_NoDup.
      * now apply insert_upper_bound_NoDup.
      * intros g. upd_cases g f; [|apply Hlen].
        rewrite length_app. simpl. lia.
      * intros g t. upd_cases g f.
        -- rewrite in_app_iff. simpl. intros [Ht|[<-|[]]]; [|lia].
           specialize (Hbound f t Ht). lia.
        -- intros Ht. specialize (Hbound g t Ht). lia.
      * apply (owner_upd h f (h f ++ [ts + 1]) ts); auto.
        intros t Ht. apply in_app_iff in Ht. simpl in Ht.
        destruct Ht as [Ht|[<-|[]]]; [now left|right; lia].
      * rewrite (map_ext_in _ (fun g => hd 0 (h g))).
        -- now apply map_erase_first_Sorted.
        -- intros g Hg. apply erase_new_In in Hg; [|assumption].
           now rewrite upd_other.
      * apply insert_upper_bound_Sorted; [assumption|].
        intros y Hy. rewrite (Htime y Hy). simpl.
        rewrite hd_app_nonempty by assumption. intros E.
        apply Hn2. replace f with (fst y); [now apply in_map|].
        apply (Hown (fst y) f (hd 0 (h f))); [|now apply hd_In].
        rewrite <- E. apply hd_In. apply (nonempty_of_tracked (fst y)).
        apply Hcache. now apply in_map.
      * intros e He. apply insert_upper_bound_In in He.
        destruct He as [->|He]; simpl; [now rewrite upd_same|].
        rewrite upd_other; [now apply Htime|].
        intros E. apply Hn2. rewrite <- E. now apply in_map.
      * rewrite count_insert. simpl.
        rewrite count_erase by assumption. lia.
      * rewrite insert_upper_bound_length.
        pose proof (erase_first_length (fun g => g =? f) nq).
        unfold erase_new. lia.
      * intros g. upd_cases g f; [lia|apply Hrange].
    + destruct (Z.gtb_spec (c f + 1) k) as [Gk|Gk].
      * (* beyond K: a new place in the cache queue *)
        assert (Hn1 : ~ In f nq) by (rewrite Hnew; lia).
        assert (Hn2 : In f (map fst cq)) by (rewrite Hcache; lia).
        constructor; unfold oldest; simpl; try assumption; try lia.
        -- intros g. upd_cases g f; [lia|]. specialize (Hcnt g). lia.
        -- intros g. rewrite Hnew. upd_cases g f; [lia|tauto].
        -- intros g. rewrite in_map_iff. split.
           ++ intros (e & <- & He). apply insert_upper_bound_In in He.
              destruct He as [->|He]; simpl; [rewrite upd_same; lia|].
              apply erase_cache_In in He; [|assumption].
              destruct He as [He Hne]. rewrite upd_other by assumption.
              apply Hcache. now apply in_map.
           ++ upd_cases g f; intros Hg.
              ** eexists (f, _). split; [reflexivity|].
                 apply insert_upper_bound_In. now left.
              ** apply Hcache in Hg.
                 assert (In g (map fst (erase_cache cq f))) as Hg'.
                 { rewrite erase_cache_fst. now apply erase_new_In. }
                 apply in_map_iff in Hg'.
                 destruct Hg' as (e & <- & He). exists e. split; [reflexivity|].
                 apply insert_upper_bound_In. now right.
        -- apply insert_upper_bound_NoDup.
           ++ rewrite erase_cache_fst. now apply erase_new_NoDup.
           ++ simpl. rewrite erase_cache_fst, erase_new_In by assumption. tauto.
        -- intros g. unfold upd at 1. destruct (Z.eqb_spec g f) as [->|?].
           ++ rewrite upd_same, length_tl_snoc. lia.
           ++ rewrite !upd_other by assumption. apply Hlen.
        -- intros g t. unfold upd at 1. destruct (Z.eqb_spec g f) as [->|?].
           ++ intros Ht. apply In_tl in Ht. rewrite in_app_iff in Ht.
              simpl in Ht. destruct Ht as [Ht|[<-|[]]]; [|lia].
              specialize (Hbound f t Ht). lia.
           ++ rewrite !upd_other by assumption.
              intros Ht. specialize (Hbound g t Ht). lia.
        -- assert (Hsub : forall t, In t (tl (h f ++ [ts + 1])) ->
                                    In t (h f) \/ ts < t).
           { intros t Ht. apply In_tl in Ht. apply in_app_iff in Ht.
             simpl in Ht. destruct Ht as [Ht|[<-|[]]]; [now left|right; lia]. }
           intros f1 f2 t H1 H2.
           apply (owner_upd h f (tl (h f ++ [ts + 1])) ts Hown Hbound Hsub f1 f2 t).
           ++ revert H1. unfold upd. now destruct (f1 =? f).
           ++ revert H2. unfold upd. now destruct (f2 =? f).
        -- rewrite (map_ext_in _ (fun g => hd 0 (h g))); [assumption|].
           intros g Hg. rewrite !upd_other; [reflexivity|intros ->; tauto..].
        -- apply insert_upper_bound_Sorted; [now apply erase_first_Sorted|].
           intros y Hy. apply erase_cache_In in Hy; [|assumption].
           destruct Hy as [Hy Hne]. rewrite (Htime y Hy). simpl.
           assert (Hne' : tl (h f ++ [ts + 1]) <> []).
           { intros E. pose proof (length_tl_snoc (h f) (ts + 1)) as HL.
             rewrite E in HL. simpl in HL. lia. }
           pose proof (hd_In _ Hne') as Hin. apply In_tl in Hin.
           apply in_app_iff in Hin. simpl in Hin.
           assert (Hy' : In (hd 0 (h (fst y))) (h (fst y))).
           { apply hd_In. apply (nonempty_of_tracked (fst y)).
             apply Hcache. now apply in_map. }
           intros E. rewrite <- E in Hin. destruct Hin as [Hin|[Hin|[]]].
           ++ apply Hne. eapply Hown; eauto.
           ++ specialize (Hbound _ _ Hy'). lia.
        -- intros e He. apply insert_upper_bound_In in He.
           destruct He as [->|He]; simpl; [now rewrite upd_same|].
           apply erase_cache_In in He; [|assumption].
           destruct He as [He Hne]. rewrite !upd_other by assumption.
           now apply Htime.
        -- rewrite count_insert. simpl.
           rewrite erase_cache_fst, count_erase by assumption. lia.
        -- rewrite insert_upper_bound_length.
           pose proof (erase_first_length (fun e => fst e =? f) cq).
           unfold erase_cache. lia.
        -- intros g. upd_cases g f; [lia|apply Hrange].
      * (* still below K *)
        constructor; unfold oldest; simpl; try assumption; try lia.
        -- intros g. upd_cases g f; [lia|]. specialize (Hcnt g). lia.
        -- intros g. rewrite Hnew. upd_cases g f; [lia|tauto].
        -- intros g. rewrite Hcache. upd_cases g f; [lia|tauto].
        -- intros g. upd_cases g f; [|apply Hlen].
           rewrite length_app. simpl. lia.
        -- intros g t. upd_cases g f.
           ++ rewrite in_app_iff. simpl. intros [Ht|[<-|[]]]; [|lia].
              specialize (Hbound f t Ht). lia.
           ++ intros Ht. specialize (Hbound g t Ht). lia.
        -- apply (owner_upd h f (h f ++ [ts + 1]) ts); auto.
           intros t Ht. apply in_app_iff in Ht. simpl in Ht.
           destruct Ht as [Ht|[<-|[]]]; [now left|right; lia].
        -- rewrite (map_ext _ (fun g => hd 0 (h g))); [assumption|].
           intros g. upd_cases g f; [now apply hd_app_nonempty|reflexivity].
        -- intros e He. rewrite (Htime e He). unfold upd.
           destruct (Z.eqb_spec (fst e) f) as [E|E]; [|reflexivity].
           rewrite E. symmetry. now apply hd_app_nonempty.
        -- intros g. upd_cases g f; [lia|apply Hrange].
Qed.

(** *** Calls on a replacer that satisfies the invariant *)

(** Between two calls the mutex is free. *)
Definition good (st : Replacer) : Prop := latch_ st = false /\ Inv st.

Lemma RecordAccess_accessed st f :
  latch_ st = false ->
  RecordAccess st f =
  if f >? to_frame_id (replacer_size_ st) then Throw st
  else if (size_t_incr (recorded_cnt_ st f) =? 1)
          && (curr_size_ st =? max_size_ st)
       then Deadlock
       else Ok (accessed st f) tt.
Proof.
  intros Hl. rewrite RecordAccess_eq by assumption. unfold accessed.
  destruct (f >? _); [reflexivity|].
  replace (recorded_cnt_ (touch st f) f)
    with (size_t_incr (recorded_cnt_ st f))
    by (unfold touch; simpl; now rewrite upd_same).
  cbv zeta. destruct (size_t_incr (recorded_cnt_ st f) =? 1); simpl;
    [destruct (curr_size_ st =? max_size_ st)|]; reflexivity.
Qed.

Lemma accessed_latch st f : latch_ (accessed st f) = latch_ st.
Proof.
  unfold accessed, promote. cbv zeta.
  repeat match goal with |- context [if ?b then _ else _] => destruct b end;
    reflexivity.
Qed.

Lemma accessed_timestamp st f :
  current_timestamp_ (accessed st f) = size_t_incr (current_timestamp_ st).
Proof.
  unfold accessed, promote. cbv zeta.
  repeat match goal with |- context [if ?b then _ else _] => destruct b end;
    reflexivity.
Qed.

Lemma toggle_latch st f b : latch_ (toggle st f b) = latch_ st.
Proof. unfold toggle. destruct (evictable_ st f), b; reflexivity. Qed.

Lemma toggle_timestamp st f b :
  current_timestamp_ (toggle st f b) = current_timestamp_ st.
Proof. unfold toggle. destruct (evictable_ st f), b; reflexivity. Qed.

Lemma Evict_good st :
  good st ->
  Evict st =
  if Size st =? 0 then Ok st None
  else match find (evictable_ st) (rev (new_frame_ st)) with
       | Some frame => Ok (drop_new st frame) (Some frame)
       | None =>
           match find (fun e => evictable_ st (fst e)) (cache_frame_ st) with
           | Some e => Ok (drop_cache st (fst e)) (Some (fst e))
           | None => Ok st None
           end
       end.
Proof.
  intros [Hl H]. rewrite Evict_eq by assumption.
  destruct (Size st =? 0); [reflexivity|].
  destruct (find (evictable_ st) (rev (new_frame_ st))) as [f|].
  - rewrite list_remove_erase_new by apply (inv_new_nodup st H). reflexivity.
  - destruct (find _ (cache_frame_ st)) as [e|] eqn:E; [|reflexivity].
    rewrite (erase_first_found (evictable_ st) _ e (inv_cache_nodup st H) E).
    reflexivity.
Qed.

Lemma find_rev_some (p : Z -> bool) q f :
  find p (rev q) = Some f -> In f q /\ p f = true.
Proof.
  intros H. apply find_some in H. destruct H as [H1 H2].
  split; [now apply in_rev|assumption].
Qed.

Lemma exec_good st o st' :
  good st -> current_timestamp_ st < 2 ^ 64 - 1 ->
  exec st o = Some st' ->
  good st' /\
  current_timestamp_ st <= current_timestamp_ st' <= current_timestamp_ st + 1.
Proof.
  intros Hg Hsmall He. pose proof Hg as [Hl H].
  pose proof (inv_ts st H) as Hts.
  assert (Hsame : good st /\
                  current_timestamp_ st <= current_timestamp_ st
                  <= current_timestamp_ st + 1) by (split; [assumption|lia]).
  destruct o as [f| |f b|f|]; simpl in He.
  - rewrite RecordAccess_accessed in He by assumption.
    destruct (Z.gtb_spec f (to_frame_id (replacer_size_ st))) as [G|G].
    + simpl in He. injection He as <-. exact Hsame.
    + destruct (_ && _); [discriminate|]. simpl in He. injection He as <-.
      rewrite accessed_timestamp, size_t_incr_small by lia.
      split; [split|lia].
      * now rewrite accessed_latch.
      * now apply accessed_Inv.
  - rewrite Evict_good in He by assumption.
    destruct (Size st =? 0).
    { simpl in He. injection He as <-. exact Hsame. }
    destruct (find (evictable_ st) (rev (new_frame_ st))) as [f|] eqn:E1.
    { simpl in He. injection He as <-.
      apply find_rev_some in E1. destruct E1 as [Hin Hev].
      split; [split|simpl; lia]; [assumption|now apply drop_new_Inv]. }
    destruct (find _ (cache_frame_ st)) as [e|] eqn:E2.
    { simpl in He. injection He as <-.
      apply find_some in E2. destruct E2 as [Hin Hev].
      split; [split|simpl; lia]; [assumption|].
      apply drop_cache_Inv; auto. now apply in_map. }
    simpl in He. injection He as <-. exact Hsame.
  - rewrite SetEvictable_eq in He by assumption.
    destruct (Z.eqb_spec (recorded_cnt_ st f) 0) as [E|E];
      simpl in He; injection He as <-.
    + exact Hsame.
    + rewrite toggle_timestamp. split; [split|lia].
      * now rewrite toggle_latch.
      * now apply toggle_Inv.
  - rewrite Remove_eq in He by assumption.
    destruct (f >? _). { simpl in He. injection He as <-. exact Hsame. }
    destruct (Z.eqb_spec (recorded_cnt_ st f) 0) as [E|E].
    { simpl in He. injection He as <-. exact Hsame. }
    destruct (evictable_ st f) eqn:Ev; simpl in He.
    2:{ injection He as <-. exact Hsame. }
    pose proof (inv_cnt st H f) as Hc.
    destruct (Z.ltb_spec (recorded_cnt_ st f) (k_ st)) as [L|L];
      simpl in He; injection He as <-;
      (split; [split|simpl; lia]; [assumption|]).
    + apply drop_new_Inv; auto. apply (inv_new st H). lia.
    + apply drop_cache_Inv; auto. now apply (inv_cache st H).
  - injection He as <-. exact Hsame.
Qed.

Lemma run_good ops : forall st st',
  good st ->
  current_timestamp_ st + Z.of_nat (length ops) < 2 ^ 64 ->
  run ops st = Some st' ->
  good st' /\
  current_timestamp_ st' <= current_timestamp_ st + Z.of_nat (length ops).
Proof.
  induction ops as [|o r IH]; intros st st' Hg Hb Hr; simpl in *.
  - injection Hr as <-. split; [assumption|lia].
  - destruct (exec st o) as [st1|] eqn:E; [|discriminate].
    destruct (exec_good st o st1 Hg ltac:(lia) E) as [Hg1 Ht1].
    destruct (IH st1 st' Hg1 ltac:(lia) Hr) as [Hg' Ht']. split; [assumption|lia].
Qed.

Lemma new_replacer_good num_frames k :
  1 <= k < 2 ^ 64 -> good (new_replacer num_frames k).
Proof. intros Hk. split; [reflexivity|now apply new_replacer_Inv]. Qed.

(** Every replacer obtained from the constructor by fewer than [2^64]
    calls that returned (normally or with an exception). *)
Lemma reachable_good num_frames k ops st :
  1 <= k < 2 ^ 64 -> Z.of_nat (length ops) < 2 ^ 64 ->
  run ops (new_replacer num_frames k) = Some st ->
  good st /\ current_timestamp_ st <= Z.of_nat (length ops).
Proof.
  intros Hk Hlen Hrun.
  apply (run_good ops (new_replacer num_frames k) st); auto.
  now apply new_replacer_good.
Qed.

(** *** Vocabulary of the design document *)

Definition in_new (st : Replacer) (f : frame_id_t) : Prop :=
  In f (new_frame_ st).

Definition in_cache (st : Replacer) (f : frame_id_t) : Prop :=
  In f (map fst (cache_frame_ st)).

(** A frame with fewer than K recorded accesses, and one with K or more. *)
Definition below_K (st : Replacer) (f : frame_id_t) : Prop :=
  0 < recorded_cnt_ st f < k_ st.

Definition at_least_K (st : Replacer) (f : frame_id_t) : Prop :=
  0 < recorded_cnt_ st f /\ k_ st <= recorded_cnt_ st f.

(** The first access of a frame since it became tracked: the front of its
    history, which holds every access while there are fewer than K. *)
Definition first_access (st : Replacer) (f : frame_id_t) : Z :=
  hd 0 (hist st f).

(** The K-th most recent access: the K-th stamp of the history counted
    from its back. *)
Definition kth_recent_access (st : Replacer) (f : frame_id_t) : Z :=
  nth (Z.to_nat (k_ st - 1)) (rev (hist st f)) 0.

(** Each frame is in one of three places, told apart by its count. *)
Definition placed (st : Replacer) : Prop :=
  forall f,
    (recorded_cnt_ st f = 0 /\ ~ in_new st f /\ ~ in_cache st f) \/
    (below_K st f /\ in_new st f /\ ~ in_cache st f) \/
    (at_least_K st f /\ ~ in_new st f /\ in_cache st f).

(** Two replacers with the same fields, the maps compared entry by entry. *)
Definition same_replacer (a b : Replacer) : Prop :=
  replacer_size_ a = replacer_size_ b /\ k_ a = k_ b /\
  max_size_ a = max_size_ b /\ curr_size_ a = curr_size_ b /\
  current_timestamp_ a = current_timestamp_ b /\
  (forall g, hist a g = hist b g) /\
  (forall g, recorded_cnt_ a g = recorded_cnt_ b g) /\
  (forall g, evictable_ a g = evictable_ b g) /\
  new_frame_ a = new_frame_ b /\ cache_frame_ a = cache_frame_ b /\
  latch_ a = latch_ b.

(** *** Supporting lemmas *)

Lemma Inv_placed st : Inv st -> placed st.
Proof.
  intros H f. unfold below_K, at_least_K, in_new, in_cache.
  pose proof (inv_cnt st H f) as Hc. pose proof (inv_k st H) as Hk.
  pose proof (inv_new st H f) as Hn. pose proof (inv_cache st H f) as Hq.
  destruct (Z.eq_dec (recorded_cnt_ st f) 0) as [E|E].
  - left. rewrite Hn, Hq. lia.
  - destruct (Z.lt_ge_cases (recorded_cnt_ st f) (k_ st)) as [L|L].
    + right; left. rewrite Hn, Hq. lia.
    + right; right. rewrite Hn, Hq. lia.
Qed.

Lemma nth_rev_front (l : list Z) n :
  l <> [] -> S n = length l -> nth n (rev l) 0 = hd 0 l.
Proof.
  destruct l as [|a r]; [congruence|]. simpl. intros _ Hn.
  rewrite app_nth2 by (rewrite length_rev; lia).
  rewrite length_rev. replace (n - length r)%nat with O by lia. reflexivity.
Qed.

Lemma kth_recent_access_oldest st f :
  Inv st -> k_ st <= recorded_cnt_ st f ->
  kth_recent_access st f = oldest st f.
Proof.
  intros H Hf. unfold kth_recent_access, oldest.
  pose proof (inv_hist_len st H f) as Hl. pose proof (inv_k st H) as Hk.
  apply nth_rev_front.
  - intros E. rewrite E in Hl. simpl in Hl. lia.
  - lia.
Qed.

Lemma Sorted_map_before {A : Type} (R : Z -> Z -> Prop) (g : A -> Z)
    (q1 q2 : list A) x :
  StronglySorted R (map g (q1 ++ x :: q2)) ->
  forall y, In y q1 -> R (g y) (g x).
Proof.
  induction q1 as [|z r IH]; simpl; intros H y Hy; [tauto|].
  inversion H as [|? ? Hr Hz]; subst. destruct Hy as [->|Hy]; [|auto].
  rewrite Forall_forall in Hz. apply Hz. apply in_map.
  apply in_or_app. right. now left.
Qed.

Lemma Sorted_after {A : Type} (R : A -> A -> Prop) (q1 q2 : list A) x :
  StronglySorted R (q1 ++ x :: q2) -> forall y, In y q2 -> R x y.
Proof.
  induction q1 as [|z r IH]; simpl; intros H y Hy.
  - inversion H as [|? ? Hr Hz]; subst. rewrite Forall_forall in Hz. auto.
  - inversion H; subst. auto.
Qed.

Lemma accessed_cnt st f g :
  recorded_cnt_ (accessed st f) g =
  upd (recorded_cnt_ st) f (size_t_incr (recorded_cnt_ st f)) g.
Proof.
  unfold accessed, promote. cbv zeta.
  repeat match goal with |- context [if ?b then _ else _] => destruct b end;
    reflexivity.
Qed.

Lemma accessed_hist st f g :
  g <> f -> hist (accessed st f) g = hist st g.
Proof.
  intros Hne. unfold accessed, promote. cbv zeta.
  repeat match goal with |- context [if ?b then _ else _] => destruct b end;
    simpl; now rewrite ?upd_other by assumption.
Qed.

Lemma toggle_cnt st f b g : recorded_cnt_ (toggle st f b) g = recorded_cnt_ st g.
Proof. unfold toggle. destruct (evictable_ st f), b; reflexivity. Qed.

Lemma accessed_k st f : k_ (accessed st f) = k_ st.
Proof.
  unfold accessed, promote. cbv zeta.
  repeat match goal with |- context [if ?b then _ else _] => destruct b end;
    reflexivity.
Qed.

Lemma toggle_k st f b : k_ (toggle st f b) = k_ st.
Proof. unfold toggle. destruct (evictable_ st f), b; reflexivity. Qed.

(** What one call does to the count of a frame. *)
Lemma exec_cnt st o st' f :
  good st -> current_timestamp_ st < 2 ^ 64 - 1 ->
  exec st o = Some st' ->
  k_ st' = k_ st /\
  (recorded_cnt_ st' f = recorded_cnt_ st f \/
   (o = OpRecordAccess f /\ recorded_cnt_ st' f = recorded_cnt_ st f + 1) \/
   ((o = OpEvict \/ o = OpRemove f) /\ recorded_cnt_ st' f = 0)).
Proof.
  intros [Hl H] Hsmall He. pose proof (inv_cnt st H) as Hc.
  destruct o as [g| |g b|g|]; simpl in He.
  - rewrite RecordAccess_accessed in He by assumption.
    destruct (g >? _); [simpl in He; injection He as <-; auto|].
    destruct (_ && _); [discriminate|]. simpl in He. injection He as <-.
    rewrite accessed_k, accessed_cnt. split; [reflexivity|].
    unfold upd. destruct (Z.eqb_spec f g) as [->|Hne]; [|auto].
    right; left. split; [reflexivity|].
    apply size_t_incr_small. specialize (Hc g). lia.
  - rewrite Evict_good in He by (split; assumption).
    destruct (Size st =? 0); [simpl in He; injection He as <-; auto|].
    destruct (find (evictable_ st) (rev (new_frame_ st))) as [g|].
    { simpl in He. injection He as <-. simpl. split; [reflexivity|].
      unfold upd. destruct (f =? g); auto. }
    destruct (find _ (cache_frame_ st)) as [e|];
      simpl in He; injection He as <-; auto.
    simpl. split; [reflexivity|]. unfold upd. destruct (f =? fst e); auto.
  - rewrite SetEvictable_eq in He by assumption.
    destruct (recorded_cnt_ st g =? 0); simpl in He; injection He as <-; auto.
    rewrite toggle_k, toggle_cnt. auto.
  - rewrite Remove_eq in He by assumption.
    destruct (g >? _); [simpl in He; injection He as <-; auto|].
    destruct (recorded_cnt_ st g =? 0); [simpl in He; injection He as <-; auto|].
    destruct (evictable_ st g); simpl in He; [|injection He as <-; auto].
    destruct (recorded_cnt_ st g <? k_ st); simpl in He; injection He as <-;
      simpl; (split; [reflexivity|]); unfold upd;
      destruct (Z.eqb_spec f g) as [->|Hne]; auto.
  - injection He as <-. auto.
Qed.

(** *** Properties of the design document *)

(** C2 (eviction order).  On a replacer built by the constructor
    (K at least 1) and fewer than [2^64] calls, a call of [Evict] returns,
    and: if some frame with fewer than K accesses is evictable, the frame
    handed back is the evictable such frame whose first access is the
    earliest, whatever the frames with K accesses or more; otherwise, if
    some frame with at least K accesses is evictable, it is the evictable
    one with the smallest K-th most recent access; otherwise no tracked
    frame is evictable and [Evict] hands back nothing. *)
Theorem Evict_order (num_frames k : Z) (ops : list op) (st : Replacer) :
  1 <= k < 2 ^ 64 -> Z.of_nat (length ops) < 2 ^ 64 ->
  run ops (new_replacer num_frames k) = Some st ->
  exists st' v,
    Evict st = Ok st' v /\
    match v with
    | Some f =>
        evictable_ st f = true /\
        ((below_K st f /\
          forall g, below_K st g -> evictable_ st g = true -> g <> f ->
                    first_access st f < first_access st g)
         \/
         ((forall g, below_K st g -> evictable_ st g = false) /\
          at_least_K st f /\
          forall g, at_least_K st g -> evictable_ st g = true -> g <> f ->
                    kth_recent_access st f < kth_recent_access st g))
    | None =>
        forall g, below_K st g \/ at_least_K st g -> evictable_ st g = false
    end.
Proof.
  intros Hk Hlen Hrun.
  destruct (reachable_good _ _ _ _ Hk Hlen Hrun) as [Hg _].
  pose proof Hg as [Hl H]. rewrite (Evict_good st Hg).
  pose proof (inv_cnt st H) as Hc. pose proof (inv_k st H) as Hkk.
  assert (Hq : forall g, below_K st g \/ at_least_K st g ->
                         In g (new_frame_ st) \/ In g (map fst (cache_frame_ st))).
  { intros g [Hb|[_ Ha]]; [left; now apply (inv_new st H)
                          |right; now apply (inv_cache st H)]. }
  destruct (Z.eqb_spec (Size st) 0) as [E0|E0].
  { (* nothing is evictable *)
    exists st, None. split; [reflexivity|]. intros g Hgq.
    unfold Size in E0. rewrite (inv_curr st H) in E0.
    pose proof (count_nonneg (evictable_ st) (new_frame_ st)).
    pose proof (count_nonneg (evictable_ st) (map fst (cache_frame_ st))).
    destruct (Hq g Hgq) as [Hin|Hin];
      eapply count_zero; try exact Hin; lia. }
  destruct (find (evictable_ st) (rev (new_frame_ st))) as [f|] eqn:E1.
  { (* the oldest evictable young frame *)
    exists (drop_new st f), (Some f). split; [reflexivity|].
    destruct (find_rev_split _ _ _ E1) as (q1 & q2 & Eq & Hev & Hq2).
    assert (Hin : In f (new_frame_ st)).
    { rewrite Eq. apply in_or_app. right. now left. }
    split; [assumption|]. left. split; [now apply (inv_new st H)|].
    intros g Hb Hge Hne. apply (inv_new st H) in Hb.
    pose proof (inv_new_sorted st H) as Hs. rewrite Eq in Hs, Hb.
    apply in_app_or in Hb. destruct Hb as [Hb|[Hb|Hb]].
    - pose proof (Sorted_map_before Z.gt (oldest st) q1 q2 f Hs g Hb).
      unfold first_access, oldest in *. lia.
    - congruence.
    - rewrite (Hq2 g Hb) in Hge. discriminate. }
  assert (Hyoung : forall g, below_K st g -> evictable_ st g = false).
  { intros g Hb. apply (find_none _ _ E1). rewrite <- in_rev.
    now apply (inv_new st H). }
  destruct (find _ (cache_frame_ st)) as [e|] eqn:E2.
  { (* the evictable frame with the oldest K-th most recent access *)
    exists (drop_cache st (fst e)), (Some (fst e)). split; [reflexivity|].
    destruct (find_split _ _ _ E2) as (q1 & q2 & Eq & Hev & Hq1).
    assert (Hin : In e (cache_frame_ st)).
    { rewrite Eq. apply in_or_app. right. now left. }
    assert (Ha : k_ st <= recorded_cnt_ st (fst e)).
    { apply (inv_cache st H). now apply in_map. }
    split; [assumption|]. right. split; [assumption|].
    split; [split; lia|].
    intros g [_ Hga] Hge Hne.
    rewrite !kth_recent_access_oldest by assumption.
    rewrite <- (inv_cache_time st H e Hin).
    apply (inv_cache st H) in Hga. apply in_map_iff in Hga.
    destruct Hga as (y & <- & Hy).
    rewrite <- (inv_cache_time st H y Hy).
    pose proof (inv_cache_sorted st H) as Hs. rewrite Eq in Hs, Hy.
    apply in_app_or in Hy. destruct Hy as [Hy|[Hy|Hy]].
    - rewrite (Hq1 y Hy) in Hge. discriminate.
    - congruence.
    - exact (Sorted_after time_lt q1 q2 e Hs y Hy). }
  exists st, None. split; [reflexivity|].
  intros g [Hb|[_ Ha]]; [now apply Hyoung|].
  apply (inv_cache st H) in Ha. apply in_map_iff in Ha.
  destruct Ha as (y & <- & Hy). exact (find_none _ _ E2 y Hy).
Qed.

(** C6 (queue membership and promotion).  On a replacer built by the
    constructor (K at least 1) and calls that returned, with room for one
    more call below [2^64]: every frame is in exactly one of three places,
    untracked (count 0, in no queue), the below-K queue (count between 1
    and K-1) or the at/above-K queue (count at least K); this still holds
    after one more call [o].  A call changes the count of a frame only by
    adding the one access of [RecordAccess] on that frame or by resetting
    it at an eviction or removal, so a frame passes from the below-K queue
    to the at/above-K queue only in the [RecordAccess] that brings its
    count to K, and it is there as soon as the count is K; a frame of the
    at/above-K queue is never put back into the below-K queue. *)
Theorem queue_membership (num_frames k : Z) (ops : list op) (st : Replacer) :
  1 <= k < 2 ^ 64 -> Z.of_nat (length ops) + 1 < 2 ^ 64 ->
  run ops (new_replacer num_frames k) = Some st ->
  placed st /\
  forall o st', exec st o = Some st' ->
    placed st' /\
    forall f,
      (recorded_cnt_ st' f = recorded_cnt_ st f \/
       (o = OpRecordAccess f /\
        recorded_cnt_ st' f = recorded_cnt_ st f + 1) \/
       ((o = OpEvict \/ o = OpRemove f) /\ recorded_cnt_ st' f = 0)) /\
      (in_new st f -> in_cache st' f ->
       o = OpRecordAccess f /\ recorded_cnt_ st' f = k_ st') /\
      (in_cache st f -> ~ in_new st' f).
Proof.
  intros Hk Hlen Hrun.
  destruct (reachable_good num_frames k ops st Hk ltac:(lia) Hrun) as [Hg Hts].
  pose proof Hg as [Hl H].
  split; [now apply Inv_placed|]. intros o st' He.
  destruct (exec_good st o st' Hg ltac:(lia) He) as [[Hl' H'] _].
  split; [now apply Inv_placed|]. intros f.
  destruct (exec_cnt st o st' f Hg ltac:(lia) He) as [Hk' Hcnt].
  split; [exact Hcnt|].
  pose proof (inv_k st H) as Hkk.
  unfold in_new, in_cache.
  rewrite (inv_new st H), (inv_cache st H), (inv_new st' H'),
    (inv_cache st' H'), Hk'.
  split.
  - intros Hb Ha. destruct Hcnt as [E|[[Eo E]|[_ E]]]; [lia| |lia].
    split; [assumption|lia].
  - intros Ha Hb. destruct Hcnt as [E|[[Eo E]|[_ E]]]; lia.
Qed.

(** C7 (frame id out of range, as the code has it).  [RecordAccess] and
    [Remove] throw, and leave the replacer as it was, when the frame id is
    greater than the number of frames (converted to [frame_id_t]);
    [RecordAccess] throws in no other case, so the id equal to the number
    of frames is accepted. *)
Theorem out_of_range_frame_id (st : Replacer) (frame_id : frame_id_t) :
  latch_ st = false ->
  (frame_id > to_frame_id (replacer_size_ st) ->
   RecordAccess st frame_id = Throw st /\ Remove st frame_id = Throw st) /\
  (frame_id <= to_frame_id (replacer_size_ st) ->
   forall st', RecordAccess st frame_id <> Throw st').
Proof.
  intros Hl. rewrite RecordAccess_accessed, Remove_eq by assumption.
  destruct (Z.gtb_spec frame_id (to_frame_id (replacer_size_ st))) as [G|G];
    split; intros Hf; try lia.
  - split; reflexivity.
  - intros st'. destruct (_ && _); discriminate.
Qed.

(** C8 ([Remove]).  On a replacer built by the constructor (K at least 1)
    and fewer than [2^64] calls: [Remove] of a frame without recorded
    access, whose id passes the range check, returns and changes nothing;
    [Remove] of a tracked frame that is not evictable throws and changes
    nothing; [Remove] of a tracked evictable frame returns, the history
    and the count of the frame are cleared, the frame is in neither queue,
    [Size] is one less, and the other frames keep their count, history
    and place. *)
Theorem Remove_semantics (num_frames k : Z) (ops : list op) (st : Replacer)
    (f : frame_id_t) :
  1 <= k < 2 ^ 64 -> Z.of_nat (length ops) < 2 ^ 64 ->
  run ops (new_replacer num_frames k) = Some st ->
  (recorded_cnt_ st f = 0 -> f <= to_frame_id (replacer_size_ st) ->
   Remove st f = Ok st tt) /\
  (recorded_cnt_ st f <> 0 -> evictable_ st f = false ->
   Remove st f = Throw st) /\
  (recorded_cnt_ st f <> 0 -> evictable_ st f = true ->
   exists st',
     Remove st f = Ok st' tt /\
     hist st' f = [] /\ recorded_cnt_ st' f = 0 /\
     ~ in_new st' f /\ ~ in_cache st' f /\
     Size st' = Size st - 1 /\
     forall g, g <> f ->
       recorded_cnt_ st' g = recorded_cnt_ st g /\ hist st' g = hist st g /\
       (in_new st' g <-> in_new st g) /\ (in_cache st' g <-> in_cache st g)).
Proof.
  intros Hk Hlen Hrun.
  destruct (reachable_good _ _ _ _ Hk Hlen Hrun) as [Hg Hts].
  pose proof Hg as [Hl H]. rewrite Remove_eq by assumption.
  pose proof (inv_cnt st H f) as Hc. pose proof (inv_ts st H) as Ht.
  pose proof (inv_curr st H) as Hcur.
  pose proof (count_nonneg (evictable_ st) (new_frame_ st)) as Hn0.
  pose proof (count_nonneg (evictable_ st) (map fst (cache_frame_ st))) as Hq0.
  pose proof (count_le_length (evictable_ st) (new_frame_ st)) as Hn1.
  pose proof (count_le_length (evictable_ st) (map fst (cache_frame_ st))) as Hq1.
  rewrite length_map in Hq1. pose proof (inv_len st H) as Hlq.
  split; [|split].
  - intros E Hr. destruct (Z.gtb_spec f (to_frame_id (replacer_size_ st)));
      [lia|]. now rewrite E.
  - intros E Hev. pose proof (inv_range st H f E).
    destruct (Z.gtb_spec f (to_frame_id (replacer_size_ st))); [lia|].
    destruct (Z.eqb_spec (recorded_cnt_ st f) 0); [contradiction|].
    now rewrite Hev.
  - intros E Hev. pose proof (inv_range st H f E).
    destruct (Z.gtb_spec f (to_frame_id (replacer_size_ st))); [lia|].
    destruct (Z.eqb_spec (recorded_cnt_ st f) 0); [contradiction|].
    rewrite Hev. simpl.
    destruct (Z.ltb_spec (recorded_cnt_ st f) (k_ st)) as [L|L].
    + assert (Hin : In f (new_frame_ st)) by (apply (inv_new st H); lia).
      assert (Hnc : ~ In f (map fst (cache_frame_ st)))
        by (rewrite (inv_cache st H); lia).
      pose proof (count_pos _ _ f Hin Hev).
      exists (drop_new st f). unfold in_new, in_cache, Size. simpl.
      rewrite !upd_same. repeat split; auto.
      * rewrite erase_new_In by apply (inv_new_nodup st H). tauto.
      * apply size_t_decr_small. lia.
      * now apply upd_other.
      * now apply upd_other.
      * rewrite erase_new_In by apply (inv_new_nodup st H). tauto.
      * rewrite erase_new_In by apply (inv_new_nodup st H). tauto.
    + assert (Hin : In f (map fst (cache_frame_ st)))
        by (now apply (inv_cache st H)).
      assert (Hnc : ~ In f (new_frame_ st)) by (rewrite (inv_new st H); lia).
      pose proof (count_pos _ _ f Hin Hev).
      exists (drop_cache st f). unfold in_new, in_cache, Size. simpl.
      rewrite !upd_same, erase_cache_fst. repeat split; auto.
      * rewrite erase_new_In by apply (inv_cache_nodup st H). tauto.
      * apply size_t_decr_small. lia.
      * now apply upd_other.
      * now apply upd_other.
      * rewrite erase_new_In by apply (inv_cache_nodup st H). tauto.
      * rewrite erase_new_In by apply (inv_cache_nodup st H). tauto.
Qed.

(** C10 ([SetEvictable] twice).  On a replacer whose mutex is free,
    [SetEvictable(f, b)] on a tracked frame whose flag is already [b]
    returns and changes nothing, [Size] and [max_size_] included; and
    after any call [SetEvictable(f, b)] the same call again changes
    nothing. *)
Theorem SetEvictable_idempotent (st : Replacer) (f : frame_id_t) (b : bool) :
  latch_ st = false ->
  (recorded_cnt_ st f <> 0 -> evictable_ st f = b ->
   exists st', SetEvictable st f b = Ok st' tt /\ same_replacer st' st /\
               Size st' = Size st /\ max_size_ st' = max_size_ st) /\
  (forall st1, SetEvictable st f b = Ok st1 tt ->
   exists st2, SetEvictable st1 f b = Ok st2 tt /\ same_replacer st2 st1).
Proof.
  intros Hl.
  assert (Hsame : forall s, recorded_cnt_ s f <> 0 -> evictable_ s f = b ->
                            same_replacer (toggle s f b) s /\
                            max_size_ (toggle s f b) = max_size_ s /\
                            curr_size_ (toggle s f b) = curr_size_ s).
  { intros s Hc Hev. unfold toggle, same_replacer. rewrite Hev.
    destruct b; simpl; repeat split; auto;
      intros g; unfold upd; destruct (Z.eqb_spec g f) as [->|]; auto. }
  assert (Hrefl : forall s, same_replacer s s).
  { intros s. unfold same_replacer. repeat split; auto. }
  split.
  - intros Hc Hev. rewrite SetEvictable_eq by assumption.
    destruct (Z.eqb_spec (recorded_cnt_ st f) 0); [contradiction|].
    exists (toggle st f b). destruct (Hsame st Hc Hev) as (S1 & S2 & S3).
    unfold Size. auto.
  - intros st1. rewrite SetEvictable_eq by assumption.
    destruct (Z.eqb_spec (recorded_cnt_ st f) 0) as [E|E]; intros Hst1;
      injection Hst1 as <-.
    + rewrite SetEvictable_eq by assumption.
      destruct (Z.eqb_spec (recorded_cnt_ st f) 0); [|contradiction].
      exists st. auto.
    + rewrite SetEvictable_eq by (now rewrite toggle_latch).
      rewrite toggle_cnt.
      destruct (Z.eqb_spec (recorded_cnt_ st f) 0); [contradiction|].
      exists (toggle (toggle st f b) f b). split; [reflexivity|].
      apply Hsame.
      * now rewrite toggle_cnt.
      * unfold toggle. destruct (evictable_ st f), b; simpl;
          now rewrite upd_same.
Qed.

(** *** The scenario of the design document and other runs *)

(** K = 2, three frames: [RecordAccess(1)], [RecordAccess(2)],
    [RecordAccess(3)], [RecordAccess(1)]. *)
Definition scenario : list op :=
  [OpRecordAccess 1; OpRecordAccess 2; OpRecordAccess 3; OpRecordAccess 1].

(** The replacer after the scenario: frame 1 was accessed at ticks 1 and
    4 and sits in the at/above-K queue with the stamp 1, frames 3 and 2 are
    in the below-K queue, the younger first. *)
Definition scenario_state : Replacer :=
  mkReplacer 3 2 3 3 4
    (upd (upd (upd (upd (fun _ => []) 1 [1]) 2 [2]) 3 [3]) 1 [1; 4])
    (upd (upd (upd (upd (fun _ => 0) 1 1) 2 1) 3 1) 1 2)
    (upd (upd (upd (fun _ => false) 1 true) 2 true) 3 true)
    [3; 2] [(1, 1)] false.

Lemma scenario_run : run scenario (new_replacer 3 2) = Some scenario_state.
Proof. vm_compute. reflexivity. Qed.

(** C3, the claim as stated fails: the first [Evict] after the scenario
    does not hand back frame 3. *)
Lemma scenario_first_victim_not_3 :
  run scenario (new_replacer 3 2) = Some scenario_state /\
  victim (Evict scenario_state) <> Some 3.
Proof.
  split; [vm_compute; reflexivity|]. vm_compute. discriminate.
Qed.

(** C3 (scenario, as the code has it).  After the scenario the three
    frames are evictable, frame 1 is in the at/above-K queue and frames 3
    and 2 in the below-K queue; the first [Evict] hands back frame 2, the
    frame of the below-K queue that was accessed first, and the next
    [Evict] hands back frame 3. *)
Theorem scenario_victims :
  run scenario (new_replacer 3 2) = Some scenario_state /\
  new_frame_ scenario_state = [3; 2] /\
  map fst (cache_frame_ scenario_state) = [1] /\
  map (evictable_ scenario_state) [1; 2; 3] = [true; true; true] /\
  Evict scenario_state = Ok (drop_new scenario_state 2) (Some 2) /\
  Evict (drop_new scenario_state 2)
  = Ok (drop_new (drop_new scenario_state 2) 3) (Some 3).
Proof.
  split; [vm_compute; reflexivity|]. split; [reflexivity|].
  split; [reflexivity|]. split; [reflexivity|].
  split; vm_compute; reflexivity.
Qed.

(** C7, the claim as stated fails: with three frames, the frame id 3 is
    accepted by [RecordAccess], which records the access and queues the
    frame, and by [Remove]. *)
Lemma frame_id_at_capacity_accepted :
  RecordAccess (new_replacer 3 2) 3 = Ok (accessed (new_replacer 3 2) 3) tt /\
  recorded_cnt_ (accessed (new_replacer 3 2) 3) 3 = 1 /\
  new_frame_ (accessed (new_replacer 3 2) 3) = [3] /\
  Size (accessed (new_replacer 3 2) 3) = 1 /\
  Remove (new_replacer 3 2) 3 = Ok (new_replacer 3 2) tt.
Proof.
  split; [vm_compute; reflexivity|]. split; [vm_compute; reflexivity|].
  split; [vm_compute; reflexivity|]. split; vm_compute; reflexivity.
Qed.

Lemma out_of_range_frame_id_witness :
  latch_ (new_replacer 3 2) = false /\
  (4 > to_frame_id (replacer_size_ (new_replacer 3 2)) ->
   RecordAccess (new_replacer 3 2) 4 = Throw (new_replacer 3 2) /\
   Remove (new_replacer 3 2) 4 = Throw (new_replacer 3 2)) /\
  (4 <= to_frame_id (replacer_size_ (new_replacer 3 2)) ->
   forall st', RecordAccess (new_replacer 3 2) 4 <> Throw st').
Proof.
  split; [reflexivity|].
  exact (out_of_range_frame_id (new_replacer 3 2) 4 eq_refl).
Defined.

(** The first access of a frame, when the replacer is at its capacity,
    calls [Evict] with the mutex held. *)
Lemma RecordAccess_at_capacity st f :
  latch_ st = false ->
  f <= to_frame_id (replacer_size_ st) ->
  recorded_cnt_ st f = 0 ->
  curr_size_ st = max_size_ st ->
  RecordAccess st f = Deadlock.
Proof.
  intros Hl Hf Hc Hm. rewrite RecordAccess_accessed by assumption.
  destruct (Z.gtb_spec f (to_frame_id (replacer_size_ st))); [lia|].
  rewrite Hc, Hm, !Z.eqb_refl. reflexivity.
Qed.

(** C9 (no second acquisition of the lock), on the code.  With one frame
    and K = 2, after [RecordAccess(0)] the replacer is at its capacity;
    [RecordAccess(1)], which the range check lets through, is the first
    access of frame 1 and calls the public [Evict], which takes the mutex
    that [RecordAccess] holds: the call never returns. *)
Theorem RecordAccess_self_deadlock :
  run [OpRecordAccess 0] (new_replacer 1 2)
  = Some (accessed (new_replacer 1 2) 0) /\
  Size (accessed (new_replacer 1 2) 0) = 1 /\
  max_size_ (accessed (new_replacer 1 2) 0) = 1 /\
  RecordAccess (accessed (new_replacer 1 2) 0) 1 = Deadlock /\
  run [OpRecordAccess 0; OpRecordAccess 1] (new_replacer 1 2) = None.
Proof.
  split; [vm_compute; reflexivity|]. split; [vm_compute; reflexivity|].
  split; [vm_compute; reflexivity|]. split; vm_compute; reflexivity.
Qed.

Lemma Evict_order_witness :
  1 <= 2 < 2 ^ 64 /\ Z.of_nat (length scenario) < 2 ^ 64 /\
  run scenario (new_replacer 3 2) = Some scenario_state /\
  exists st' v,
    Evict scenario_state = Ok st' v /\
    match v with
    | Some f =>
        evictable_ scenario_state f = true /\
        ((below_K scenario_state f /\
          forall g, below_K scenario_state g ->
                    evictable_ scenario_state g = true -> g <> f ->
                    first_access scenario_state f
                    < first_access scenario_state g)
         \/
         ((forall g, below_K scenario_state g ->
                     evictable_ scenario_state g = false) /\
          at_least_K scenario_state f /\
          forall g, at_least_K scenario_state g ->
                    evictable_ scenario_state g = true -> g <> f ->
                    kth_recent_access scenario_state f
                    < kth_recent_access scenario_state g))
    | None =>
        forall g, below_K scenario_state g \/ at_least_K scenario_state g ->
                  evictable_ scenario_state g = false
    end.
Proof.
  assert (H1 : 1 <= 2 < 2 ^ 64) by lia.
  assert (H2 : Z.of_nat (length scenario) < 2 ^ 64) by (simpl; lia).
  assert (H3 : run scenario (new_replacer 3 2) = Some scenario_state)
    by (vm_compute; reflexivity).
  split; [exact H1|]. split; [exact H2|]. split; [exact H3|].
  exact (Evict_order 3 2 scenario scenario_state H1 H2 H3).
Defined.

Lemma queue_membership_witness :
  1 <= 2 < 2 ^ 64 /\ Z.of_nat (length scenario) + 1 < 2 ^ 64 /\
  run scenario (new_replacer 3 2) = Some scenario_state /\
  placed scenario_state /\
  forall o st', exec scenario_state o = Some st' ->
    placed st' /\
    forall f,
      (recorded_cnt_ st' f = recorded_cnt_ scenario_state f \/
       (o = OpRecordAccess f /\
        recorded_cnt_ st' f = recorded_cnt_ scenario_state f + 1) \/
       ((o = OpEvict \/ o = OpRemove f) /\ recorded_cnt_ st' f = 0)) /\
      (in_new scenario_state f -> in_cache st' f ->
       o = OpRecordAccess f /\ recorded_cnt_ st' f = k_ st') /\
      (in_cache scenario_state f -> ~ in_new st' f).
Proof.
  assert (H1 : 1 <= 2 < 2 ^ 64) by lia.
  assert (H2 : Z.of_nat (length scenario) + 1 < 2 ^ 64) by (simpl; lia).
  assert (H3 : run scenario (new_replacer 3 2) = Some scenario_state)
    by (vm_compute; reflexivity).
  split; [exact H1|]. split; [exact H2|]. split; [exact H3|].
  exact (queue_membership 3 2 scenario scenario_state H1 H2 H3).
Defined.

Lemma Remove_semantics_witness :
  1 <= 2 < 2 ^ 64 /\ Z.of_nat (length scenario) < 2 ^ 64 /\
  run scenario (new_replacer 3 2) = Some scenario_state /\
  (recorded_cnt_ scenario_state 2 = 0 ->
   2 <= to_frame_id (replacer_size_ scenario_state) ->
   Remove scenario_state 2 = Ok scenario_state tt) /\
  (recorded_cnt_ scenario_state 2 <> 0 ->
   evictable_ scenario_state 2 = false ->
   Remove scenario_state 2 = Throw scenario_state) /\
  (recorded_cnt_ scenario_state 2 <> 0 ->
   evictable_ scenario_state 2 = true ->
   exists st',
     Remove scenario_state 2 = Ok st' tt /\
     hist st' 2 = [] /\ recorded_cnt_ st' 2 = 0 /\
     ~ in_new st' 2 /\ ~ in_cache st' 2 /\
     Size st' = Size scenario_state - 1 /\
     forall g, g <> 2 ->
       recorded_cnt_ st' g = recorded_cnt_ scenario_state g /\
       hist st' g = hist scenario_state g /\
       (in_new st' g <-> in_new scenario_state g) /\
       (in_cache st' g <-> in_cache scenario_state g)).
Proof.
  assert (H1 : 1 <= 2 < 2 ^ 64) by lia.
  assert (H2 : Z.of_nat (length scenario) < 2 ^ 64) by (simpl; lia).
  assert (H3 : run scenario (new_replacer 3 2) = Some scenario_state)
    by (vm_compute; reflexivity).
  split; [exact H1|]. split; [exact H2|]. split; [exact H3|].
  exact (Remove_semantics 3 2 scenario scenario_state 2 H1 H2 H3).
Defined.

Lemma SetEvictable_idempotent_witness :
  latch_ scenario_state = false /\
  (recorded_cnt_ scenario_state 2 <> 0 ->
   evictable_ scenario_state 2 = true ->
   exists st', SetEvictable scenario_state 2 true = Ok st' tt /\
               same_replacer st' scenario_state /\
               Size st' = Size scenario_state /\
               max_size_ st' = max_size_ scenario_state) /\
  (forall st1, SetEvictable scenario_state 2 true = Ok st1 tt ->
   exists st2, SetEvictable st1 2 true = Ok st2 tt /\ same_replacer st2 st1).
Proof.
  split; [reflexivity|].
  exact (SetEvictable_idempotent scenario_state 2 true eq_refl).
Defined.

(** ** Further properties of the replacer *)

(** *** Capacity accounting *)

Lemma erase_first_length_found {A : Type} (p : A -> bool) (q : list A) x :
  In x q -> p x = true -> S (length (erase_first p q)) = length q.
Proof.
  induction q as [|y r IH]; simpl; intros Hin Hp; [contradiction|].
  destruct (p y) eqn:E; [reflexivity|].
  destruct Hin as [->|Hin]; [congruence|]. simpl. now rewrite IH.
Qed.

Lemma erase_new_length q f :
  In f q -> S (length (erase_new q f)) = length q.
Proof.
  intros H. apply (erase_first_length_found _ q f H). apply Z.eqb_refl.
Qed.

Lemma erase_cache_length q f :
  In f (map fst q) -> S (length (erase_cache q f)) = length q.
Proof.
  intros H. apply in_map_iff in H. destruct H as (e & <- & He).
  apply (erase_first_length_found _ q e He). apply Z.eqb_refl.
Qed.

Lemma count_lt_length ev q g :
  In g q -> ev g = false -> count ev q + 1 <= Z.of_nat (length q).
Proof.
  induction q as [|y r IH]; simpl; intros Hin Hg; [contradiction|].
  rewrite count_cons, Nat2Z.inj_succ.
  pose proof (count_le_length ev r).
  destruct Hin as [->|Hin]; [rewrite Hg; lia|].
  specialize (IH Hin Hg). destruct (ev y); lia.
Qed.

(** Number of tracked frames: the nodes of the two queues. *)
Definition tracked_count (st : Replacer) : Z :=
  Z.of_nat (length (new_frame_ st)) + Z.of_nat (length (cache_frame_ st)).

(** What [RecordAccess] does to the counters and flags. *)
Lemma accessed_sizes st f :
  Inv st -> current_timestamp_ st < 2 ^ 64 - 1 ->
  replacer_size_ (accessed st f) = replacer_size_ st /\
  max_size_ (accessed st f) = max_size_ st /\
  current_timestamp_ (accessed st f) = current_timestamp_ st + 1 /\
  (forall g, g <> f -> evictable_ (accessed st f) g = evictable_ st g) /\
  (recorded_cnt_ st f = 0 ->
   curr_size_ (accessed st f) = curr_size_ st + 1 /\
   tracked_count (accessed st f) = tracked_count st + 1 /\
   evictable_ (accessed st f) f = true) /\
  (recorded_cnt_ st f <> 0 ->
   curr_size_ (accessed st f) = curr_size_ st /\
   tracked_count (accessed st f) = tracked_count st /\
   evictable_ (accessed st f) f = evictable_ st f).
Proof.
  destruct st as [n k mx cur ts h c ev nq cq l]. intros H Hsmall.
  inv_open H. unfold accessed, touch, tracked_count. simpl.
  pose proof (Hcnt f) as Hcf.
  rewrite (size_t_incr_small ts) by lia.
  rewrite (size_t_incr_small (c f)) by lia.
  rewrite !upd_same.
  pose proof (count_nonneg ev nq) as Hc0.
  pose proof (count_nonneg ev (map fst cq)) as Hc0'.
  pose proof (count_le_length ev nq) as Hc1.
  pose proof (count_le_length ev (map fst cq)) as Hc2.
  rewrite length_map in Hc2.
  destruct (Z.eqb_spec (c f + 1) 1) as [E1|E1].
  - assert (Hc : c f = 0) by lia.
    unfold promote, enter. simpl. rewrite !upd_same.
    rewrite (size_t_incr_small cur) by lia.
    destruct (Z.eqb_spec (c f + 1) k) as [Ek|Ek]; simpl.
    + unfold erase_new. simpl. rewrite Z.eqb_refl.
      rewrite insert_upper_bound_length, upd_same.
      repeat split; try lia; try (intros; lia).
      intros g Hg. now apply upd_other.
    + destruct (Z.gtb_spec (c f + 1) k) as [Gk|Gk]; [lia|]. simpl.
      rewrite upd_same. repeat split; try lia; try (intros; lia).
      intros g Hg. now apply upd_other.
  - assert (Hc : c f <> 0) by lia.
    unfold promote. simpl. rewrite !upd_same.
    destruct (Z.eqb_spec (c f + 1) k) as [Ek|Ek]; simpl.
    + assert (Hn1 : In f nq) by (rewrite Hnew; lia).
      pose proof (erase_new_length nq f Hn1).
      rewrite insert_upper_bound_length.
      repeat split; try lia; try (intros; lia).
    + destruct (Z.gtb_spec (c f + 1) k) as [Gk|Gk]; simpl.
      * assert (Hn2 : In f (map fst cq)) by (rewrite Hcache; lia).
        pose proof (erase_cache_length cq f Hn2).
        rewrite insert_upper_bound_length.
        repeat split; try lia; try (intros; lia).
      * repeat split; try lia; try (intros; lia).
Qed.

(** The capacity ceiling and the pinned frames make up the number of
    frames, and [Size] never passes the ceiling. *)
Record Capacity (st : Replacer) : Prop := mkCapacity {
  cap_frames : 0 <= replacer_size_ st < 2 ^ 64;
  cap_sum : max_size_ st + (tracked_count st - curr_size_ st)
            = replacer_size_ st;
  cap_ceiling : curr_size_ st <= max_size_ st
}.

Lemma Inv_counts st :
  Inv st ->
  0 <= curr_size_ st <= tracked_count st /\
  tracked_count st <= current_timestamp_ st.
Proof.
  intros H. unfold tracked_count. rewrite (inv_curr st H).
  pose proof (count_nonneg (evictable_ st) (new_frame_ st)).
  pose proof (count_nonneg (evictable_ st) (map fst (cache_frame_ st))).
  pose proof (count_le_length (evictable_ st) (new_frame_ st)).
  pose proof (count_le_length (evictable_ st) (map fst (cache_frame_ st))) as Hc.
  rewrite length_map in Hc. pose proof (inv_len st H). lia.
Qed.

Lemma new_replacer_Capacity num_frames k :
  0 <= num_frames < 2 ^ 64 -> Capacity (new_replacer num_frames k).
Proof.
  intros H. constructor; unfold tracked_count; simpl; lia.
Qed.

Lemma drop_new_Capacity st f :
  Inv st -> Capacity st -> In f (new_frame_ st) -> evictable_ st f = true ->
  Capacity (drop_new st f).
Proof.
  intros H [C1 C2 C3] Hin Hev. pose proof (Inv_counts st H) as Hc.
  pose proof (count_pos _ _ f Hin Hev) as Hp.
  pose proof (count_nonneg (evictable_ st) (map fst (cache_frame_ st))).
  pose proof (inv_curr st H) as Hcur. pose proof (inv_ts st H).
  pose proof (erase_new_length _ f Hin) as Hl.
  constructor; unfold tracked_count in *; simpl;
    rewrite ?size_t_decr_small by lia; lia.
Qed.

Lemma drop_cache_Capacity st f :
  Inv st -> Capacity st -> In f (map fst (cache_frame_ st)) ->
  evictable_ st f = true -> Capacity (drop_cache st f).
Proof.
  intros H [C1 C2 C3] Hin Hev. pose proof (Inv_counts st H) as Hc.
  pose proof (count_pos _ _ f Hin Hev) as Hp.
  pose proof (count_nonneg (evictable_ st) (new_frame_ st)).
  pose proof (inv_curr st H) as Hcur. pose proof (inv_ts st H).
  pose proof (erase_cache_length _ f Hin) as Hl.
  constructor; unfold tracked_count in *; simpl;
    rewrite ?size_t_decr_small by lia; lia.
Qed.

(** What [SetEvictable] does on a tracked frame. *)
Lemma toggle_sizes st f b :
  Inv st -> Capacity st -> recorded_cnt_ st f <> 0 ->
  tracked_count (toggle st f b) = tracked_count st /\
  replacer_size_ (toggle st f b) = replacer_size_ st /\
  evictable_ (toggle st f b) = upd (evictable_ st) f b /\
  curr_size_ (toggle st f b)
  = curr_size_ st - (if evictable_ st f then 1 else 0) + (if b then 1 else 0) /\
  max_size_ (toggle st f b)
  = max_size_ st - (if evictable_ st f then 1 else 0) + (if b then 1 else 0).
Proof.
  intros H [C1 C2 C3] Hf. pose proof (Inv_counts st H) as Hc.
  pose proof (inv_ts st H) as Hts. pose proof (inv_curr st H) as Hcur.
  pose proof (inv_cnt st H f) as Hcf.
  assert (Hq : In f (new_frame_ st) \/ In f (map fst (cache_frame_ st))).
  { destruct (Z.lt_ge_cases (recorded_cnt_ st f) (k_ st));
      [left; apply (inv_new st H); lia|right; now apply (inv_cache st H)]. }
  assert (Hpos : evictable_ st f = true -> 1 <= curr_size_ st).
  { intros Hev. rewrite Hcur.
    pose proof (count_nonneg (evictable_ st) (new_frame_ st)).
    pose proof (count_nonneg (evictable_ st) (map fst (cache_frame_ st))).
    destruct Hq as [Hq|Hq]; pose proof (count_pos _ _ f Hq Hev); lia. }
  assert (Hpin : evictable_ st f = false ->
                 curr_size_ st + 1 <= tracked_count st).
  { intros Hev. rewrite Hcur. unfold tracked_count.
    pose proof (count_le_length (evictable_ st) (new_frame_ st)).
    pose proof (count_le_length (evictable_ st) (map fst (cache_frame_ st))) as Hm.
    pose proof (count_lt_length (evictable_ st) (map fst (cache_frame_ st)) f) as Hm'.
    rewrite length_map in Hm, Hm'.
    destruct Hq as [Hq|Hq];
      [pose proof (count_lt_length _ _ f Hq Hev)|specialize (Hm' Hq Hev)]; lia. }
  unfold toggle, tracked_count in *.
  destruct (evictable_ st f) eqn:Ev, b; simpl;
    rewrite ?size_t_decr_small, ?size_t_incr_small by
      (try specialize (Hpos eq_refl); try specialize (Hpin eq_refl); lia);
    repeat split; lia.
Qed.

Lemma toggle_Capacity st f b :
  Inv st -> Capacity st -> recorded_cnt_ st f <> 0 -> Capacity (toggle st f b).
Proof.
  intros H C Hf. destruct (toggle_sizes st f b H C Hf) as (T1 & T2 & _ & T3 & T4).
  destruct C as [C1 C2 C3]. constructor; rewrite ?T1, ?T2, ?T3, ?T4; lia.
Qed.

Lemma accessed_Capacity st f :
  Inv st -> Capacity st -> current_timestamp_ st < 2 ^ 64 - 1 ->
  (recorded_cnt_ st f = 0 -> curr_size_ st <> max_size_ st) ->
  Capacity (accessed st f).
Proof.
  intros H [C1 C2 C3] Hs Hroom.
  destruct (accessed_sizes st f H Hs) as (A1 & A2 & _ & _ & A3 & A4).
  destruct (Z.eq_dec (recorded_cnt_ st f) 0) as [E|E].
  - destruct (A3 E) as (B1 & B2 & _). specialize (Hroom E).
    constructor; rewrite ?A1, ?A2, ?B1, ?B2; lia.
  - destruct (A4 E) as (B1 & B2 & _).
    constructor; rewrite ?A1, ?A2, ?B1, ?B2; lia.
Qed.

Lemma exec_Capacity st o st' :
  good st -> Capacity st -> current_timestamp_ st < 2 ^ 64 - 1 ->
  exec st o = Some st' -> Capacity st'.
Proof.
  intros Hg C Hsmall He. pose proof Hg as [Hl H].
  pose proof (inv_cnt st H) as Hcnt.
  destruct o as [f| |f b|f|]; simpl in He.
  - rewrite RecordAccess_accessed in He by assumption.
    destruct (f >? _); [simpl in He; now injection He as <-|].
    destruct (Z.eqb_spec (size_t_incr (recorded_cnt_ st f)) 1) as [E1|E1],
             (Z.eqb_spec (curr_size_ st) (max_size_ st)) as [E2|E2];
      simpl in He; try discriminate; injection He as <-;
      apply accessed_Capacity; auto.
    intros E. rewrite E in E1. now compute in E1.
  - rewrite Evict_good in He by assumption.
    destruct (Size st =? 0); [simpl in He; now injection He as <-|].
    destruct (find (evictable_ st) (rev (new_frame_ st))) as [f|] eqn:E1.
    { simpl in He. injection He as <-. apply find_rev_some in E1.
      now apply drop_new_Capacity. }
    destruct (find _ (cache_frame_ st)) as [e|] eqn:E2;
      simpl in He; injection He as <-; [|assumption].
    apply find_some in E2. apply drop_cache_Capacity; try tauto.
    apply in_map. tauto.
  - rewrite SetEvictable_eq in He by assumption.
    destruct (Z.eqb_spec (recorded_cnt_ st f) 0); simpl in He;
      injection He as <-; [assumption|now apply toggle_Capacity].
  - rewrite Remove_eq in He by assumption.
    destruct (f >? _); [simpl in He; now injection He as <-|].
    destruct (Z.eqb_spec (recorded_cnt_ st f) 0) as [E|E];
      [simpl in He; now injection He as <-|].
    destruct (evictable_ st f) eqn:Ev; simpl in He;
      [|now injection He as <-].
    destruct (Z.ltb_spec (recorded_cnt_ st f) (k_ st)) as [L|L];
      simpl in He; injection He as <-.
    + apply drop_new_Capacity; auto. apply (inv_new st H).
      specialize (Hcnt f). lia.
    + apply drop_cache_Capacity; auto. now apply (inv_cache st H).
  - now injection He as <-.
Qed.

Lemma run_Capacity ops : forall st st',
  good st -> Capacity st ->
  current_timestamp_ st + Z.of_nat (length ops) < 2 ^ 64 ->
  run ops st = Some st' -> Capacity st'.
Proof.
  induction ops as [|o r IH]; intros st st' Hg C Hb Hr; simpl in *.
  - now injection Hr as <-.
  - destruct (exec st o) as [st1|] eqn:E; [|discriminate].
    destruct (exec_good st o st1 Hg ltac:(lia) E) as [Hg1 Ht1].
    pose proof (exec_Capacity st o st1 Hg C ltac:(lia) E) as C1.
    apply (IH st1 st' Hg1 C1); [lia|exact Hr].
Qed.

Lemma reachable_Capacity num_frames k ops st :
  1 <= k < 2 ^ 64 -> 0 <= num_frames < 2 ^ 64 ->
  Z.of_nat (length ops) < 2 ^ 64 ->
  run ops (new_replacer num_frames k) = Some st -> Capacity st.
Proof.
  intros Hk Hn Hlen Hrun.
  apply (run_Capacity ops (new_replacer num_frames k) st); auto.
  - now apply new_replacer_good.
  - now apply new_replacer_Capacity.
Qed.

(** *** Frame ids below the number of frames *)

(** Every [RecordAccess] of [ops] names a frame id from 0 to
    [num_frames - 1]. *)
Definition valid_ids (num_frames : Z) (ops : list op) : bool :=
  forallb (fun o => match o with
                    | OpRecordAccess f => (0 <=? f) && (f <? num_frames)
                    | _ => true
                    end) ops.

Definition ids_in_range (st : Replacer) : Prop :=
  forall f, recorded_cnt_ st f <> 0 -> 0 <= f < replacer_size_ st.

Lemma exec_replacer_size st o st' :
  good st -> current_timestamp_ st < 2 ^ 64 - 1 ->
  exec st o = Some st' -> replacer_size_ st' = replacer_size_ st.
Proof.
  intros [Hl H] Hsmall He.
  destruct o as [f| |f b|f|]; simpl in He.
  - rewrite RecordAccess_accessed in He by assumption.
    destruct (f >? _); [simpl in He; now injection He as <-|].
    destruct (_ && _); [discriminate|]. simpl in He. injection He as <-.
    now apply accessed_sizes.
  - rewrite Evict_good in He by (split; assumption).
    destruct (Size st =? 0); [simpl in He; now injection He as <-|].
    destruct (find (evictable_ st) (rev (new_frame_ st)));
      [simpl in He; now injection He as <-|].
    destruct (find _ (cache_frame_ st)); simpl in He; now injection He as <-.
  - rewrite SetEvictable_eq in He by assumption.
    destruct (recorded_cnt_ st f =? 0); simpl in He; injection He as <-;
      [reflexivity|].
    unfold toggle. destruct (evictable_ st f), b; reflexivity.
  - rewrite Remove_eq in He by assumption.
    destruct (f >? _); [simpl in He; now injection He as <-|].
    destruct (recorded_cnt_ st f =? 0); [simpl in He; now injection He as <-|].
    destruct (evictable_ st f); simpl in He; [|now injection He as <-].
    destruct (recorded_cnt_ st f <? k_ st); simpl in He; now injection He as <-.
  - now injection He as <-.
Qed.

Lemma exec_ids_in_range st o st' :
  good st -> current_timestamp_ st < 2 ^ 64 - 1 ->
  ids_in_range st -> valid_ids (replacer_size_ st) [o] = true ->
  exec st o = Some st' -> ids_in_range st'.
Proof.
  intros Hg Hsmall Hids Hv He f Hf.
  rewrite (exec_replacer_size st o st' Hg Hsmall He).
  destruct (exec_cnt st o st' f Hg Hsmall He) as [_ [E|[[Eo E]|[_ E]]]].
  - apply Hids. congruence.
  - subst o. simpl in Hv. rewrite andb_true_r in Hv.
    apply andb_prop in Hv. destruct Hv as [H1 H2].
    apply Z.leb_le in H1. apply Z.ltb_lt in H2. lia.
  - congruence.
Qed.

(** A list of [n] different numbers below [n] holds every number below
    [n]. *)
Lemma full_range (l : list Z) n :
  NoDup l -> (forall x, In x l -> 0 <= x < n) -> Z.of_nat (length l) = n ->
  forall f, 0 <= f < n -> In f l.
Proof.
  intros Hnd Hr Hlen f Hf.
  assert (Hincl : incl (map Z.of_nat (seq 0 (Z.to_nat n))) l).
  { apply NoDup_length_incl; [assumption|rewrite length_map, length_seq; lia|].
    intros x Hx. specialize (Hr x Hx). apply in_map_iff.
    exists (Z.to_nat x). split; [lia|]. apply in_seq. lia. }
  apply Hincl. apply in_map_iff. exists (Z.to_nat f). split; [lia|].
  apply in_seq. lia.
Qed.

Lemma tracked_NoDup st :
  Inv st -> NoDup (new_frame_ st ++ map fst (cache_frame_ st)).
Proof.
  intros H. apply NoDup_app;
    [apply (inv_new_nodup st H)|apply (inv_cache_nodup st H)|].
  intros f Hn Hc. apply (inv_new st H) in Hn. apply (inv_cache st H) in Hc. lia.
Qed.

(** With valid frame ids the replacer is never at its capacity when a frame
    is accessed for the first time. *)
Lemma room_for_new_frame st f :
  Inv st -> Capacity st -> ids_in_range st ->
  0 <= f < replacer_size_ st -> recorded_cnt_ st f = 0 ->
  curr_size_ st <> max_size_ st.
Proof.
  intros H [C1 C2 C3] Hids Hf Hc E.
  assert (Hin : In f (new_frame_ st ++ map fst (cache_frame_ st))).
  { apply (full_range _ (replacer_size_ st)); auto.
    - now apply tracked_NoDup.
    - intros x Hx. apply Hids. pose proof (inv_k st H).
      apply in_app_or in Hx. destruct Hx as [Hx|Hx];
        [apply (inv_new st H) in Hx|apply (inv_cache st H) in Hx]; lia.
    - rewrite length_app, length_map, Nat2Z.inj_add.
      unfold tracked_count in C2. lia. }
  pose proof (inv_k st H).
  apply in_app_or in Hin. destruct Hin as [Hx|Hx];
    [apply (inv_new st H) in Hx|apply (inv_cache st H) in Hx]; lia.
Qed.

Lemma run_valid_ids ops : forall st,
  good st -> Capacity st -> ids_in_range st ->
  current_timestamp_ st + Z.of_nat (length ops) < 2 ^ 64 ->
  valid_ids (replacer_size_ st) ops = true ->
  exists st', run ops st = Some st'.
Proof.
  induction ops as [|o r IH]; intros st Hg C Hids Hb Hv; simpl in *; [eauto|].
  apply andb_prop in Hv. destruct Hv as [Hv1 Hv2].
  assert (Hsmall : current_timestamp_ st < 2 ^ 64 - 1) by lia.
  assert (Hex : exists st1, exec st o = Some st1).
  { pose proof Hg as [Hl H].
    destruct o as [f| |f b|f|]; simpl.
    - rewrite RecordAccess_accessed by assumption.
      destruct (f >? _); [simpl; eauto|].
      apply andb_prop in Hv1. destruct Hv1 as [H1 H2].
      apply Z.leb_le in H1. apply Z.ltb_lt in H2.
      destruct (Z.eqb_spec (size_t_incr (recorded_cnt_ st f)) 1) as [E1|E1],
               (Z.eqb_spec (curr_size_ st) (max_size_ st)) as [E2|E2];
        simpl; eauto.
      exfalso. pose proof (inv_cnt st H f) as Hc.
      rewrite size_t_incr_small in E1 by lia.
      apply (room_for_new_frame st f H C Hids); auto; lia.
    - rewrite Evict_good by assumption.
      destruct (Size st =? 0); [simpl; eauto|].
      destruct (find (evictable_ st) (rev (new_frame_ st))); [simpl; eauto|].
      destruct (find _ (cache_frame_ st)); simpl; eauto.
    - rewrite SetEvictable_eq by assumption.
      destruct (recorded_cnt_ st f =? 0); simpl; eauto.
    - rewrite Remove_eq by assumption.
      destruct (f >? _); [simpl; eauto|].
      destruct (recorded_cnt_ st f =? 0); [simpl; eauto|].
      destruct (evictable_ st f); simpl; [|eauto].
      destruct (recorded_cnt_ st f <? k_ st); simpl; eauto.
    - eauto. }
  destruct Hex as [st1 E]. rewrite E.
  destruct (exec_good st o st1 Hg Hsmall E) as [Hg1 Ht1].
  pose proof (exec_replacer_size st o st1 Hg Hsmall E) as Hn.
  apply IH;
    [exact Hg1
    |exact (exec_Capacity st o st1 Hg C Hsmall E)
    |apply (exec_ids_in_range st o st1 Hg Hsmall Hids);
       [simpl; now rewrite Hv1|exact E]
    |lia
    |now rewrite Hn].
Qed.

(** *** Victims *)

Lemma count_all_false ev q :
  (forall g, In g q -> ev g = false) -> count ev q = 0.
Proof.
  induction q as [|y r IH]; intros H; [reflexivity|].
  rewrite count_cons, (H y) by now left.
  rewrite IH; [reflexivity|]. intros g Hg. apply H. now right.
Qed.

(** What a successful [Evict] does, as a call of [Remove]. *)
Lemma Evict_victim st st' f :
  good st -> Evict st = Ok st' (Some f) ->
  evictable_ st f = true /\ recorded_cnt_ st f <> 0 /\
  Remove st f = Ok st' tt /\
  ((In f (new_frame_ st) /\ st' = drop_new st f) \/
   (In f (map fst (cache_frame_ st)) /\ st' = drop_cache st f)).
Proof.
  intros Hg He. pose proof Hg as [Hl H]. pose proof (inv_k st H) as Hk.
  rewrite Evict_good in He by assumption.
  rewrite Remove_eq by assumption.
  destruct (Size st =? 0); [discriminate|].
  destruct (find (evictable_ st) (rev (new_frame_ st))) as [g|] eqn:E1.
  - injection He as <- <-. apply find_rev_some in E1. destruct E1 as [Hin Hev].
    pose proof Hin as Hc. apply (inv_new st H) in Hc.
    pose proof (inv_range st H g ltac:(lia)) as Hr.
    destruct (Z.gtb_spec g (to_frame_id (replacer_size_ st))); [lia|].
    destruct (Z.eqb_spec (recorded_cnt_ st g) 0); [lia|].
    rewrite Hev. simpl.
    destruct (Z.ltb_spec (recorded_cnt_ st g) (k_ st)); [|lia].
    repeat split; auto; lia.
  - destruct (find _ (cache_frame_ st)) as [e|] eqn:E2; [|discriminate].
    injection He as <- <-. apply find_some in E2. destruct E2 as [Hin Hev].
    assert (Hin' : In (fst e) (map fst (cache_frame_ st))) by now apply in_map.
    pose proof Hin' as Hc. apply (inv_cache st H) in Hc.
    pose proof (inv_range st H (fst e) ltac:(lia)) as Hr.
    destruct (Z.gtb_spec (fst e) (to_frame_id (replacer_size_ st))); [lia|].
    destruct (Z.eqb_spec (recorded_cnt_ st (fst e)) 0); [lia|].
    rewrite Hev. simpl.
    destruct (Z.ltb_spec (recorded_cnt_ st (fst e)) (k_ st)); [lia|].
    repeat split; auto; lia.
Qed.

(** X10.  [Size] is the number of evictable tracked frames.  On a
    replacer built by the constructor (K at least 1) and fewer than
    [2^64] calls, [Size] counts the frames of the two queues whose
    evictable flag is set; it is at least 0 and at most the number of
    tracked frames. *)
Theorem Size_counts_evictable (num_frames k : Z) (ops : list op)
    (st : Replacer) :
  1 <= k < 2 ^ 64 -> Z.of_nat (length ops) < 2 ^ 64 ->
  run ops (new_replacer num_frames k) = Some st ->
  Size st = count (evictable_ st) (new_frame_ st)
            + count (evictable_ st) (map fst (cache_frame_ st)) /\
  0 <= Size st <= tracked_count st.
Proof.
  intros Hk Hlen Hrun.
  destruct (reachable_good num_frames k ops st Hk Hlen Hrun) as [[_ H] _].
  split; [apply (inv_curr st H)|apply (Inv_counts st H)].
Qed.

(** X11.  [Evict] succeeds exactly when [Size] is not 0.  On a replacer
    built by the constructor (K at least 1) and fewer than [2^64] calls:
    with [Size] 0 the call hands back nothing and leaves the replacer as
    it is; otherwise it hands back a frame. *)
Theorem Evict_iff_Size (num_frames k : Z) (ops : list op) (st : Replacer) :
  1 <= k < 2 ^ 64 -> Z.of_nat (length ops) < 2 ^ 64 ->
  run ops (new_replacer num_frames k) = Some st ->
  (Size st = 0 -> Evict st = Ok st None) /\
  (Size st <> 0 -> exists st' f, Evict st = Ok st' (Some f)).
Proof.
  intros Hk Hlen Hrun.
  destruct (reachable_good num_frames k ops st Hk Hlen Hrun) as [Hg _].
  pose proof Hg as [_ H]. rewrite (Evict_good st Hg). split.
  - intros ->. reflexivity.
  - intros Hs. destruct (Z.eqb_spec (Size st) 0); [contradiction|].
    destruct (find (evictable_ st) (rev (new_frame_ st))) as [f|] eqn:E1;
      [eauto|].
    destruct (find _ (cache_frame_ st)) as [e|] eqn:E2; [eauto|].
    exfalso. apply Hs. unfold Size. rewrite (inv_curr st H).
    rewrite (count_all_false _ (new_frame_ st)),
            (count_all_false _ (map fst (cache_frame_ st))); [reflexivity|..].
    + intros g Hg'. apply in_map_iff in Hg'. destruct Hg' as (e & <- & He).
      exact (find_none _ _ E2 e He).
    + intros g Hg'. apply (find_none _ _ E1). now apply -> in_rev.
Qed.

(** X12.  [Evict] is [Remove] of the frame it picks.  On a replacer
    built by the constructor (K at least 1) and fewer than [2^64] calls,
    when [Evict] hands back a frame, that frame was tracked and
    evictable, [Remove] of it gives the very same replacer, and in it the
    frame has no count, no history, is in no queue, and [Size] is one
    less. *)
Theorem Evict_is_Remove_of_victim (num_frames k : Z) (ops : list op)
    (st st' : Replacer) (f : frame_id_t) :
  1 <= k < 2 ^ 64 -> Z.of_nat (length ops) < 2 ^ 64 ->
  run ops (new_replacer num_frames k) = Some st ->
  Evict st = Ok st' (Some f) ->
  evictable_ st f = true /\ recorded_cnt_ st f <> 0 /\
  Remove st f = Ok st' tt /\
  recorded_cnt_ st' f = 0 /\ hist st' f = [] /\
  ~ in_new st' f /\ ~ in_cache st' f /\
  Size st' = Size st - 1.
Proof.
  intros Hk Hlen Hrun He.
  destruct (reachable_good num_frames k ops st Hk Hlen Hrun) as [Hg _].
  pose proof Hg as [_ H].
  destruct (Evict_victim st st' f Hg He) as (Hev & Hc & Hrem & Hst).
  pose proof (Inv_counts st H) as Hcs. pose proof (inv_ts st H) as Hts.
  pose proof (inv_curr st H) as Hcur.
  pose proof (count_nonneg (evictable_ st) (new_frame_ st)).
  pose proof (count_nonneg (evictable_ st) (map fst (cache_frame_ st))).
  assert (Hpos : 1 <= curr_size_ st).
  { destruct Hst as [[Hin _]|[Hin _]]; pose proof (count_pos _ _ f Hin Hev); lia. }
  assert (Hinv' : Inv st').
  { destruct Hst as [[Hin ->]|[Hin ->]];
      [now apply drop_new_Inv|now apply drop_cache_Inv]. }
  assert (Hc' : recorded_cnt_ st' f = 0).
  { destruct Hst as [[_ ->]|[_ ->]]; simpl; apply upd_same. }
  pose proof (inv_k st' Hinv') as Hk'.
  repeat split; auto.
  - destruct Hst as [[_ ->]|[_ ->]]; simpl; apply upd_same.
  - unfold in_new. rewrite (inv_new st' Hinv'). lia.
  - unfold in_cache. rewrite (inv_cache st' Hinv'). lia.
  - unfold Size. destruct Hst as [[_ ->]|[_ ->]]; simpl;
      apply size_t_decr_small; lia.
Qed.

(** X13.  Pinning and unpinning.  On a replacer built by the
    constructor (K at least 1, fewer than [2^64] frames) and fewer than
    [2^64] calls, [SetEvictable(f, false)] on a tracked evictable frame
    lowers [Size] and the capacity ceiling by one and keeps the frame away
    from [Evict]; [SetEvictable(f, true)] right after it gives back the
    replacer as it was. *)
Theorem SetEvictable_accounting (num_frames k : Z) (ops : list op)
    (st : Replacer) (f : frame_id_t) :
  1 <= k < 2 ^ 64 -> 0 <= num_frames < 2 ^ 64 ->
  Z.of_nat (length ops) < 2 ^ 64 ->
  run ops (new_replacer num_frames k) = Some st ->
  recorded_cnt_ st f <> 0 -> evictable_ st f = true ->
  exists st1,
    SetEvictable st f false = Ok st1 tt /\
    Size st1 = Size st - 1 /\ max_size_ st1 = max_size_ st - 1 /\
    evictable_ st1 f = false /\
    victim (Evict st1) <> Some f /\
    exists st2,
      SetEvictable st1 f true = Ok st2 tt /\ same_replacer st2 st.
Proof.
  intros Hk Hn Hlen Hrun Hc Hev.
  destruct (reachable_good num_frames k ops st Hk Hlen Hrun) as [Hg _].
  pose proof Hg as [Hl H].
  pose proof (reachable_Capacity num_frames k ops st Hk Hn Hlen Hrun) as C.
  pose proof (toggle_Inv st f false H Hc) as H1.
  pose proof (toggle_Capacity st f false H C Hc) as C1.
  destruct (toggle_sizes st f false H C Hc) as (_ & _ & T1 & T2 & T3).
  assert (Hc1 : recorded_cnt_ (toggle st f false) f <> 0)
    by now rewrite toggle_cnt.
  destruct (toggle_sizes _ f true H1 C1 Hc1) as (_ & _ & U1 & U2 & U3).
  rewrite Hev in T2, T3.
  assert (Hev1 : evictable_ (toggle st f false) f = false)
    by (rewrite T1; apply upd_same).
  rewrite Hev1 in U2, U3.
  exists (toggle st f false). rewrite SetEvictable_eq by assumption.
  destruct (Z.eqb_spec (recorded_cnt_ st f) 0); [contradiction|].
  unfold Size. repeat split; auto; try lia.
  - intros Hv.
    assert (Hg1 : good (toggle st f false))
      by (split; [now rewrite toggle_latch|assumption]).
    destruct (Evict (toggle st f false)) as [st' [g|]| |] eqn:E;
      simpl in Hv; try discriminate.
    injection Hv as ->.
    destruct (Evict_victim _ _ _ Hg1 E) as (Hv & _). congruence.
  - exists (toggle (toggle st f false) f true).
    rewrite SetEvictable_eq by (now rewrite toggle_latch).
    rewrite toggle_cnt.
    destruct (Z.eqb_spec (recorded_cnt_ st f) 0); [contradiction|].
    split; [reflexivity|].
    unfold same_replacer. rewrite U1, U2, U3, T1, T2, T3.
    unfold toggle. rewrite Hev. simpl. rewrite upd_same. simpl.
    repeat split; try lia.
    intros g. unfold upd. destruct (Z.eqb_spec g f) as [->|]; auto.
Qed.

(** X14.  The replacer never tracks more frames than it was built for.
    On a replacer built by the constructor (K at least 1, fewer than
    [2^64] frames) and fewer than [2^64] calls: the two queues together
    hold at most [num_frames] frames, [Size] is at most the capacity
    ceiling, the ceiling is at most [num_frames], and the ceiling is
    [num_frames] less the tracked frames that are not evictable. *)
Theorem capacity_bounds (num_frames k : Z) (ops : list op) (st : Replacer) :
  1 <= k < 2 ^ 64 -> 0 <= num_frames < 2 ^ 64 ->
  Z.of_nat (length ops) < 2 ^ 64 ->
  run ops (new_replacer num_frames k) = Some st ->
  tracked_count st <= num_frames /\
  Size st <= max_size_ st <= num_frames /\
  max_size_ st = num_frames - (tracked_count st - Size st).
Proof.
  intros Hk Hn Hlen Hrun.
  destruct (reachable_good num_frames k ops st Hk Hlen Hrun) as [Hg _].
  pose proof (reachable_Capacity num_frames k ops st Hk Hn Hlen Hrun)
    as [C1 C2 C3].
  assert (Hsz : replacer_size_ st = num_frames).
  { clear -Hrun Hk Hlen.
    assert (G : forall ops st0 st1, good st0 ->
              current_timestamp_ st0 + Z.of_nat (length ops) < 2 ^ 64 ->
              run ops st0 = Some st1 ->
              replacer_size_ st1 = replacer_size_ st0).
    { induction ops0 as [|o r IH]; intros st0 st1 Hg Hb Hr; simpl in *.
      - now injection Hr as <-.
      - destruct (exec st0 o) as [st2|] eqn:E; [|discriminate].
        destruct (exec_good st0 o st2 Hg ltac:(lia) E) as [Hg2 Ht2].
        rewrite (IH st2 st1 Hg2 ltac:(lia) Hr).
        apply (exec_replacer_size st0 o st2 Hg ltac:(lia) E). }
    apply (G ops (new_replacer num_frames k) st); auto.
    now apply new_replacer_good. }
  pose proof (Inv_counts st (proj2 Hg)). unfold Size. lia.
Qed.

(** X15.  Valid frame ids never block.  With K at least 1 and fewer
    than [2^64] frames, any sequence of fewer than [2^64] calls whose
    [RecordAccess] calls all name a frame id from 0 to [num_frames - 1]
    runs to its end: no call fails to return, because the replacer is
    never at its capacity when such a frame is accessed for the first
    time. *)
Theorem valid_ids_never_block (num_frames k : Z) (ops : list op) :
  1 <= k < 2 ^ 64 -> 0 <= num_frames < 2 ^ 64 ->
  Z.of_nat (length ops) < 2 ^ 64 ->
  valid_ids num_frames ops = true ->
  exists st, run ops (new_replacer num_frames k) = Some st.
Proof.
  intros Hk Hn Hlen Hv.
  apply run_valid_ids; auto.
  - now apply new_replacer_good.
  - now apply new_replacer_Capacity.
  - intros f Hf. simpl in Hf. congruence.
Qed.

(** X16.  What [RecordAccess] changes.  On a replacer built by the
    constructor (K at least 1) and calls that returned, with room for one
    more call below [2^64], a call of [RecordAccess] that returns
    advances the clock by one and the count of the frame by one, leaves
    the capacity ceiling alone, and touches no other frame's count,
    history or flag; the first access of a frame makes it evictable and
    raises [Size] by one, a later access changes neither [Size] nor the
    flag. *)
Theorem RecordAccess_effect (num_frames k : Z) (ops : list op)
    (st st' : Replacer) (f : frame_id_t) :
  1 <= k < 2 ^ 64 -> Z.of_nat (length ops) + 1 < 2 ^ 64 ->
  run ops (new_replacer num_frames k) = Some st ->
  RecordAccess st f = Ok st' tt ->
  current_timestamp_ st' = current_timestamp_ st + 1 /\
  recorded_cnt_ st' f = recorded_cnt_ st f + 1 /\
  max_size_ st' = max_size_ st /\
  (forall g, g <> f ->
     recorded_cnt_ st' g = recorded_cnt_ st g /\
     hist st' g = hist st g /\ evictable_ st' g = evictable_ st g) /\
  (recorded_cnt_ st f = 0 ->
   Size st' = Size st + 1 /\ evictable_ st' f = true) /\
  (recorded_cnt_ st f <> 0 ->
   Size st' = Size st /\ evictable_ st' f = evictable_ st f).
Proof.
  intros Hk Hlen Hrun He.
  destruct (reachable_good num_frames k ops st Hk ltac:(lia) Hrun) as [Hg Hts].
  pose proof Hg as [Hl H]. pose proof (inv_cnt st H f) as Hc.
  rewrite RecordAccess_accessed in He by assumption.
  destruct (f >? _); [discriminate|].
  destruct (_ && _); [discriminate|]. injection He as <-.
  destruct (accessed_sizes st f H ltac:(lia)) as (_ & A2 & A3 & A4 & A5 & A6).
  unfold Size. repeat split; auto.
  - rewrite accessed_cnt, upd_same. apply size_t_incr_small. lia.
  - rewrite accessed_cnt. now apply upd_other.
  - now apply accessed_hist.
  - now apply A5.
  - now apply A5.
  - now apply A6.
  - now apply A6.
Qed.

(** *** Histories *)

(** The history of the frame after [RecordAccess]: the tick is appended,
    and the front is dropped once there are more than K stamps. *)
Lemma accessed_hist_self st f :
  hist (accessed st f) f =
  let l := hist st f ++ [size_t_incr (current_timestamp_ st)] in
  let cnt := size_t_incr (recorded_cnt_ st f) in
  if cnt =? k_ st then l else if cnt >? k_ st then tl l else l.
Proof.
  unfold accessed, promote, touch, enter. cbv zeta. simpl.
  rewrite !upd_same.
  destruct (size_t_incr (recorded_cnt_ st f) =? 1); simpl;
    destruct (size_t_incr (recorded_cnt_ st f) =? k_ st); simpl;
    rewrite ?upd_same; try reflexivity;
    destruct (size_t_incr (recorded_cnt_ st f) >? k_ st); simpl;
    now rewrite ?upd_same.
Qed.

Lemma toggle_hist st f b : hist (toggle st f b) = hist st.
Proof. unfold toggle. destruct (evictable_ st f), b; reflexivity. Qed.

(** Stamps are positive and each history is in the order of the accesses. *)
Definition ordered_hist (st : Replacer) : Prop :=
  forall f, StronglySorted Z.lt (hist st f) /\
            forall t, In t (hist st f) -> 1 <= t.

Lemma Sorted_snoc (l : list Z) x :
  StronglySorted Z.lt l -> (forall y, In y l -> y < x) ->
  StronglySorted Z.lt (l ++ [x]).
Proof.
  induction l as [|a r IH]; simpl; intros Hs Hx.
  - repeat constructor.
  - inversion Hs as [|? ? Hr Ha]; subst. constructor.
    + apply IH; auto.
    + rewrite Forall_forall in *. intros y Hy. apply in_app_or in Hy.
      destruct Hy as [Hy|[<-|[]]]; auto.
Qed.

Lemma Sorted_tl (l : list Z) : StronglySorted Z.lt l -> StronglySorted Z.lt (tl l).
Proof. destruct l; simpl; intros H; [constructor|now inversion H]. Qed.

Lemma exec_ordered_hist st o st' :
  good st -> current_timestamp_ st < 2 ^ 64 - 1 ->
  ordered_hist st -> exec st o = Some st' -> ordered_hist st'.
Proof.
  intros Hg Hsmall Ho He. pose proof Hg as [Hl H].
  pose proof (inv_ts st H) as Hts.
  assert (Hdrop : forall s g, hist s = hist st ->
                              ordered_hist (reset_frame s g)).
  { intros s g Hs f. simpl. rewrite Hs. unfold upd.
    destruct (f =? g); [|apply Ho]. split; [constructor|intros t []]. }
  destruct o as [f| |f b|f|]; simpl in He.
  - rewrite RecordAccess_accessed in He by assumption.
    destruct (f >? _); [simpl in He; now injection He as <-|].
    destruct (_ && _); [discriminate|]. simpl in He. injection He as <-.
    intros g. destruct (Z.eq_dec g f) as [->|Hne];
      [|rewrite accessed_hist by assumption; apply Ho].
    rewrite accessed_hist_self. cbv zeta.
    rewrite (size_t_incr_small (current_timestamp_ st)) by lia.
    destruct (Ho f) as [Hs Hp].
    assert (Hl1 : StronglySorted Z.lt (hist st f ++ [current_timestamp_ st + 1])).
    { apply Sorted_snoc; [assumption|]. intros y Hy.
      pose proof (inv_hist_bound st H f y Hy). lia. }
    assert (Hl2 : forall t, In t (hist st f ++ [current_timestamp_ st + 1]) ->
                            1 <= t).
    { intros t Ht. apply in_app_or in Ht. destruct Ht as [Ht|[<-|[]]];
        [now apply Hp|lia]. }
    destruct (_ =? _); [now split|].
    destruct (_ >? _); [|now split].
    split; [now apply Sorted_tl|]. intros t Ht. apply Hl2. now apply In_tl.
  - rewrite Evict_good in He by assumption.
    destruct (Size st =? 0); [simpl in He; now injection He as <-|].
    destruct (find (evictable_ st) (rev (new_frame_ st))) as [g|].
    { simpl in He. injection He as <-. now apply Hdrop. }
    destruct (find _ (cache_frame_ st)) as [e|];
      simpl in He; injection He as <-; [now apply Hdrop|assumption].
  - rewrite SetEvictable_eq in He by assumption.
    destruct (recorded_cnt_ st f =? 0); simpl in He; injection He as <-;
      [assumption|].
    intros g. rewrite toggle_hist. apply Ho.
  - rewrite Remove_eq in He by assumption.
    destruct (f >? _); [simpl in He; now injection He as <-|].
    destruct (recorded_cnt_ st f =? 0); [simpl in He; now injection He as <-|].
    destruct (evictable_ st f); simpl in He; [|now injection He as <-].
    destruct (recorded_cnt_ st f <? k_ st); simpl in He; injection He as <-;
      now apply Hdrop.
  - now injection He as <-.
Qed.

Lemma run_ordered_hist ops : forall st st',
  good st -> ordered_hist st ->
  current_timestamp_ st + Z.of_nat (length ops) < 2 ^ 64 ->
  run ops st = Some st' -> ordered_hist st'.
Proof.
  induction ops as [|o r IH]; intros st st' Hg Ho Hb Hr; simpl in *.
  - now injection Hr as <-.
  - destruct (exec st o) as [st1|] eqn:E; [|discriminate].
    destruct (exec_good st o st1 Hg ltac:(lia) E) as [Hg1 Ht1].
    pose proof (exec_ordered_hist st o st1 Hg ltac:(lia) Ho E) as Ho1.
    apply (IH st1 st' Hg1 Ho1); [lia|exact Hr].
Qed.

(** X17.  Access histories.  On a replacer built by the constructor
    (K at least 1) and fewer than [2^64] calls, the history of a frame
    holds as many stamps as the frame has recorded accesses, but never
    more than K; the stamps are in strictly increasing order, each between
    1 and the clock; and no stamp is in the histories of two frames. *)
Theorem history_bounded (num_frames k : Z) (ops : list op) (st : Replacer)
    (f : frame_id_t) :
  1 <= k < 2 ^ 64 -> Z.of_nat (length ops) < 2 ^ 64 ->
  run ops (new_replacer num_frames k) = Some st ->
  Z.of_nat (length (hist st f)) = Z.min (recorded_cnt_ st f) k /\
  StronglySorted Z.lt (hist st f) /\
  (forall t, In t (hist st f) -> 1 <= t <= current_timestamp_ st) /\
  (forall g t, In t (hist st f) -> In t (hist st g) -> f = g).
Proof.
  intros Hk Hlen Hrun.
  destruct (reachable_good num_frames k ops st Hk Hlen Hrun) as [[_ H] _].
  assert (Ho : ordered_hist st).
  { apply (run_ordered_hist ops (new_replacer num_frames k) st); auto.
    - now apply new_replacer_good.
    - intros g. simpl. split; [constructor|intros t []]. }
  assert (Hkk : k_ st = k).
  { clear -Hrun Hk Hlen.
    assert (G : forall ops st0 st1, good st0 ->
              current_timestamp_ st0 + Z.of_nat (length ops) < 2 ^ 64 ->
              run ops st0 = Some st1 -> k_ st1 = k_ st0).
    { induction ops0 as [|o r IH]; intros st0 st1 Hg Hb Hr; simpl in *.
      - now injection Hr as <-.
      - destruct (exec st0 o) as [st2|] eqn:E; [|discriminate].
        destruct (exec_good st0 o st2 Hg ltac:(lia) E) as [Hg2 Ht2].
        rewrite (IH st2 st1 Hg2 ltac:(lia) Hr).
        apply (exec_cnt st0 o st2 0 Hg ltac:(lia) E). }
    apply (G ops (new_replacer num_frames k) st); auto.
    now apply new_replacer_good. }
  destruct (Ho f) as [Hs Hp].
  split; [rewrite <- Hkk; apply (inv_hist_len st H)|].
  split; [assumption|]. split.
  - intros t Ht. split; [now apply Hp|now apply (inv_hist_bound st H f)].
  - intros g t. apply (inv_hist_owner st H).
Qed.

(** *** The order of the two queues *)

(** X18.  How [RecordAccess] keeps the queues: after any run, the below-K
    queue holds each of its frames once, the front the one first accessed
    last (so [Evict], walking it from the back, meets the earliest first
    access first); the at/above-K queue holds each of its frames once, is
    ordered by [CmpTimestamp] from the front, and the stamp stored with a
    frame is the frame's K-th most recent access. *)
Theorem queues_ordered (num_frames k : Z) (ops : list op) (st : Replacer) :
  1 <= k < 2 ^ 64 -> Z.of_nat (length ops) < 2 ^ 64 ->
  run ops (new_replacer num_frames k) = Some st ->
  NoDup (new_frame_ st) /\
  StronglySorted Z.gt (map (first_access st) (new_frame_ st)) /\
  NoDup (map fst (cache_frame_ st)) /\
  StronglySorted (fun a b => CmpTimestamp a b = true) (cache_frame_ st) /\
  (forall f t, In (f, t) (cache_frame_ st) -> t = kth_recent_access st f).
Proof.
  intros Hk Hlen Hrun.
  destruct (reachable_good num_frames k ops st Hk Hlen Hrun) as [[_ HI] _].
  split; [exact (inv_new_nodup st HI)|].
  split; [exact (inv_new_sorted st HI)|].
  split; [exact (inv_cache_nodup st HI)|].
  split.
  - pose proof (inv_cache_sorted st HI) as Hs.
    induction Hs as [|a l Hs IH Hall]; constructor; [exact IH|].
    eapply Forall_impl; [|exact Hall].
    intros b Hb. unfold CmpTimestamp. apply Z.ltb_lt. exact Hb.
  - intros f t Hin.
    pose proof (inv_cache_time st HI (f, t) Hin) as Ht. simpl in Ht.
    rewrite kth_recent_access_oldest; [exact Ht|exact HI|].
    apply (inv_cache st HI). apply in_map_iff. exists (f, t). auto.
Qed.

(** *** Instances of the further properties on the four-access scenario *)

Lemma Size_counts_evictable_witness :
  1 <= 2 < 2 ^ 64 /\ Z.of_nat (length scenario) < 2 ^ 64 /\
  run scenario (new_replacer 3 2) = Some scenario_state /\
  Size scenario_state
  = count (evictable_ scenario_state) (new_frame_ scenario_state)
    + count (evictable_ scenario_state)
        (map fst (cache_frame_ scenario_state)) /\
  0 <= Size scenario_state <= tracked_count scenario_state.
Proof.
  assert (H1 : 1 <= 2 < 2 ^ 64) by lia.
  assert (H2 : Z.of_nat (length scenario) < 2 ^ 64) by (simpl; lia).
  split; [exact H1|]. split; [exact H2|]. split; [exact scenario_run|].
  exact (Size_counts_evictable 3 2 scenario scenario_state H1 H2 scenario_run).
Defined.

Lemma Evict_iff_Size_witness :
  1 <= 2 < 2 ^ 64 /\ Z.of_nat (length scenario) < 2 ^ 64 /\
  run scenario (new_replacer 3 2) = Some scenario_state /\
  (Size scenario_state = 0 -> Evict scenario_state = Ok scenario_state None) /\
  (Size scenario_state <> 0 ->
   exists st' f, Evict scenario_state = Ok st' (Some f)).
Proof.
  assert (H1 : 1 <= 2 < 2 ^ 64) by lia.
  assert (H2 : Z.of_nat (length scenario) < 2 ^ 64) by (simpl; lia).
  split; [exact H1|]. split; [exact H2|]. split; [exact scenario_run|].
  exact (Evict_iff_Size 3 2 scenario scenario_state H1 H2 scenario_run).
Defined.

Lemma scenario_Evict :
  Evict scenario_state = Ok (drop_new scenario_state 2) (Some 2).
Proof. vm_compute. reflexivity. Qed.

Lemma Evict_is_Remove_of_victim_witness :
  1 <= 2 < 2 ^ 64 /\ Z.of_nat (length scenario) < 2 ^ 64 /\
  run scenario (new_replacer 3 2) = Some scenario_state /\
  Evict scenario_state = Ok (drop_new scenario_state 2) (Some 2) /\
  evictable_ scenario_state 2 = true /\
  recorded_cnt_ scenario_state 2 <> 0 /\
  Remove scenario_state 2 = Ok (drop_new scenario_state 2) tt /\
  recorded_cnt_ (drop_new scenario_state 2) 2 = 0 /\
  hist (drop_new scenario_state 2) 2 = [] /\
  ~ in_new (drop_new scenario_state 2) 2 /\
  ~ in_cache (drop_new scenario_state 2) 2 /\
  Size (drop_new scenario_state 2) = Size scenario_state - 1.
Proof.
  assert (H1 : 1 <= 2 < 2 ^ 64) by lia.
  assert (H2 : Z.of_nat (length scenario) < 2 ^ 64) by (simpl; lia).
  split; [exact H1|]. split; [exact H2|]. split; [exact scenario_run|].
  split; [exact scenario_Evict|].
  exact (Evict_is_Remove_of_victim 3 2 scenario scenario_state
           (drop_new scenario_state 2) 2 H1 H2 scenario_run scenario_Evict).
Defined.

Lemma SetEvictable_accounting_witness :
  1 <= 2 < 2 ^ 64 /\ 0 <= 3 < 2 ^ 64 /\
  Z.of_nat (length scenario) < 2 ^ 64 /\
  run scenario (new_replacer 3 2) = Some scenario_state /\
  recorded_cnt_ scenario_state 1 <> 0 /\
  evictable_ scenario_state 1 = true /\
  exists st1,
    SetEvictable scenario_state 1 false = Ok st1 tt /\
    Size st1 = Size scenario_state - 1 /\
    max_size_ st1 = max_size_ scenario_state - 1 /\
    evictable_ st1 1 = false /\
    victim (Evict st1) <> Some 1 /\
    exists st2,
      SetEvictable st1 1 true = Ok st2 tt /\ same_replacer st2 scenario_state.
Proof.
  assert (H1 : 1 <= 2 < 2 ^ 64) by lia.
  assert (H2 : 0 <= 3 < 2 ^ 64) by lia.
  assert (H3 : Z.of_nat (length scenario) < 2 ^ 64) by (simpl; lia).
  assert (H4 : recorded_cnt_ scenario_state 1 <> 0)
    by (vm_compute; discriminate).
  assert (H5 : evictable_ scenario_state 1 = true) by reflexivity.
  split; [exact H1|]. split; [exact H2|]. split; [exact H3|].
  split; [exact scenario_run|]. split; [exact H4|]. split; [exact H5|].
  exact (SetEvictable_accounting 3 2 scenario scenario_state 1
           H1 H2 H3 scenario_run H4 H5).
Defined.

Lemma capacity_bounds_witness :
  1 <= 2 < 2 ^ 64 /\ 0 <= 3 < 2 ^ 64 /\
  Z.of_nat (length scenario) < 2 ^ 64 /\
  run scenario (new_replacer 3 2) = Some scenario_state /\
  tracked_count scenario_state <= 3 /\
  Size scenario_state <= max_size_ scenario_state <= 3 /\
  max_size_ scenario_state
  = 3 - (tracked_count scenario_state - Size scenario_state).
Proof.
  assert (H1 : 1 <= 2 < 2 ^ 64) by lia.
  assert (H2 : 0 <= 3 < 2 ^ 64) by lia.
  assert (H3 : Z.of_nat (length scenario) < 2 ^ 64) by (simpl; lia).
  split; [exact H1|]. split; [exact H2|]. split; [exact H3|].
  split; [exact scenario_run|].
  exact (capacity_bounds 3 2 scenario scenario_state H1 H2 H3 scenario_run).
Defined.

Lemma valid_ids_never_block_witness :
  1 <= 2 < 2 ^ 64 /\ 0 <= 4 < 2 ^ 64 /\
  Z.of_nat (length (scenario ++ [OpEvict; OpSetEvictable 0 false;
                                 OpRemove 3])) < 2 ^ 64 /\
  valid_ids 4 (scenario ++ [OpEvict; OpSetEvictable 0 false; OpRemove 3])
  = true /\
  exists st,
    run (scenario ++ [OpEvict; OpSetEvictable 0 false; OpRemove 3])
      (new_replacer 4 2) = Some st.
Proof.
  assert (H1 : 1 <= 2 < 2 ^ 64) by lia.
  assert (H2 : 0 <= 4 < 2 ^ 64) by lia.
  assert (H3 : Z.of_nat (length (scenario ++ [OpEvict; OpSetEvictable 0 false;
                                              OpRemove 3])) < 2 ^ 64)
    by (simpl; lia).
  assert (H4 : valid_ids 4 (scenario ++ [OpEvict; OpSetEvictable 0 false;
                                         OpRemove 3]) = true)
    by reflexivity.
  split; [exact H1|]. split; [exact H2|]. split; [exact H3|].
  split; [exact H4|].
  exact (valid_ids_never_block 4 2
           (scenario ++ [OpEvict; OpSetEvictable 0 false; OpRemove 3])
           H1 H2 H3 H4).
Defined.

Lemma scenario_RecordAccess :
  RecordAccess scenario_state 2 = Ok (accessed scenario_state 2) tt.
Proof. vm_compute. reflexivity. Qed.

Lemma RecordAccess_effect_witness :
  1 <= 2 < 2 ^ 64 /\ Z.of_nat (length scenario) + 1 < 2 ^ 64 /\
  run scenario (new_replacer 3 2) = Some scenario_state /\
  RecordAccess scenario_state 2 = Ok (accessed scenario_state 2) tt /\
  current_timestamp_ (accessed scenario_state 2)
  = current_timestamp_ scenario_state + 1 /\
  recorded_cnt_ (accessed scenario_state 2) 2
  = recorded_cnt_ scenario_state 2 + 1 /\
  max_size_ (accessed scenario_state 2) = max_size_ scenario_state /\
  (forall g, g <> 2 ->
     recorded_cnt_ (accessed scenario_state 2) g
     = recorded_cnt_ scenario_state g /\
     hist (accessed scenario_state 2) g = hist scenario_state g /\
     evictable_ (accessed scenario_state 2) g = evictable_ scenario_state g) /\
  (recorded_cnt_ scenario_state 2 = 0 ->
   Size (accessed scenario_state 2) = Size scenario_state + 1 /\
   evictable_ (accessed scenario_state 2) 2 = true) /\
  (recorded_cnt_ scenario_state 2 <> 0 ->
   Size (accessed scenario_state 2) = Size scenario_state /\
   evictable_ (accessed scenario_state 2) 2 = evictable_ scenario_state 2).
Proof.
  assert (H1 : 1 <= 2 < 2 ^ 64) by lia.
  assert (H2 : Z.of_nat (length scenario) + 1 < 2 ^ 64) by (simpl; lia).
  split; [exact H1|]. split; [exact H2|]. split; [exact scenario_run|].
  split; [exact scenario_RecordAccess|].
  exact (RecordAccess_effect 3 2 scenario scenario_state
           (accessed scenario_state 2) 2 H1 H2 scenario_run
           scenario_RecordAccess).
Defined.

Lemma history_bounded_witness :
  1 <= 2 < 2 ^ 64 /\ Z.of_nat (length scenario) < 2 ^ 64 /\
  run scenario (new_replacer 3 2) = Some scenario_state /\
  Z.of_nat (length (hist scenario_state 1))
  = Z.min (recorded_cnt_ scenario_state 1) 2 /\
  StronglySorted Z.lt (hist scenario_state 1) /\
  (forall t, In t (hist scenario_state 1) ->
             1 <= t <= current_timestamp_ scenario_state) /\
  (forall g t, In t (hist scenario_state 1) ->
               In t (hist scenario_state g) -> 1 = g).
Proof.
  assert (H1 : 1 <= 2 < 2 ^ 64) by lia.
  assert (H2 : Z.of_nat (length scenario) < 2 ^ 64) by (simpl; lia).
  split; [exact H1|]. split; [exact H2|]. split; [exact scenario_run|].
  exact (history_bounded 3 2 scenario scenario_state 1 H1 H2 scenario_run).
Defined.

Lemma queues_ordered_witness :
  1 <= 2 < 2 ^ 64 /\ Z.of_nat (length scenario) < 2 ^ 64 /\
  run scenario (new_replacer 3 2) = Some scenario_state /\
  NoDup (new_frame_ scenario_state) /\
  StronglySorted Z.gt
    (map (first_access scenario_state) (new_frame_ scenario_state)) /\
  NoDup (map fst (cache_frame_ scenario_state)) /\
  StronglySorted (fun a b => CmpTimestamp a b = true)
    (cache_frame_ scenario_state) /\
  (forall f t, In (f, t) (cache_frame_ scenario_state) ->
               t = kth_recent_access scenario_state f).
Proof.
  assert (H1 : 1 <= 2 < 2 ^ 64) by lia.
  assert (H2 : Z.of_nat (length scenario) < 2 ^ 64) by (simpl; lia).
  split; [exact H1|]. split; [exact H2|]. split; [exact scenario_run|].
  exact (queues_ordered 3 2 scenario scenario_state H1 H2 scenario_run).
Defined.

End LRUKReplacer.
